(** * Query composition, relevance ranking, facets and CSV export of the
      disease catalogue controller (controllers/diseaseController.js).

    The development is a shallow embedding: every controller function is a
    Rocq function of the same name, JavaScript objects keyed by field names
    are finite maps, and the storage engine is an in-memory collection. *)

From Stdlib Require Import Ascii String ZArith List Bool Lia Permutation.
From Stdlib Require Import Sorting.Sorted.
From stdpp Require Import base option list gmap strings.

Import ListNotations.
Local Open Scope Z_scope.
Local Open Scope stdpp_scope.
Local Open Scope list_scope.

(** ** JavaScript strings

    Strings are sequences of code units; the model covers the code units
    below 128, written with Rocq's [ascii]. *)
Module Js.

(** White space and line terminators removed by [String.prototype.trim]. *)
Definition isWhiteSpace (c : ascii) : bool :=
  match c with
  | "009" | "010" | "011" | "012" | "013" | " " => true
  | _ => false
  end%char.

Fixpoint trimStart (s : string) : string :=
  match s with
  | EmptyString => EmptyString
  | String c s' => if isWhiteSpace c then trimStart s' else s
  end.

Fixpoint trimEnd (s : string) : string :=
  match s with
  | EmptyString => EmptyString
  | String c s' =>
      match trimEnd s' with
      | EmptyString => if isWhiteSpace c then EmptyString else String c EmptyString
      | t => String c t
      end
  end.

(** [s.trim()] *)
Definition trim (s : string) : string := trimEnd (trimStart s).

(** [s.length] *)
Definition length (s : string) : Z := Z.of_nat (String.length s).

(** Truthiness of a string value: only the empty string is falsy. *)
Definition truthy (s : string) : bool :=
  match s with EmptyString => false | _ => true end.

(** Truthiness of a possibly [undefined] string. *)
Definition truthyOpt (o : option string) : bool :=
  match o with Some s => truthy s | None => false end.

Fixpoint startsWith (pre s : string) : bool :=
  match pre, s with
  | EmptyString, _ => true
  | String a pre', String b s' => if Ascii.eqb a b then startsWith pre' s' else false
  | String _ _, EmptyString => false
  end.

(** [s.includes(sub)] *)
Fixpoint includes (sub s : string) : bool :=
  startsWith sub s ||
  match s with
  | EmptyString => false
  | String _ s' => includes sub s'
  end.

(** [s.includes(c)] for a one-character needle. *)
Fixpoint includesChar (c : ascii) (s : string) : bool :=
  match s with
  | EmptyString => false
  | String d s' => Ascii.eqb c d || includesChar c s'
  end.

(** Case canonicalisation used by the [i] flag: the upper-case mapping of
    a single code unit. *)
Definition canonicalize (c : ascii) : ascii :=
  let n := N_of_ascii c in
  if ((97 <=? n) && (n <=? 122))%N then ascii_of_N (n - 32) else c.

Fixpoint toUpperCase (s : string) : string :=
  match s with
  | EmptyString => EmptyString
  | String c s' => String (canonicalize c) (toUpperCase s')
  end.

(** JavaScript numbers as far as the controller needs them: the doubles
    with an integer value, the two infinities and [NaN]. *)
Inductive Number := NaN | Num (z : Z) | Infinity (negative : bool).

(** The Number value for a mathematical integer: the integer itself below
    2^53 in magnitude, else the nearest double (53 significant bits, a tie
    going to the even significand), and an infinity where that is out of
    range. *)
Definition roundDouble (z : Z) : Number :=
  let a := Z.abs z in
  if a <? 2 ^ 53 then Num z
  else
    let e := Z.log2 a - 52 in
    let q := a / 2 ^ e in
    let r := a mod 2 ^ e in
    let half := 2 ^ (e - 1) in
    let q' := if (half <? r) || ((r =? half) && Z.odd q) then q + 1 else q in
    if 2 ^ 1024 <=? q' * 2 ^ e then Infinity (z <? 0)
    else Num (Z.sgn z * (q' * 2 ^ e)).

Definition digitValue (c : ascii) : option Z :=
  let n := Z.of_N (N_of_ascii c) in
  if (48 <=? n) && (n <=? 57) then Some (n - 48)
  else if (97 <=? n) && (n <=? 122) then Some (n - 87)
  else if (65 <=? n) && (n <=? 90) then Some (n - 55)
  else None.

(** The longest prefix of digits of the radix, read from left to right;
    [None] when there is no digit at all. *)
Fixpoint parseDigits (radix : Z) (s : string) (acc : option Z) : option Z :=
  match s with
  | EmptyString => acc
  | String c s' =>
      match digitValue c with
      | Some d =>
          if d <? radix
          then parseDigits radix s' (Some (default 0 acc * radix + d))
          else acc
      | None => acc
      end
  end.

(** [parseInt(s)] without a radix argument: leading white space, an
    optional sign, an optional [0x] prefix, then digits. *)
Definition parseInt (s : string) : Number :=
  let s1 := trimStart s in
  let '(sign, s2) :=
    match s1 with
    | String "-"%char r => (-1, r)
    | String "+"%char r => (1, r)
    | _ => (1, s1)
    end in
  let '(radix, s3) :=
    match s2 with
    | String "0"%char (String "x"%char r) => (16, r)
    | String "0"%char (String "X"%char r) => (16, r)
    | _ => (10, s2)
    end in
  match parseDigits radix s3 None with
  | Some n => roundDouble (sign * n)
  | None => NaN
  end.

(** [Math.min(a, b)] and [Math.max(a, b)] *)
Definition mathMin (a b : Number) : Number :=
  match a, b with
  | NaN, _ | _, NaN => NaN
  | Infinity true, _ | _, Infinity true => Infinity true
  | Infinity false, other | other, Infinity false => other
  | Num x, Num y => Num (Z.min x y)
  end.

Definition mathMax (a b : Number) : Number :=
  match a, b with
  | NaN, _ | _, NaN => NaN
  | Infinity false, _ | _, Infinity false => Infinity false
  | Infinity true, other | other, Infinity true => other
  | Num x, Num y => Num (Z.max x y)
  end.

(** [a || b] on numbers: [NaN] and [0] are falsy. *)
Definition orElse (a b : Number) : Number :=
  match a with
  | NaN | Num 0 => b
  | _ => a
  end.

End Js.

(** ** Sanitizer and regular expressions *)

(** The character class [[.*+?^${}()|[\]\\]] of the sanitising [replace]. *)
Definition isSyntaxChar (c : ascii) : bool :=
  match c with
  | "." | "*" | "+" | "?" | "^" | "$" | "{" | "}"
  | "(" | ")" | "|" | "[" | "]" | "\" => true
  | _ => false
  end%char.

Definition syntaxChars : list ascii :=
  ["."; "*"; "+"; "?"; "^"; "$"; "{"; "}"; "("; ")"; "|"; "["; "]"; "\"]%char.

(** [s.replace(/[.*+?^${}()|[\]\\]/g, '\\$&')]: every occurrence of a
    character of the class is replaced by a backslash followed by itself. *)
Fixpoint escapeRegExp (s : string) : string :=
  match s with
  | EmptyString => EmptyString
  | String c s' =>
      if isSyntaxChar c
      then String "\"%char (String c (escapeRegExp s'))
      else String c (escapeRegExp s')
  end.

(** *** Regular expressions

    The model covers the patterns built from pattern characters, identity
    escapes of syntax characters, the dot, alternation, groups and the
    quantifiers star, plus and question mark.  Without back references
    and look-around, whether a text has a match does not depend on the
    order in which the engine tries the alternatives. *)
Inductive Regex :=
| RNull
| REmpty
| RChar (c : ascii)
| RAny
| RSeq (r1 r2 : Regex)
| RAlt (r1 r2 : Regex)
| RStar (r : Regex).

(** A compiled regular expression; [ignoreCase] is the [i] flag. *)
Record RegExp := mkRegExp { pattern : Regex; ignoreCase : bool }.

(** The parser keeps one frame per open group: the alternatives that are
    complete, the atoms of the alternative being read (latest first), and
    whether the latest atom may take a quantifier. *)
Record Frame := mkFrame {
  alternatives : list Regex;
  atoms : list Regex;
  canQuantify : bool
}.

Definition emptyFrame : Frame := mkFrame [] [] false.

Definition seqOf (rs : list Regex) : Regex := foldr RSeq REmpty rs.

Definition pushAtom (r : Regex) (f : Frame) : Frame :=
  mkFrame (alternatives f) (r :: atoms f) true.

Definition quantify (q : Regex → Regex) (f : Frame) : option Frame :=
  if canQuantify f then
    match atoms f with
    | a :: rest => Some (mkFrame (alternatives f) (q a :: rest) false)
    | [] => None
    end
  else None.

Definition nextAlternative (f : Frame) : Frame :=
  mkFrame (seqOf (rev (atoms f)) :: alternatives f) [] false.

Definition closeFrame (f : Frame) : Regex :=
  foldr RAlt (seqOf (rev (atoms f))) (rev (alternatives f)).

Definition plus (r : Regex) : Regex := RSeq r (RStar r).
Definition optional (r : Regex) : Regex := RAlt r REmpty.

(** Pattern parsing, one character at a time.  [None] stands for a
    [SyntaxError] or for a pattern outside the fragment: a class, an
    anchor, a brace, a class escape, a lazy quantifier. *)
Fixpoint parseFrames (p : string) (cur : Frame) (stack : list Frame)
  : option Regex :=
  match p with
  | EmptyString =>
      match stack with
      | [] => Some (closeFrame cur)
      | _ => None
      end
  | String c rest =>
      if Ascii.eqb c "\"%char then
        match rest with
        | EmptyString => None
        | String d rest' =>
            if isSyntaxChar d
            then parseFrames rest' (pushAtom (RChar d) cur) stack
            else None
        end
      else if Ascii.eqb c "("%char then parseFrames rest emptyFrame (cur :: stack)
      else if Ascii.eqb c ")"%char then
        match stack with
        | parent :: stack' =>
            parseFrames rest (pushAtom (closeFrame cur) parent) stack'
        | [] => None
        end
      else if Ascii.eqb c "|"%char then parseFrames rest (nextAlternative cur) stack
      else if Ascii.eqb c "*"%char then
        match quantify RStar cur with
        | Some f => parseFrames rest f stack
        | None => None
        end
      else if Ascii.eqb c "+"%char then
        match quantify plus cur with
        | Some f => parseFrames rest f stack
        | None => None
        end
      else if Ascii.eqb c "?"%char then
        match quantify optional cur with
        | Some f => parseFrames rest f stack
        | None => None
        end
      else if Ascii.eqb c "."%char then parseFrames rest (pushAtom RAny cur) stack
      else if isSyntaxChar c then None
      else parseFrames rest (pushAtom (RChar c) cur) stack
  end.

Definition parsePattern (p : string) : option Regex :=
  parseFrames p emptyFrame [].

Definition parseFlags (flags : string) : option bool :=
  if String.eqb flags "i" then Some true
  else if String.eqb flags "" then Some false
  else None.

(** [new RegExp(pattern, flags)] *)
Definition newRegExp (pattern flags : string) : option RegExp :=
  r ← parsePattern pattern;
  ic ← parseFlags flags;
  Some (mkRegExp r ic).

Definition charMatches (ic : bool) (a b : ascii) : bool :=
  if ic then Ascii.eqb (Js.canonicalize a) (Js.canonicalize b) else Ascii.eqb a b.

(** The dot matches every character but the line terminators. *)
Definition isLineTerminator (c : ascii) : bool :=
  match c with
  | "010" | "013" => true
  | _ => false
  end%char.

(** The regular expression matches the empty text. *)
Fixpoint nullable (r : Regex) : bool :=
  match r with
  | RNull | RChar _ | RAny => false
  | REmpty | RStar _ => true
  | RSeq r1 r2 => nullable r1 && nullable r2
  | RAlt r1 r2 => nullable r1 || nullable r2
  end.

(** What remains to be matched after the character [c]. *)
Fixpoint derive (ic : bool) (c : ascii) (r : Regex) : Regex :=
  match r with
  | RNull | REmpty => RNull
  | RChar a => if charMatches ic a c then REmpty else RNull
  | RAny => if isLineTerminator c then RNull else REmpty
  | RSeq r1 r2 =>
      if nullable r1
      then RAlt (RSeq (derive ic c r1) r2) (derive ic c r2)
      else RSeq (derive ic c r1) r2
  | RAlt r1 r2 => RAlt (derive ic c r1) (derive ic c r2)
  | RStar r' => RSeq (derive ic c r') (RStar r')
  end.

(** Some prefix of the text matches. *)
Fixpoint matchesHere (ic : bool) (r : Regex) (s : string) : bool :=
  nullable r ||
  match s with
  | EmptyString => false
  | String c s' => matchesHere ic (derive ic c r) s'
  end.

(** Unanchored search: try every start position from left to right. *)
Fixpoint searchFrom (ic : bool) (r : Regex) (s : string) : bool :=
  matchesHere ic r s ||
  match s with
  | EmptyString => false
  | String _ s' => searchFrom ic r s'
  end.

(** [re.test(s)], also the meaning of [{ field: re }] and [$regexMatch]. *)
Definition regexTest (re : RegExp) (s : string) : bool :=
  searchFrom (ignoreCase re) (pattern re) s.

(** The texts a regular expression matches as a whole. *)
Inductive Matches (ic : bool) : Regex → string → Prop :=
| MatchEmpty : Matches ic REmpty ""
| MatchChar a b : charMatches ic a b = true → Matches ic (RChar a) (String b "")
| MatchAny b : isLineTerminator b = false → Matches ic RAny (String b "")
| MatchSeq r1 r2 s1 s2 :
    Matches ic r1 s1 → Matches ic r2 s2 → Matches ic (RSeq r1 r2) (s1 +:+ s2)
| MatchAltL r1 r2 s : Matches ic r1 s → Matches ic (RAlt r1 r2) s
| MatchAltR r1 r2 s : Matches ic r2 s → Matches ic (RAlt r1 r2) s
| MatchStarNil r : Matches ic (RStar r) ""
| MatchStarApp r s1 s2 :
    Matches ic r s1 → Matches ic (RStar r) s2 → Matches ic (RStar r) (s1 +:+ s2).

(** The frame after reading the characters of a literal text. *)
Fixpoint pushLiteral (s : string) (f : Frame) : Frame :=
  match s with
  | EmptyString => f
  | String c s' => pushLiteral s' (pushAtom (RChar c) f)
  end.

(** The regular expression of one literal text. *)
Fixpoint literalRegex (s : string) : Regex :=
  match s with
  | EmptyString => REmpty
  | String c s' => RSeq (RChar c) (literalRegex s')
  end.

(** The case-insensitive regular expression of one literal text. *)
Definition literalRegExp (s : string) : RegExp := mkRegExp (literalRegex s) true.

(** Two strings equal up to the case of their letters. *)
Definition eqIgnoreCase (a b : string) : Prop :=
  Js.toUpperCase a = Js.toUpperCase b.

(** [needle] occurs in [hay] as a contiguous run of characters, up to the
    case of letters. *)
Definition occursIgnoreCase (needle hay : string) : Prop :=
  ∃ pre mid post, hay = pre +:+ mid +:+ post ∧ eqIgnoreCase mid needle.

(** Boolean form of [occursIgnoreCase]. *)
Definition containsIgnoreCase (needle hay : string) : bool :=
  Js.includes (Js.toUpperCase needle) (Js.toUpperCase hay).


(** ** Records of the collection (models/diseaseModel.js)

    Documents come from storage as plain objects; any of the five text
    fields may be missing.  Dates are time values in milliseconds since
    the epoch. *)
Record Metadata := mkMetadata {
  source : option string;
  dateAdded : option Z;
  lastUpdated : option Z;
  verified : bool
}.

Record Entry := mkEntry {
  disease : option string;
  autoantibody : option string;
  autoantigen : option string;
  epitope : option string;
  uniprotId : option string;
  createdAt : option Z;
  metadata : option Metadata
}.

(** [entry[name]] for the five searchable text fields. *)
Definition getField (name : string) (e : Entry) : option string :=
  if String.eqb name "disease" then disease e
  else if String.eqb name "autoantibody" then autoantibody e
  else if String.eqb name "autoantigen" then autoantigen e
  else if String.eqb name "epitope" then epitope e
  else if String.eqb name "uniprotId" then uniprotId e
  else None.

(** ** Storage queries

    A query object is either a plain object mapping field names to regular
    expressions (all of them must match; the empty object matches every
    record), or an [$or] / [$and] of query objects. *)
#[warnings="-register-all"]
Inductive Query :=
| QFields (conds : gmap string RegExp)
| QOr (qs : list Query)
| QAnd (qs : list Query).

(** [{ name: re }] holds of a record whose field [name] is present and
    matches [re]. *)
Definition fieldMatches (e : Entry) (name : string) (re : RegExp) : Prop :=
  ∃ v, getField name e = Some v ∧ regexTest re v = true.

Definition fieldMatchesb (e : Entry) (name : string) (re : RegExp) : bool :=
  match getField name e with
  | Some v => regexTest re v
  | None => false
  end.

Fixpoint matchesQuery (q : Query) (e : Entry) : bool :=
  match q with
  | QFields conds =>
      bool_decide (map_Forall (λ name re, fieldMatchesb e name re = true) conds)
  | QOr qs => existsb (λ q', matchesQuery q' e) qs
  | QAnd qs => forallb (λ q', matchesQuery q' e) qs
  end.

(** ** QueryBuilder *)

(** The query-string parameters read by [buildCombinedQuery]; each one is
    a string or [undefined]. *)
Record SearchParams := mkSearchParams {
  p_search : option string;
  p_field : option string;
  p_disease : option string;
  p_autoantibody : option string;
  p_autoantigen : option string;
  p_epitope : option string
}.

(** The guard [v && v.trim()]: the trimmed text when it is not empty. *)
Definition nonBlank (v : option string) : option string :=
  match v with
  | Some s =>
      if Js.truthy s && Js.truthy (Js.trim s) then Some (Js.trim s) else None
  | None => None
  end.

Definition searchFields : list string :=
  ["disease"; "autoantibody"; "autoantigen"; "epitope"; "uniprotId"].

(** [list.includes(field)] for a possibly [undefined] field. *)
Definition includesField (l : list string) (field : option string) : bool :=
  match field with
  | Some f => existsb (String.eqb f) l
  | None => false
  end.

(** The text-search part of [buildCombinedQuery]: [searchConditions]. *)
Definition searchConditions (p : SearchParams) : option (list Query) :=
  match nonBlank (p_search p) with
  | Some t =>
      searchRegex ← newRegExp (escapeRegExp t) "i";
      if bool_decide (p_field p = Some "all") then
        Some [QOr [QFields {[ "disease" := searchRegex ]};
                   QFields {[ "autoantibody" := searchRegex ]};
                   QFields {[ "autoantigen" := searchRegex ]};
                   QFields {[ "epitope" := searchRegex ]};
                   QFields {[ "uniprotId" := searchRegex ]}]]
      else if includesField searchFields (p_field p) then
        Some [QFields {[ default "" (p_field p) := searchRegex ]}]
      else Some []
  | None => Some []
  end.

(** One [if (v && v.trim()) filterConditions.push({ name: ... })]. *)
Definition filterCondition (name : string) (v : option string)
  : option (list Query) :=
  match nonBlank v with
  | Some t =>
      re ← newRegExp (escapeRegExp t) "i";
      Some [QFields {[ name := re ]}]
  | None => Some []
  end.

(** The structured part of [buildCombinedQuery]: [filterConditions]. *)
Definition filterConditions (p : SearchParams) : option (list Query) :=
  c1 ← filterCondition "disease" (p_disease p);
  c2 ← filterCondition "autoantibody" (p_autoantibody p);
  c3 ← filterCondition "autoantigen" (p_autoantigen p);
  c4 ← filterCondition "epitope" (p_epitope p);
  Some (c1 ++ c2 ++ c3 ++ c4).

(** [[...searchConditions, ...filterConditions]] *)
Definition allConditions (p : SearchParams) : option (list Query) :=
  sc ← searchConditions p;
  fc ← filterConditions p;
  Some (sc ++ fc).

(** [buildCombinedQuery(searchParams)]; [None] stands for an exception
    thrown by a [RegExp] constructor. *)
Definition buildCombinedQuery (p : SearchParams) : option Query :=
  conds ← allConditions p;
  match conds with
  | [] => Some (QFields ∅)
  | [c] => Some c
  | _ => Some (QAnd conds)
  end.

(** ** The storage engine

    The collection is a list of records.  A document flowing through an
    aggregation pipeline carries the record and the [relevanceScore] field
    once [$addFields] has set it. *)
Record Doc := mkDoc {
  entry : Entry;
  relevanceScore : option Z
}.

(** Values compared by a sort: a missing field sorts as null, null sorts
    before numbers, numbers before strings; strings compare code unit by
    code unit. *)
Inductive Value := VNull | VNum (z : Z) | VStr (s : string).

Definition compareValue (a b : Value) : comparison :=
  match a, b with
  | VNull, VNull => Eq
  | VNull, _ => Lt
  | _, VNull => Gt
  | VNum x, VNum y => Z.compare x y
  | VNum _, VStr _ => Lt
  | VStr _, VNum _ => Gt
  | VStr x, VStr y => String.compare x y
  end.

Definition optValue {A} (f : A → Value) (o : option A) : Value :=
  match o with
  | Some a => f a
  | None => VNull
  end.

(** The value of a sort key in a document. *)
Definition docValue (key : string) (d : Doc) : Value :=
  if String.eqb key "relevanceScore" then optValue VNum (relevanceScore d)
  else optValue VStr (getField key (entry d)).

(** A sort specification [{ key: 1 | -1, ... }], in key order. *)
Definition SortSpec := list (string * Z).

Fixpoint compareDocs (spec : SortSpec) (a b : Doc) : comparison :=
  match spec with
  | [] => Eq
  | (key, dir) :: rest =>
      match compareValue (docValue key a) (docValue key b) with
      | Eq => compareDocs rest a b
      | c => if dir <? 0 then CompOpp c else c
      end
  end.

Definition docLe (spec : SortSpec) (a b : Doc) : bool :=
  match compareDocs spec a b with
  | Gt => false
  | _ => true
  end.

(** A stable sort by insertion, for the engine's sort and for
    [Array.prototype.sort]. *)
Fixpoint insertSorted {A} (le : A → A → bool) (x : A) (l : list A) : list A :=
  match l with
  | [] => [x]
  | y :: l' => if le x y then x :: l else y :: insertSorted le x l'
  end.

Definition sortBy {A} (le : A → A → bool) (l : list A) : list A :=
  foldr (insertSorted le) [] l.

(** The input of a [$regexMatch]: a field path, or [{ $ifNull: [path, d] }]. *)
Inductive InputExpr :=
| FieldPath (name : string)
| IfNull (name : string) (dflt : string).

(** [{ $cond: [{ $regexMatch: { input, regex } }, thenValue, elseValue] }] *)
Record CondTerm := mkCondTerm {
  input : InputExpr;
  regex : RegExp;
  thenValue : Z;
  elseValue : Z
}.

Inductive Stage :=
| Match (q : Query)
| AddRelevanceScore (terms : list CondTerm)
| Sort (spec : SortSpec)
| Limit (n : Js.Number).

Definition evalInput (i : InputExpr) (e : Entry) : option string :=
  match i with
  | FieldPath name => getField name e
  | IfNull name dflt => Some (default dflt (getField name e))
  end.

(** [$regexMatch] is false on a null input. *)
Definition evalCond (t : CondTerm) (e : Entry) : Z :=
  match evalInput (input t) e with
  | Some v => if regexTest (regex t) v then thenValue t else elseValue t
  | None => elseValue t
  end.

(** [{ $sum: terms }] *)
Definition evalSum (terms : list CondTerm) (e : Entry) : Z :=
  foldr (λ t acc, evalCond t e + acc) 0 terms.

(** One pipeline stage; [None] stands for the engine rejecting the stage
    ([$limit] takes a positive integer). *)
Definition runStage (s : Stage) (docs : list Doc) : option (list Doc) :=
  match s with
  | Match q => Some (List.filter (λ d, matchesQuery q (entry d)) docs)
  | AddRelevanceScore terms =>
      Some (map (λ d, mkDoc (entry d) (Some (evalSum terms (entry d)))) docs)
  | Sort spec => Some (sortBy (docLe spec) docs)
  | Limit (Js.Num n) => if 1 <=? n then Some (take (Z.to_nat n) docs) else None
  | Limit Js.NaN | Limit (Js.Infinity _) => None
  end.

Fixpoint runPipeline (stages : list Stage) (docs : list Doc) : option (list Doc) :=
  match stages with
  | [] => Some docs
  | s :: rest => docs' ← runStage s docs; runPipeline rest docs'
  end.

Definition Collection := list Entry.

(** [DiseaseData.aggregate(pipeline)] *)
Definition aggregate (coll : Collection) (pipeline : list Stage)
  : option (list Doc) :=
  runPipeline pipeline (map (λ e, mkDoc e None) coll).

(** The limit of a [find] cursor: [0] means no limit, a negative number
    limits to its absolute value; a limit that is no finite number is
    refused. *)
Definition cursorLimit {A} (n : Js.Number) (l : list A) : option (list A) :=
  match n with
  | Js.Num 0 => Some l
  | Js.Num z => Some (take (Z.to_nat (Z.abs z)) l)
  | Js.NaN | Js.Infinity _ => None
  end.

(** [DiseaseData.find(query).limit(n).sort(spec).lean()]: the sort is
    applied before the limit. *)
Definition find (coll : Collection) (q : Query) (spec : SortSpec)
    (limit : Js.Number) : option (list Entry) :=
  let matched := List.filter (matchesQuery q) coll in
  let sorted := sortBy (docLe spec) (map (λ e, mkDoc e None) matched) in
  cursorLimit limit (map entry sorted).

(** The distinct elements of a list, in order of first occurrence. *)
Fixpoint dedup (l : list string) : list string :=
  match l with
  | [] => []
  | x :: l' => x :: List.filter (λ y, negb (String.eqb x y)) (dedup l')
  end.

(** [DiseaseData.distinct(field, query)]: the distinct values of the field
    among the matching records; records without the field contribute
    nothing. *)
Definition distinct (coll : Collection) (field : string) (q : Query)
  : list string :=
  dedup (omap (getField field) (List.filter (matchesQuery q) coll)).

(** ** Request handlers

    A handler runs against the collection, records the storage calls it
    makes, and answers with a JSON response.  [None] in an action stands
    for an exception in flight; the handler's [try]/[catch] turns it into
    the response of [handleError]. *)
Inductive StorageCall :=
| CallFind (q : Query) (spec : SortSpec) (limit : Js.Number)
| CallAggregate (pipeline : list Stage)
| CallAggregateStats (q : Query)
| CallDistinct (field : string) (q : Query).

Inductive Response (A : Type) :=
| Success (payload : A)
| Failure (status : Z) (message : string).
Arguments Success {A} payload.
Arguments Failure {A} status message.

Definition Action (A : Type) : Type := list StorageCall * option A.

#[global] Instance action_ret : MRet Action := λ A a, ([], Some a).

#[global] Instance action_bind : MBind Action := λ A B f m,
  match m with
  | (t, Some a) => let '(t', b) := f a in (t ++ t', b)
  | (t, None) => (t, None)
  end.

(** A storage call and its result. *)
Definition call {A} (c : StorageCall) (result : option A) : Action A :=
  ([c], result).

(** A computation without storage access that may throw. *)
Definition lift {A} (o : option A) : Action A := ([], o).

(** [handleError(res, error, message)] for the errors of the model (a
    [SyntaxError] of a [RegExp] constructor or a rejected storage call):
    status 500 with the handler's message. *)
Definition handleError {A} (message : string) : Response A :=
  Failure 500 message.

(** [try { body } catch (error) { handleError(res, error, message) }] *)
Definition tryCatch {A} (body : Action (Response A)) (message : string)
  : list StorageCall * Response A :=
  match body with
  | (t, Some r) => (t, r)
  | (t, None) => (t, handleError message)
  end.

(** *** advancedSearch *)

Record AdvancedSearchQuery := mkAdvancedSearchQuery {
  as_q : option string;
  as_limit : option string;
  as_includeStats : option string
}.

Record Stats := mkStats {
  totalMatches : Z;
  uniqueDiseasesCount : Z;
  uniqueAntibodiesCount : Z;
  uniqueAntigensCount : Z
}.

Record AdvancedSearchResult := mkAdvancedSearchResult {
  as_data : list Doc;
  as_count : Z;
  as_searchTerm : string;
  as_stats : option Stats
}.

(** The [$or] of the five fields against one regular expression. *)
Definition anyFieldQuery (searchRegex : RegExp) : Query :=
  QOr [QFields {[ "disease" := searchRegex ]};
       QFields {[ "autoantibody" := searchRegex ]};
       QFields {[ "autoantigen" := searchRegex ]};
       QFields {[ "epitope" := searchRegex ]};
       QFields {[ "uniprotId" := searchRegex ]}].

(** The operands of the [$sum] that defines [relevanceScore]. *)
Definition relevanceTerms (searchRegex : RegExp) : list CondTerm :=
  [ mkCondTerm (FieldPath "disease") searchRegex 10 0;
    mkCondTerm (FieldPath "autoantibody") searchRegex 8 0;
    mkCondTerm (FieldPath "autoantigen") searchRegex 6 0;
    mkCondTerm (IfNull "epitope" "") searchRegex 4 0;
    mkCondTerm (IfNull "uniprotId" "") searchRegex 2 0 ].

(** [{ relevanceScore: -1, disease: 1 }] *)
Definition rankingSort : SortSpec := [("relevanceScore", -1); ("disease", 1)].

(** The aggregation pipeline of [advancedSearch]. *)
Definition pipeline (searchRegex : RegExp) (limit : string) : list Stage :=
  [ Match (anyFieldQuery searchRegex);
    AddRelevanceScore (relevanceTerms searchRegex);
    Sort rankingSort;
    Limit (Js.mathMin (Js.parseInt limit) (Js.Num 100)) ].

(** The statistics aggregation: [$match], a [$group] of everything with
    [$sum: 1] and three [$addToSet], and the [$project] of the set sizes.
    No matching record gives no group at all. *)
Definition aggregateStats (coll : Collection) (q : Query) : list Stats :=
  let matched := List.filter (matchesQuery q) coll in
  match matched with
  | [] => []
  | _ =>
      [ mkStats (Z.of_nat (length matched))
          (Z.of_nat (length (dedup (omap disease matched))))
          (Z.of_nat (length (dedup (omap autoantibody matched))))
          (Z.of_nat (length (dedup (omap autoantigen matched)))) ]
  end.

(** [!searchTerm || searchTerm.trim().length < n] *)
Definition termShorterThan (n : Z) (searchTerm : option string) : bool :=
  match searchTerm with
  | Some t => negb (Js.truthy t) || (Js.length (Js.trim t) <? n)
  | None => true
  end.

(** [advancedSearch(req, res)].  The default of [limit] is the number 50,
    which [parseInt] reads through its decimal text. *)
Definition advancedSearch (coll : Collection) (req : AdvancedSearchQuery)
  : list StorageCall * Response AdvancedSearchResult :=
  let searchTerm := as_q req in
  let limit := default "50" (as_limit req) in
  tryCatch
    (if termShorterThan 2 searchTerm then
       mret (Failure 400 "Search term must be at least 2 characters long")
     else
       let term := default "" searchTerm in
       searchRegex ← lift (newRegExp (escapeRegExp (Js.trim term)) "i");
       results ← call (CallAggregate (pipeline searchRegex limit))
                      (aggregate coll (pipeline searchRegex limit));
       stats ←
         (if bool_decide (as_includeStats req = Some "true") then
            statsResult ← call (CallAggregateStats (anyFieldQuery searchRegex))
                               (Some (aggregateStats coll (anyFieldQuery searchRegex)));
            mret (Some (default (mkStats 0 0 0 0) (head statsResult)))
          else mret None);
       mret (Success (mkAdvancedSearchResult results
                        (Z.of_nat (length results)) (Js.trim term) stats)))
    "Error performing advanced search".

(** *** getAllEntries

    The page size of the listing handler:
    [Math.min(Math.max(1, parseInt(req.query.limit) || 10), 100)];
    [parseInt(undefined)] is [NaN]. *)
Definition listingLimit (limit : option string) : Js.Number :=
  let parsed := match limit with
                | Some s => Js.parseInt s
                | None => Js.NaN
                end in
  Js.mathMin (Js.mathMax (Js.Num 1) (Js.orElse parsed (Js.Num 10))) (Js.Num 100).

(** *** searchEntries *)

(** The query string of the request: each parameter is absent or a single
    text.  A key given more than once reaches the handler as an array and
    is outside this model. *)
Record SearchEntriesQuery := mkSearchEntriesQuery {
  se_q : option string;
  se_field : option string;
  se_limit : option string
}.

Record SearchEntriesResult := mkSearchEntriesResult {
  se_data : list Entry;
  se_count : Z;
  se_searchTerm : string
}.

(** [searchEntries(req, res)] *)
Definition searchEntries (coll : Collection) (req : SearchEntriesQuery)
  : list StorageCall * Response SearchEntriesResult :=
  let searchTerm := se_q req in
  let field := default "all" (se_field req) in
  let limit := default "20" (se_limit req) in
  tryCatch
    (if termShorterThan 1 searchTerm then
       mret (Failure 400 "Search term is required")
     else
       query ← lift (buildCombinedQuery
                       (mkSearchParams searchTerm (Some field) None None None None));
       let maxLimit := Js.mathMin (Js.parseInt limit) (Js.Num 100) in
       let spec := [("disease", 1); ("autoantibody", 1)] in
       entries ← call (CallFind query spec maxLimit)
                      (find coll query spec maxLimit);
       mret (Success (mkSearchEntriesResult entries
                        (Z.of_nat (length entries))
                        (Js.trim (default "" searchTerm)))))
    "Error searching entries".

(** *** getUniqueValues and getFilteredUniqueValues *)

Record FacetQuery := mkFacetQuery {
  f_disease : option string;
  f_autoantibody : option string;
  f_autoantigen : option string
}.

(** The body of a successful answer; [v_appliedFilters] is the object
    [{ disease, autoantibody, autoantigen }] that [getFilteredUniqueValues]
    echoes, absent from the answers of [getUniqueValues] and from the early
    answer for an unconstrained epitope request. *)
Record ValuesResult := mkValuesResult {
  v_data : list string;
  v_count : Z;
  v_appliedFilters : option FacetQuery
}.

(** [if (v) filterQuery[name] = new RegExp(v.trim().replace(...), 'i')] *)
Definition setFilter (name : string) (v : option string)
    (filterQuery : gmap string RegExp) : option (gmap string RegExp) :=
  if Js.truthyOpt v then
    re ← newRegExp (escapeRegExp (Js.trim (default "" v))) "i";
    Some (<[ name := re ]> filterQuery)
  else Some filterQuery.

(** The dependency chain of [getFilteredUniqueValues]: the filter object
    built for the requested field. *)
Definition facetFilter (field : string)
    (disease autoantibody autoantigen : option string)
  : option (gmap string RegExp) :=
  if String.eqb field "autoantibody" && Js.truthyOpt disease then
    setFilter "disease" disease ∅
  else if String.eqb field "autoantigen" then
    f1 ← setFilter "disease" disease ∅;
    setFilter "autoantibody" autoantibody f1
  else if String.eqb field "epitope" then
    f1 ← setFilter "autoantigen" autoantigen ∅;
    f2 ← setFilter "disease" disease f1;
    setFilter "autoantibody" autoantibody f2
  else Some ∅.

Section Facets.

(** [a.localeCompare(b, undefined, { sensitivity: 'base' })]: the collation
    of the runtime's default locale, negative, zero or positive. *)
Variable localeCompare : string → string → Z.

(** The post-processing shared by the two facet handlers:
    [filter(v => v && v.toString().trim() !== '')], [map(v => v.toString().trim())],
    [sort((a, b) => a.localeCompare(b, undefined, { sensitivity: 'base' }))]. *)
Definition filteredValues (values : list string) : list string :=
  sortBy (λ a b, localeCompare a b <=? 0)
    (map Js.trim
       (List.filter (λ v, Js.truthy v && negb (String.eqb (Js.trim v) "")) values)).

Definition getUniqueValues (coll : Collection) (field : option string)
  : list StorageCall * Response ValuesResult :=
  tryCatch
    (if negb (Js.truthyOpt field) || negb (includesField searchFields field) then
       mret (Failure 400
         "Invalid field specified. Must be one of: disease, autoantibody, autoantigen, epitope, uniprotId")
     else
       let f := default "" field in
       values ← call (CallDistinct f (QFields ∅))
                     (Some (distinct coll f (QFields ∅)));
       let result := filteredValues values in
       mret (Success (mkValuesResult result (Z.of_nat (length result)) None)))
    "Error fetching unique values".

Definition facetFields : list string :=
  ["disease"; "autoantibody"; "autoantigen"; "epitope"].

Definition getFilteredUniqueValues (coll : Collection) (field : option string)
    (req : FacetQuery) : list StorageCall * Response ValuesResult :=
  let disease := f_disease req in
  let autoantibody := f_autoantibody req in
  let autoantigen := f_autoantigen req in
  tryCatch
    (if negb (Js.truthyOpt field) || negb (includesField facetFields field) then
       mret (Failure 400
         "Invalid field specified. Must be one of: disease, autoantibody, autoantigen, epitope")
     else
       let f := default "" field in
       filterQuery ← lift (facetFilter f disease autoantibody autoantigen);
       if String.eqb f "epitope" &&
          (negb (Js.truthyOpt autoantigen) && negb (Js.truthyOpt disease)
           && negb (Js.truthyOpt autoantibody))
       then mret (Success (mkValuesResult [] 0 None))
       else
         values ← call (CallDistinct f (QFields filterQuery))
                       (Some (distinct coll f (QFields filterQuery)));
         let result := filteredValues values in
         mret (Success (mkValuesResult result (Z.of_nat (length result))
                          (Some (mkFacetQuery disease autoantibody autoantigen)))))
    "Error fetching filtered unique values".

End Facets.

(** ** CSV export *)

Definition comma : ascii := ","%char.
Definition quote : ascii := "034"%char.
Definition newline : ascii := "010"%char.

(** The [replace] of [escapeCSV]: every double quote is written twice. *)
Fixpoint doubleQuotes (s : string) : string :=
  match s with
  | EmptyString => EmptyString
  | String c s' =>
      if Ascii.eqb c quote
      then String quote (String quote (doubleQuotes s'))
      else String c (doubleQuotes s')
  end.

(** A field needs quoting when it contains a comma, a quote or a newline. *)
Definition needsQuoting (s : string) : bool :=
  Js.includesChar comma s || Js.includesChar quote s || Js.includesChar newline s.

Definition escapeCSV (str : string) : string :=
  if negb (Js.truthy str) then ""
  else
    let stringValue := str in
    if needsQuoting stringValue
    then String quote (doubleQuotes stringValue +:+ String quote "")
    else stringValue.

(** [parts.join(sep)] *)
Fixpoint join (sep : string) (parts : list string) : string :=
  match parts with
  | [] => ""
  | [p] => p
  | p :: rest => p +:+ sep +:+ join sep rest
  end.

(** *** Dates *)

Definition digitChar (n : Z) : ascii := ascii_of_N (48 + Z.to_N (n mod 10)).

(** The last [width] decimal digits of [n], most significant first. *)
Fixpoint padDigits (width : nat) (n : Z) (acc : string) : string :=
  match width with
  | O => acc
  | S w => padDigits w (n / 10) (String (digitChar n) acc)
  end.

Definition msPerDay : Z := 86400000.

(** Year, month and day of the proleptic Gregorian calendar for a day
    number counted from 1970-01-01. *)
Definition civilFromDays (days : Z) : Z * Z * Z :=
  let z := days + 719468 in
  let era := z / 146097 in
  let doe := z - era * 146097 in
  let yoe := (doe - doe / 1460 + doe / 36524 - doe / 146096) / 365 in
  let doy := doe - (365 * yoe + yoe / 4 - yoe / 100) in
  let mp := (5 * doy + 2) / 153 in
  let d := doy - (153 * mp + 2) / 5 + 1 in
  let m := if mp <? 10 then mp + 3 else mp - 9 in
  let y := yoe + era * 400 + (if m <=? 2 then 1 else 0) in
  (y, m, d).

(** Years 0 to 9999 print as four digits, the others as a sign and six
    digits. *)
Definition yearString (y : Z) : string :=
  if (0 <=? y) && (y <=? 9999) then padDigits 4 y ""
  else String (if y <? 0 then "-"%char else "+"%char) (padDigits 6 (Z.abs y) "").

(** The ISO text of the time value [t] of a valid date. *)
Definition isoText (t : Z) : string :=
  let '(y, m, d) := civilFromDays (t / msPerDay) in
  let ms := t mod msPerDay in
  yearString y +:+ "-" +:+ padDigits 2 m "" +:+ "-" +:+ padDigits 2 d ""
    +:+ "T" +:+ padDigits 2 (ms / 3600000) "" +:+ ":"
    +:+ padDigits 2 (ms / 60000 mod 60) "" +:+ ":"
    +:+ padDigits 2 (ms / 1000 mod 60) "" +:+ "."
    +:+ padDigits 3 (ms mod 1000) "" +:+ "Z".

(** A date is valid when its time value is at most 8.64e15 ms away from
    the epoch. *)
Definition maxTimeValue : Z := 8640000000000000.

Definition validTime (t : Z) : bool :=
  (- maxTimeValue <=? t) && (t <=? maxTimeValue).

(** [new Date(t).toISOString()]; [None] is the [RangeError] thrown for
    an invalid date. *)
Definition toISOString (t : Z) : option string :=
  if validTime t then Some (isoText t) else None.

(** [s.split(sep)[0]]: the text before the first separator. *)
Fixpoint splitHead (sep : ascii) (s : string) : string :=
  match s with
  | EmptyString => EmptyString
  | String c s' => if Ascii.eqb c sep then EmptyString else String c (splitHead sep s')
  end.

(** [d ? new Date(d).toISOString().split('T')[0] : '']; a stored date is
    a [Date] object, which is truthy. *)
Definition dateCell (d : option Z) : option string :=
  match d with
  | Some t => iso ← toISOString t; Some (splitHead "T"%char iso)
  | None => Some ""
  end.

Definition headers : list string :=
  ["Disease"; "Autoantibody"; "Autoantigen"; "Epitope"; "UniProt ID";
   "Date Added"; "Last Updated"; "Verified"].

(** The row built for one entry inside [convertToCSV]; [None] when
    [toISOString] throws. *)
Definition csvRow (e : Entry) : option (list string) :=
  added ← dateCell (createdAt e);
  updated ← dateCell (metadata e ≫= lastUpdated);
  Some
    [ escapeCSV (default "" (disease e));
      escapeCSV (default "" (autoantibody e));
      escapeCSV (default "" (autoantigen e));
      escapeCSV (default "" (epitope e));
      escapeCSV (default "" (uniprotId e));
      added;
      updated;
      if default false (verified <$> metadata e) then "Yes" else "No" ].

(** The [forEach] of [convertToCSV]: one joined line per entry, pushed in
    order; the first exception ends it. *)
Fixpoint csvLines (entries : list Entry) : option (list string) :=
  match entries with
  | [] => Some []
  | e :: rest =>
      row ← csvRow e;
      lines ← csvLines rest;
      Some (join "," row :: lines)
  end.

(** [convertToCSV(entries)]; the argument [None] is an absent list, the
    result [None] an exception. *)
Definition convertToCSV (entries : option (list Entry)) : option string :=
  match entries with
  | None | Some [] => Some ""
  | Some es =>
      lines ← csvLines es;
      let csvRows := join "," headers :: lines in
      Some (join (String newline "") csvRows)
  end.

(** ** Reference definitions of the specification

    The definitions of this part are not controller code: they spell out
    the notions the specification states its properties with. *)

(** *** Clauses of a built query *)

(** A query object with exactly one field condition. *)
Definition isFieldClause (q : Query) : Prop :=
  ∃ name re, q = QFields {[ name := re ]}.

(** The number of clauses the specification's algorithm produces: one for
    a non-blank search with a known field, one for each non-blank
    structured filter. *)
Definition clauseCount (p : SearchParams) : nat :=
  (if bool_decide (is_Some (nonBlank (p_search p)))
      && (bool_decide (p_field p = Some "all")
          || includesField searchFields (p_field p))
   then 1 else 0)%nat
  + (if bool_decide (is_Some (nonBlank (p_disease p))) then 1 else 0)%nat
  + (if bool_decide (is_Some (nonBlank (p_autoantibody p))) then 1 else 0)%nat
  + (if bool_decide (is_Some (nonBlank (p_autoantigen p))) then 1 else 0)%nat
  + (if bool_decide (is_Some (nonBlank (p_epitope p))) then 1 else 0)%nat.

(** *** Relevance score and ranking order *)

(** A required field contains the term, up to letter case. *)
Definition fieldContains (term : string) (v : option string) : bool :=
  match v with
  | Some s => containsIgnoreCase term s
  | None => false
  end.

(** The weighted sum of the specification: 10, 8, 6, 4 and 2 for a match
    in disease, autoantibody, autoantigen, epitope and uniprotId, an absent
    epitope or uniprotId counting as the empty string. *)
Definition weightedScore (term : string) (e : Entry) : Z :=
  (if fieldContains term (disease e) then 10 else 0)
  + (if fieldContains term (autoantibody e) then 8 else 0)
  + (if fieldContains term (autoantigen e) then 6 else 0)
  + (if containsIgnoreCase term (default "" (epitope e)) then 4 else 0)
  + (if containsIgnoreCase term (default "" (uniprotId e)) then 2 else 0).

(** The candidate set: at least one of the five fields contains the term. *)
Definition isCandidate (term : string) (e : Entry) : bool :=
  fieldContains term (disease e) || fieldContains term (autoantibody e)
  || fieldContains term (autoantigen e) || fieldContains term (epitope e)
  || fieldContains term (uniprotId e).

(** Every candidate paired with its score. *)
Definition scoredCandidates (term : string) (coll : Collection) : list Doc :=
  map (λ e, mkDoc e (Some (weightedScore term e)))
      (List.filter (isCandidate term) coll).

(** Ascending lexicographic order of names by code units; a record
    without a name comes first. *)
Definition nameLe (a b : option string) : Prop :=
  match a, b with
  | None, _ => True
  | Some _, None => False
  | Some x, Some y => String.leb x y = true
  end.

(** [a] may stand before [b] in a ranked result: higher score first, equal
    scores in ascending order of the disease name. *)
Definition rankedBefore (a b : Doc) : Prop :=
  ∃ sa sb, relevanceScore a = Some sa ∧ relevanceScore b = Some sb ∧
    (sb < sa ∨ (sa = sb ∧ nameLe (disease (entry a)) (disease (entry b)))).

(** *** Facet values *)

(** The stored values of a field are free of surrounding white space. *)
Definition storedTrimmed (coll : Collection) (field : string) : Prop :=
  ∀ e v, In e coll → getField field e = Some v → Js.trim v = v.

(** *** Reading CSV back

    The reader the round trip is stated against: fields are separated by
    commas and records by line feeds; a field that starts with a double
    quote runs to the closing quote and a doubled quote inside it stands
    for one quote; the last record needs no line feed after it. *)
Inductive CsvState :=
| FieldStart
| Unquoted
| Quoted
| QuoteSeen.

Definition snoc (s : string) (c : ascii) : string := s +:+ String c "".

Fixpoint parseFrom (st : CsvState) (cur : string) (row : list string)
    (s : string) : list (list string) :=
  match s with
  | EmptyString =>
      match st, row, cur with
      | FieldStart, [], EmptyString => []
      | _, _, _ => [row ++ [cur]]
      end
  | String c s' =>
      match st with
      | Quoted =>
          if Ascii.eqb c quote then parseFrom QuoteSeen cur row s'
          else parseFrom Quoted (snoc cur c) row s'
      | QuoteSeen =>
          if Ascii.eqb c quote then parseFrom Quoted (snoc cur quote) row s'
          else if Ascii.eqb c comma then parseFrom FieldStart "" (row ++ [cur]) s'
          else if Ascii.eqb c newline then (row ++ [cur]) :: parseFrom FieldStart "" [] s'
          else parseFrom Unquoted (snoc cur c) row s'
      | FieldStart =>
          if Ascii.eqb c quote then parseFrom Quoted "" row s'
          else if Ascii.eqb c comma then parseFrom FieldStart "" (row ++ [cur]) s'
          else if Ascii.eqb c newline then (row ++ [cur]) :: parseFrom FieldStart "" [] s'
          else parseFrom Unquoted (snoc cur c) row s'
      | Unquoted =>
          if Ascii.eqb c comma then parseFrom FieldStart "" (row ++ [cur]) s'
          else if Ascii.eqb c newline then (row ++ [cur]) :: parseFrom FieldStart "" [] s'
          else parseFrom Unquoted (snoc cur c) row s'
      end
  end.

Definition parseCSV (s : string) : list (list string) :=
  parseFrom FieldStart "" [] s.

(** The state of the reader after the text of a field with value [v]. *)
Definition endState (v : string) : CsvState :=
  if needsQuoting v then QuoteSeen
  else match v with
       | EmptyString => FieldStart
       | _ => Unquoted
       end.

(** *** Reading CSV by the standard rules

    Fields are separated by commas.  A record ends at a line break outside
    quotes: a carriage return followed by a line feed, a line feed alone,
    or a carriage return alone.  A field that starts with a double quote
    runs to the closing quote, line breaks included, and a doubled quote
    inside it stands for one quote.  The last record needs no line break
    after it. *)
Definition carriageReturn : ascii := "013"%char.

Inductive ReaderState :=
| AtFieldStart
| InUnquoted
| InQuoted
| AfterQuote
| AfterReturn.

Fixpoint readFrom (st : ReaderState) (cur : string) (row : list string)
    (s : string) : list (list string) :=
  match s with
  | EmptyString =>
      match st, row, cur with
      | AtFieldStart, [], EmptyString => []
      | AfterReturn, _, _ => []
      | _, _, _ => [row ++ [cur]]
      end
  | String c s' =>
      match st with
      | InQuoted =>
          if Ascii.eqb c quote then readFrom AfterQuote cur row s'
          else readFrom InQuoted (snoc cur c) row s'
      | AfterQuote =>
          if Ascii.eqb c quote then readFrom InQuoted (snoc cur quote) row s'
          else if Ascii.eqb c comma then readFrom AtFieldStart "" (row ++ [cur]) s'
          else if Ascii.eqb c newline then (row ++ [cur]) :: readFrom AtFieldStart "" [] s'
          else if Ascii.eqb c carriageReturn
          then (row ++ [cur]) :: readFrom AfterReturn "" [] s'
          else readFrom InUnquoted (snoc cur c) row s'
      | AtFieldStart =>
          if Ascii.eqb c quote then readFrom InQuoted "" row s'
          else if Ascii.eqb c comma then readFrom AtFieldStart "" (row ++ [cur]) s'
          else if Ascii.eqb c newline then (row ++ [cur]) :: readFrom AtFieldStart "" [] s'
          else if Ascii.eqb c carriageReturn
          then (row ++ [cur]) :: readFrom AfterReturn "" [] s'
          else readFrom InUnquoted (snoc cur c) row s'
      | InUnquoted =>
          if Ascii.eqb c comma then readFrom AtFieldStart "" (row ++ [cur]) s'
          else if Ascii.eqb c newline then (row ++ [cur]) :: readFrom AtFieldStart "" [] s'
          else if Ascii.eqb c carriageReturn
          then (row ++ [cur]) :: readFrom AfterReturn "" [] s'
          else readFrom InUnquoted (snoc cur c) row s'
      | AfterReturn =>
          if Ascii.eqb c newline then readFrom AtFieldStart "" [] s'
          else if Ascii.eqb c quote then readFrom InQuoted "" [] s'
          else if Ascii.eqb c comma then readFrom AtFieldStart "" [""] s'
          else if Ascii.eqb c carriageReturn then [""] :: readFrom AfterReturn "" [] s'
          else readFrom InUnquoted (String c "") [] s'
      end
  end.

Definition readCSV (s : string) : list (list string) :=
  readFrom AtFieldStart "" [] s.

(** The state of the standard reader that does what a state of the
    line-feed reader does. *)
Definition readerState (st : CsvState) : ReaderState :=
  match st with
  | FieldStart => AtFieldStart
  | Unquoted => InUnquoted
  | Quoted => InQuoted
  | QuoteSeen => AfterQuote
  end.

(** *** Exported values *)

(** The day of a valid date as the export prints it; the empty text for
    no date. *)
Definition dayText (d : option Z) : string :=
  match d with
  | Some t => splitHead "T"%char (isoText t)
  | None => ""
  end.

Definition validDate (d : option Z) : bool :=
  match d with
  | Some t => validTime t
  | None => true
  end.

(** Both dates the export reads are valid or absent. *)
Definition validDates (e : Entry) : bool :=
  validDate (createdAt e) && validDate (metadata e ≫= lastUpdated).

(** The values a record is exported with: each text field or the empty
    string, the two dates cut to the day, and Yes or No. *)
Definition exportedValues (e : Entry) : list string :=
  [ default "" (disease e);
    default "" (autoantibody e);
    default "" (autoantigen e);
    default "" (epitope e);
    default "" (uniprotId e);
    dayText (createdAt e);
    dayText (metadata e ≫= lastUpdated);
    if default false (verified <$> metadata e) then "Yes" else "No" ].

(** No text value of the record holds a carriage return. *)
Definition noCarriageReturn (e : Entry) : bool :=
  forallb (λ v, negb (Js.includesChar carriageReturn (default "" v)))
    [disease e; autoantibody e; autoantigen e; epitope e; uniprotId e].

(** The header line of the export. *)
Definition headerLine : string :=
  "Disease,Autoantibody,Autoantigen,Epitope,UniProt ID,Date Added,Last Updated,Verified".

(** *** Calendar days *)

(** The calendar day of a time value, as year, month and day. *)
Definition dayOf (t : Z) : Z * Z * Z := civilFromDays (t / msPerDay).

Definition isLeapYear (y : Z) : bool :=
  (y mod 4 =? 0) && (negb (y mod 100 =? 0) || (y mod 400 =? 0)).

Definition daysInMonth (y m : Z) : Z :=
  if m =? 2 then (if isLeapYear y then 29 else 28)
  else if (m =? 4) || (m =? 6) || (m =? 9) || (m =? 11) then 30
  else 31.

(** The day number of a calendar date, counted from 1970-01-01. *)
Definition daysFromCivil (y m d : Z) : Z :=
  let y' := if m <=? 2 then y - 1 else y in
  let era := y' / 400 in
  let yoe := y' - era * 400 in
  let mp := if 2 <? m then m - 3 else m + 9 in
  let doy := (153 * mp + 2) / 5 + d - 1 in
  let doe := yoe * 365 + yoe / 4 - yoe / 100 + doy in
  era * 146097 + doe - 719468.

(** Every character of the string satisfies the test. *)
Fixpoint allChars (p : ascii → bool) (s : string) : bool :=
  match s with
  | EmptyString => true
  | String c s' => p c && allChars p s'
  end.

(** The characters of a printed calendar day: digits and the two signs. *)
Definition isDateChar (c : ascii) : bool :=
  let n := N_of_ascii c in
  ((48 <=? n) && (n <=? 57))%N || Ascii.eqb c "-" || Ascii.eqb c "+".

(** *** Sample data *)
Module Sample.

Definition sle : Entry :=
  mkEntry (Some "Systemic lupus erythematosus (SLE)") (Some "Anti-dsDNA")
    (Some "dsDNA") None None (Some 0)
    (Some (mkMetadata None None (Some 1700000000000) true)).

Definition other : Entry :=
  mkEntry (Some "Other") (Some "Anti-Lupus") (Some "X, Y") (Some "ep")
    (Some "P12345") None None.

Definition celiac : Entry :=
  mkEntry (Some "Celiac disease") (Some "Anti-tTG") (Some "tTG")
    (Some "ep2") None None None.

Definition collection : Collection := [celiac; other; sle].

(** A collation for the examples: code units compared after letter case is
    removed. *)
Definition localeCompare (a b : string) : Z :=
  match String.compare (Js.toUpperCase a) (Js.toUpperCase b) with
  | Lt => -1
  | Eq => 0
  | Gt => 1
  end.

(** A record whose disease name holds a carriage return, one whose
    autoantigen holds a line feed, and one whose creation date lies one
    millisecond beyond the dates of the runtime. *)
Definition withReturn : Entry :=
  mkEntry (Some ("Type 1" +:+ String carriageReturn "diabetes")) (Some "GAD65")
    (Some "GAD") None None None None.

Definition withLineFeed : Entry :=
  mkEntry (Some "Type 1 diabetes") (Some "GAD65")
    (Some ("GAD" +:+ String newline "65")) None None None None.

Definition beyondRange : Entry :=
  mkEntry (Some "Type 1 diabetes") (Some "GAD65") (Some "GAD") None None
    (Some (maxTimeValue + 1)) None.

(** Two records whose disease names differ by a trailing space only. *)
Definition untrimmed : Collection :=
  [ mkEntry (Some "SLE") (Some "Anti-dsDNA") (Some "dsDNA") None None None None;
    mkEntry (Some "SLE ") (Some "Anti-Sm") (Some "Sm") None None None None ].

End Sample.

(** ** Further reference definitions *)

(** What a structured filter asks of a field: nothing when the filter is
    absent or blank, else that the field contains the trimmed text. *)
Definition filterHolds (v : option string) (fieldValue : option string) : Prop :=
  match nonBlank v with
  | Some t => fieldContains t fieldValue = true
  | None => True
  end.

(** What the free-text search asks of a record: nothing when the term is
    blank or the field unknown, a match in any of the five fields for
    [all], a match in the named field otherwise. *)
Definition searchHolds (search field : option string) (e : Entry) : Prop :=
  match nonBlank search with
  | Some t =>
      if bool_decide (field = Some "all") then isCandidate t e = true
      else if includesField searchFields field
      then fieldContains t (getField (default "" field) e) = true
      else True
  | None => True
  end.

(** The parameters with every text reduced to its trimmed form, blank
    ones removed. *)
Definition normalized (p : SearchParams) : SearchParams :=
  mkSearchParams (nonBlank (p_search p)) (p_field p) (nonBlank (p_disease p))
    (nonBlank (p_autoantibody p)) (nonBlank (p_autoantigen p))
    (nonBlank (p_epitope p)).

(** The records a search for the trimmed term [t] selects: those matching
    in any of the five fields for the field [all], those matching in the
    named field for one of the five names, and every record for any other
    field name or none, for which the builder adds no clause. *)
Definition searchSelects (field : option string) (t : string) (e : Entry) : bool :=
  if bool_decide (field = Some "all") then isCandidate t e
  else if includesField searchFields field
  then fieldContains t (getField (default "" field) e)
  else true.

(** The records a structured filter selects: all of them for an absent or
    blank filter, else those whose field contains the trimmed text. *)
Definition filterSelects (v : option string) (fieldValue : option string) : bool :=
  match nonBlank v with
  | Some t => fieldContains t fieldValue
  | None => true
  end.

(** The storage calls, the values and the count of an answer of a facet
    handler, without the echo of the request. *)
Definition valuesOf (answer : list StorageCall * Response ValuesResult)
  : list StorageCall * option (list string * Z) :=
  (fst answer,
   match snd answer with
   | Success r => Some (v_data r, v_count r)
   | Failure _ _ => None
   end).

(** ** Stored documents

    A document of the collection as storage keeps it: the record, its
    [_id] (an ObjectId, read as the number its 24 hexadecimal digits
    denote) and the [updatedAt] timestamp. *)
Record Stored := mkStored {
  s_id : Z;
  s_entry : Entry;
  s_updatedAt : option Z
}.

Definition Store := list Stored.

(** The value of a sort key in a stored document; dates compare by their
    time value. *)
Definition storedValue (key : string) (s : Stored) : Value :=
  if String.eqb key "createdAt" then optValue VNum (createdAt (s_entry s))
  else if String.eqb key "updatedAt" then optValue VNum (s_updatedAt s)
  else optValue VStr (getField key (s_entry s)).

(** Comparison by a sort specification, for any kind of document. *)
Fixpoint compareKeys {A} (value : string → A → Value) (spec : SortSpec)
    (a b : A) : comparison :=
  match spec with
  | [] => Eq
  | (key, dir) :: rest =>
      match compareValue (value key a) (value key b) with
      | Eq => compareKeys value rest a b
      | c => if dir <? 0 then CompOpp c else c
      end
  end.

Definition leKeys {A} (value : string → A → Value) (spec : SortSpec)
    (a b : A) : bool :=
  match compareKeys value spec a b with
  | Gt => false
  | _ => true
  end.

(** The skip of a cursor: a number of documents that is not negative and
    fits a 64-bit integer. *)
Definition cursorSkip {A} (n : Js.Number) (l : list A) : option (list A) :=
  match n with
  | Js.Num z =>
      if (0 <=? z) && (z <? 2 ^ 63) then Some (drop (Z.to_nat z) l) else None
  | Js.NaN | Js.Infinity _ => None
  end.

(** [DiseaseData.find(query).sort(sort).skip(skip).limit(limit).lean()] *)
Definition findPage (store : Store) (q : Query) (sort : SortSpec)
    (skip limit : Js.Number) : option (list Stored) :=
  let matched := List.filter (λ s, matchesQuery q (s_entry s)) store in
  let sorted := sortBy (leKeys storedValue sort) matched in
  skipped ← cursorSkip skip sorted;
  cursorLimit limit skipped.

(** [DiseaseData.countDocuments(query)] *)
Definition countDocuments (store : Store) (q : Query) : Js.Number :=
  Js.Num (Z.of_nat (length (List.filter (λ s, matchesQuery q (s_entry s)) store))).

(** *** Arithmetic on numbers

    The difference and the product of two doubles are the exact results
    rounded to a double. *)

Definition numSub (a b : Js.Number) : Js.Number :=
  match a, b with
  | Js.NaN, _ | _, Js.NaN => Js.NaN
  | Js.Num x, Js.Num y => Js.roundDouble (x - y)
  | Js.Infinity s, Js.Num _ => Js.Infinity s
  | Js.Num _, Js.Infinity s => Js.Infinity (negb s)
  | Js.Infinity s, Js.Infinity s' => if Bool.eqb s s' then Js.NaN else Js.Infinity s
  end.

Definition numMul (a b : Js.Number) : Js.Number :=
  match a, b with
  | Js.NaN, _ | _, Js.NaN => Js.NaN
  | Js.Num x, Js.Num y => Js.roundDouble (x * y)
  | Js.Infinity s, Js.Num y | Js.Num y, Js.Infinity s =>
      if y =? 0 then Js.NaN else Js.Infinity (xorb s (y <? 0))
  | Js.Infinity s, Js.Infinity s' => Js.Infinity (xorb s s')
  end.

(** [Math.ceil(a / b)].  The quotient of two doubles is the exact
    quotient rounded; while the dividend is below 2^53 in magnitude the
    rounding cannot reach the next integer, so the ceiling is the exact
    one (a collection has fewer documents than that). *)
Definition ceilDiv (a b : Js.Number) : Js.Number :=
  match a, b with
  | Js.NaN, _ | _, Js.NaN => Js.NaN
  | Js.Num x, Js.Num y =>
      if y =? 0 then (if x =? 0 then Js.NaN else Js.Infinity (x <? 0))
      else Js.roundDouble (- ((- x) / y))
  | Js.Infinity s, Js.Num y => Js.Infinity (xorb s (y <? 0))
  | Js.Num _, Js.Infinity _ => Js.Num 0
  | Js.Infinity _, Js.Infinity _ => Js.NaN
  end.

(** [parseInt(v)] of a possibly [undefined] parameter. *)
Definition parseIntOpt (v : option string) : Js.Number :=
  match v with
  | Some s => Js.parseInt s
  | None => Js.NaN
  end.

(** [v || null] *)
Definition orNull (v : option string) : option string :=
  if Js.truthyOpt v then v else None.

(** *** getAllEntries *)

(** The query string of the request: each parameter is absent or a single
    text.  A key given more than once reaches the handler as an array and
    is outside this model. *)
Record ListingQuery := mkListingQuery {
  l_page : option string;
  l_limit : option string;
  l_search : option string;
  l_field : option string;
  l_disease : option string;
  l_autoantibody : option string;
  l_autoantigen : option string;
  l_epitope : option string;
  l_sortBy : option string;
  l_sortOrder : option string
}.

Record Pagination := mkPagination {
  pg_page : Js.Number;
  pg_limit : Js.Number;
  pg_total : Js.Number;
  pg_pages : Js.Number
}.

Record AppliedFilters := mkAppliedFilters {
  af_search : option string;
  af_field : option string;
  af_disease : option string;
  af_autoantibody : option string;
  af_autoantigen : option string;
  af_epitope : option string;
  af_sortBy : string;
  af_sortOrder : string
}.

Record ListingResult := mkListingResult {
  l_data : list Stored;
  l_pagination : Pagination;
  l_appliedFilters : AppliedFilters
}.

Definition validSortFields : list string :=
  ["disease"; "autoantibody"; "autoantigen"; "epitope"; "uniprotId";
   "createdAt"; "updatedAt"].

(** [Math.max(1, parseInt(req.query.page) || 1)] *)
Definition listingPage (page : option string) : Js.Number :=
  Js.mathMax (Js.Num 1) (Js.orElse (parseIntOpt page) (Js.Num 1)).

(** [validSortFields.includes(sortBy) ? sortBy : 'disease'] *)
Definition listingSortField (sortBy : string) : string :=
  if existsb (String.eqb sortBy) validSortFields then sortBy else "disease".

(** [sort[sortField] = sortOrder === 'desc' ? -1 : 1] *)
Definition listingSort (sortBy sortOrder : string) : SortSpec :=
  [(listingSortField sortBy, if String.eqb sortOrder "desc" then -1 else 1)].

Definition listingParams (req : ListingQuery) : SearchParams :=
  mkSearchParams (l_search req) (l_field req) (l_disease req)
    (l_autoantibody req) (l_autoantigen req) (l_epitope req).

(** [getAllEntries(req, res)] *)
Definition getAllEntries (store : Store) (req : ListingQuery)
  : Response ListingResult :=
  let page := listingPage (l_page req) in
  let limit := listingLimit (l_limit req) in
  let skip := numMul (numSub page (Js.Num 1)) limit in
  let sortBy := default "disease" (l_sortBy req) in
  let sortOrder := default "asc" (l_sortOrder req) in
  let outcome :=
    query ← buildCombinedQuery (listingParams req);
    let sortField := listingSortField sortBy in
    let sort := listingSort sortBy sortOrder in
    entries ← findPage store query sort skip limit;
    let total := countDocuments store query in
    Some (Success
      (mkListingResult entries
         (mkPagination page limit total (ceilDiv total limit))
         (mkAppliedFilters (orNull (l_search req)) (orNull (l_field req))
            (orNull (l_disease req)) (orNull (l_autoantibody req))
            (orNull (l_autoantigen req)) (orNull (l_epitope req))
            sortField sortOrder))) in
  match outcome with
  | Some response => response
  | None => handleError "Error fetching entries"
  end.

(** *** getEntryById, getRelatedEntries, deleteEntry *)

Definition isHexDigit (c : ascii) : bool :=
  let n := N_of_ascii c in
  (((48 <=? n) && (n <=? 57)) || ((97 <=? n) && (n <=? 102))
   || ((65 <=? n) && (n <=? 70)))%N.

(** [id.match(/^[0-9a-fA-F]{24}$/)] *)
Definition isObjectIdString (id : string) : bool :=
  (String.length id =? 24)%nat && allChars isHexDigit id.

(** The ObjectId a string of 24 hexadecimal digits is cast to. *)
Definition objectIdOf (id : string) : Z :=
  default 0 (Js.parseDigits 16 id None).

(** [DiseaseData.findById(id)] *)
Definition findById (store : Store) (id : string) : option Stored :=
  List.find (λ s, s_id s =? objectIdOf id) store.

(** The operands of the [$or] of [getRelatedEntries] before the [filter]:
    field name and value, the value of [uniprotId] being [null] when the
    id is missing or is the text Multiple. *)
Definition relatedConditions (e : Entry) : list (string * option string) :=
  [ ("disease", disease e);
    ("autoantigen", autoantigen e);
    ("uniprotId",
     if Js.truthyOpt (uniprotId e)
        && negb (bool_decide (uniprotId e = Some "Multiple"))
     then uniprotId e else None) ].

(** [{ name: value }]: the field equals the value, which the schema casts
    as it casts a value to store: the three fields are declared with
    [trim: true]. *)
Definition fieldEquals (e : Entry) (cond : string * option string) : bool :=
  match snd cond with
  | Some v => bool_decide (getField (fst cond) e = Some (Js.trim v))
  | None => false
  end.

(** [getRelatedEntries(entry)]: at most five other documents that satisfy
    one of the conditions with a truthy value.  With no such condition the
    [$or] is empty and nothing is returned. *)
Definition getRelatedEntries (store : Store) (entry : Stored) : list Stored :=
  let conditions :=
    List.filter (λ c, Js.truthyOpt (snd c)) (relatedConditions (s_entry entry)) in
  take 5
    (List.filter
       (λ s, existsb (fieldEquals (s_entry s)) conditions
             && negb (s_id s =? s_id entry))
       store).

Record EntryResult := mkEntryResult {
  er_data : Stored;
  er_relatedEntries : list Stored
}.

(** [getEntryById(req, res)] *)
Definition getEntryById (store : Store) (id : string) : Response EntryResult :=
  if negb (Js.truthy id) || negb (isObjectIdString id) then
    Failure 400 "Valid entry ID is required"
  else
    match findById store id with
    | None => Failure 404 "Entry not found"
    | Some entry =>
        Success (mkEntryResult entry (getRelatedEntries store entry))
    end.

(** Removal of the first document with the id. *)
Fixpoint removeById (oid : Z) (store : Store) : Store :=
  match store with
  | [] => []
  | s :: rest => if s_id s =? oid then rest else s :: removeById oid rest
  end.

(** [deleteEntry(req, res)]: the store after the request and the answer
    (the message of a success). *)
Definition deleteEntry (store : Store) (id : string) : Store * Response string :=
  if negb (Js.truthy id) || negb (isObjectIdString id) then
    (store, Failure 400 "Valid entry ID is required")
  else
    match findById store id with
    | None => (store, Failure 404 "Entry not found")
    | Some _ =>
        (removeById (objectIdOf id) store, Success "Entry deleted successfully")
    end.

(** *** getEntriesByDisease, getEntriesByUniprotId *)

(** The sort of a [find] cursor on lean records. *)
Definition sortEntries (spec : SortSpec) (entries : list Entry) : list Entry :=
  map entry (sortBy (docLe spec) (map (λ e, mkDoc e None) entries)).

(** [DiseaseData.find(query).sort(spec).lean()] *)
Definition findAll (coll : Collection) (q : Query) (spec : SortSpec) : list Entry :=
  sortEntries spec (List.filter (matchesQuery q) coll).

Record EntriesResult := mkEntriesResult {
  e_data : list Entry;
  e_count : Z
}.

(** [getEntriesByDisease(req, res)] *)
Definition getEntriesByDisease (coll : Collection) (disease : string)
  : Response EntriesResult :=
  if negb (Js.truthy disease) || negb (Js.truthy (Js.trim disease)) then
    Failure 400 "Disease name is required"
  else
    match newRegExp (escapeRegExp (Js.trim disease)) "i" with
    | Some r =>
        let entries :=
          findAll coll (QFields {[ "disease" := r ]})
            [("autoantibody", 1); ("autoantigen", 1)] in
        Success (mkEntriesResult entries (Z.of_nat (length entries)))
    | None => handleError "Error fetching entries by disease"
    end.

(** [getEntriesByUniprotId(req, res)]: the query asks for the field to
    equal the upper-cased, trimmed parameter (the trimming of the schema's
    cast changes nothing on a trimmed text). *)
Definition getEntriesByUniprotId (coll : Collection) (uniprotId : string)
  : Response EntriesResult :=
  if negb (Js.truthy uniprotId) || negb (Js.truthy (Js.trim uniprotId)) then
    Failure 400 "UniProt ID is required"
  else
    let wanted := Js.trim (Js.toUpperCase uniprotId) in
    let entries :=
      sortEntries [("disease", 1); ("autoantibody", 1)]
        (List.filter (λ e, bool_decide (getField "uniprotId" e = Some wanted)) coll) in
    Success (mkEntriesResult entries (Z.of_nat (length entries))).

(** *** exportEntries *)

(** The query string of the request: each parameter is absent or a single
    text.  A key given more than once reaches the handler as an array and
    is outside this model. *)
Record ExportQuery := mkExportQuery {
  x_format : option string;
  x_disease : option string;
  x_autoantibody : option string;
  x_autoantigen : option string;
  x_limit : option string
}.

(** The two answers of a successful export: the CSV attachment with its
    two headers, or the JSON body. *)
Inductive ExportBody :=
| CsvAttachment (contentType contentDisposition body : string)
| JsonExport (data : list Entry) (count : Z) (exportFormat : string)
    (appliedFilters : option string * option string * option string).

(** [a > b] *)
Definition numGt (a b : Js.Number) : bool :=
  match a, b with
  | Js.NaN, _ | _, Js.NaN => false
  | Js.Num x, Js.Num y => y <? x
  | Js.Infinity s, Js.Num _ => negb s
  | Js.Num _, Js.Infinity s => s
  | Js.Infinity s, Js.Infinity s' => negb s && s'
  end.

(** [if (v) query[name] = new RegExp(v.replace(...), 'i')] *)
Definition exportCondition (name : string) (v : option string)
    (query : gmap string RegExp) : option (gmap string RegExp) :=
  if Js.truthyOpt v then
    r ← newRegExp (escapeRegExp (default "" v)) "i";
    Some (<[ name := r ]> query)
  else Some query.

(** [exportEntries(req, res)]; an exception of [convertToCSV] is caught
    and answered by [handleError]. *)
Definition exportEntries (coll : Collection) (req : ExportQuery)
  : Response ExportBody :=
  let format := default "json" (x_format req) in
  let limit := x_limit req in
  let outcome :=
    q1 ← exportCondition "disease" (x_disease req) ∅;
    q2 ← exportCondition "autoantibody" (x_autoantibody req) q1;
    query ← exportCondition "autoantigen" (x_autoantigen req) q2;
    let sorted :=
      findAll coll (QFields query) [("disease", 1); ("autoantibody", 1)] in
    entries ←
      (if Js.truthyOpt limit && numGt (parseIntOpt limit) (Js.Num 0)
       then cursorLimit (Js.mathMin (parseIntOpt limit) (Js.Num 10000)) sorted
       else Some sorted);
    if String.eqb format "csv" then
      csv ← convertToCSV (Some entries);
      Some (Success (CsvAttachment "text/csv"
                       "attachment; filename=disease_database.csv" csv))
    else
      Some (Success (JsonExport entries (Z.of_nat (length entries)) format
                       (x_disease req, x_autoantibody req, x_autoantigen req))) in
  match outcome with
  | Some response => response
  | None => handleError "Error exporting entries"
  end.

(** *** validateBulkEntries *)

(** The decimal text of a number that is not negative. *)
Fixpoint digitsOf (fuel : nat) (n : Z) (acc : string) : string :=
  match fuel with
  | O => acc
  | S fuel' =>
      let acc' := String (digitChar n) acc in
      if n <? 10 then acc' else digitsOf fuel' (n / 10) acc'
  end.

Definition numberToString (n : Z) : string := digitsOf (S (Z.to_nat n)) n "".

Definition isUpperLetter (c : ascii) : bool :=
  let n := N_of_ascii c in ((65 <=? n) && (n <=? 90))%N.

Definition isUpperOrDigit (c : ascii) : bool :=
  let n := N_of_ascii c in
  (((48 <=? n) && (n <=? 57)) || ((65 <=? n) && (n <=? 90)))%N.

(** [/^[A-Z][0-9A-Z]{5}$/.test(v)] *)
Definition isUniprotId (v : string) : bool :=
  match v with
  | String c rest =>
      isUpperLetter c && (String.length rest =? 5)%nat && allChars isUpperOrDigit rest
  | EmptyString => false
  end.

(** [!v || !v.toString().trim()] *)
Definition missingText (v : option string) : bool :=
  negb (Js.truthyOpt v) || negb (Js.truthy (Js.trim (default "" v))).

(** [v && v !== 'Multiple' && !/^[A-Z][0-9A-Z]{5}$/.test(v)] *)
Definition badUniprotId (v : option string) : bool :=
  Js.truthyOpt v && negb (bool_decide (v = Some "Multiple"))
  && negb (isUniprotId (default "" v)).

(** The messages pushed for the element at [index]; [None] is an element
    that is not an object. *)
Definition entryErrors (index : nat) (item : option Entry) : list string :=
  let label := "Entry " +:+ numberToString (Z.of_nat index + 1) in
  match item with
  | None => [label +:+ ": Invalid entry format"]
  | Some e =>
      (if missingText (disease e) then [label +:+ ": Disease is required"] else [])
      ++ (if missingText (autoantibody e)
          then [label +:+ ": Autoantibody is required"] else [])
      ++ (if missingText (autoantigen e)
          then [label +:+ ": Autoantigen is required"] else [])
      ++ (if badUniprotId (uniprotId e)
          then [label +:+ ": Invalid UniProt ID format"] else [])
  end.

(** [validateBulkEntries(entries)]; [None] is a value that is not an
    array. *)
Definition validateBulkEntries (entries : option (list (option Entry)))
  : list string :=
  match entries with
  | None => ["Entries must be an array"]
  | Some items => concat (imap entryErrors items)
  end.

(** The validator of [uniprotId] in the schema (models/diseaseModel.js):
    [!v || /^[A-Z][0-9A-Z]{5}$/.test(v) || v === 'Multiple'] *)
Definition uniprotIdValidator (v : string) : bool :=
  negb (Js.truthy v) || isUniprotId v || bool_decide (v = "Multiple").

(** *** getStatistics *)

Record GroupCount := mkGroupCount {
  g_id : option string;
  g_count : Z
}.

(** One document entering a [$group] with [count: { $sum: 1 }]. *)
Fixpoint addToGroup (key : option string) (groups : list GroupCount)
  : list GroupCount :=
  match groups with
  | [] => [mkGroupCount key 1]
  | g :: rest =>
      if bool_decide (g_id g = key)
      then mkGroupCount key (g_count g + 1) :: rest
      else g :: addToGroup key rest
  end.

(** [{ $group: { _id: '$field', count: { $sum: 1 } } }]; a record without
    the field falls in the group of [null]. *)
Definition groupCounts (field : string) (coll : Collection) : list GroupCount :=
  foldl (λ groups e, addToGroup (getField field e) groups) [] coll.

Definition groupValue (key : string) (g : GroupCount) : Value :=
  if String.eqb key "count" then VNum (g_count g) else optValue VStr (g_id g).

(** [$group], [{ $sort: { count: -1 } }], [{ $limit: n }] *)
Definition topGroups (field : string) (n : nat) (coll : Collection)
  : list GroupCount :=
  take n (sortBy (leKeys groupValue [("count", -1)]) (groupCounts field coll)).

Record Overview := mkOverview {
  ov_totalEntries : Z;
  ov_verifiedEntries : Z;
  ov_uniqueDiseasesCount : Z;
  ov_uniqueAntibodiesCount : Z;
  ov_uniqueAntigensCount : Z;
  ov_uniqueUniprotIdsCount : Z;
  ov_uniqueDiseases : list string;
  ov_uniqueAntibodies : list string;
  ov_uniqueAntigens : list string
}.

(** [{ $sum: { $cond: ['$metadata.verified', 1, 0] } }] *)
Definition verifiedCount (coll : Collection) : Z :=
  foldr (λ e acc, (if default false (verified <$> metadata e) then 1 else 0) + acc)
    0 coll.

(** The first aggregation: one group of everything, none for an empty
    collection. *)
Definition overviewStats (coll : Collection) : list Overview :=
  match coll with
  | [] => []
  | _ =>
      let uniqueDiseases := dedup (omap disease coll) in
      let uniqueAntibodies := dedup (omap autoantibody coll) in
      let uniqueAntigens := dedup (omap autoantigen coll) in
      let uniqueUniprotIds := dedup (omap uniprotId coll) in
      [ mkOverview (Z.of_nat (length coll)) (verifiedCount coll)
          (Z.of_nat (length uniqueDiseases)) (Z.of_nat (length uniqueAntibodies))
          (Z.of_nat (length uniqueAntigens)) (Z.of_nat (length uniqueUniprotIds))
          uniqueDiseases uniqueAntibodies uniqueAntigens ]
  end.

Record Statistics := mkStatistics {
  st_overview : option Overview;
  st_diseaseBreakdown : list GroupCount;
  st_topAntibodies : list GroupCount;
  st_topAntigens : list GroupCount
}.

(** [getStatistics(req, res)]; an overview of [None] is the empty object
    of [stats[0] || {}]. *)
Definition getStatistics (coll : Collection) : Response Statistics :=
  let stats := overviewStats coll in
  Success (mkStatistics (head stats)
             (topGroups "disease" 20 coll)
             (topGroups "autoantibody" 10 coll)
             (topGroups "autoantigen" 10 coll)).

(** ** The upload filter (middleware/fileUpload.js) *)

Definition lowerCase (c : ascii) : ascii :=
  let n := N_of_ascii c in
  if ((65 <=? n) && (n <=? 90))%N then ascii_of_N (n + 32) else c.

(** [s.toLowerCase()] *)
Fixpoint toLowerCase (s : string) : string :=
  match s with
  | EmptyString => EmptyString
  | String c s' => String (lowerCase c) (toLowerCase s')
  end.

(** [s.lastIndexOf(c)]: the last position of the character, or [-1]. *)
Fixpoint lastIndexOf (c : ascii) (s : string) : Z :=
  match s with
  | EmptyString => -1
  | String d s' =>
      let r := lastIndexOf c s' in
      if 0 <=? r then r + 1 else if Ascii.eqb c d then 0 else -1
  end.

Fixpoint dropChars (n : nat) (s : string) : string :=
  match n, s with
  | O, _ => s
  | S n', String _ s' => dropChars n' s'
  | S _, EmptyString => EmptyString
  end.

(** [s.substr(start)]: from [start] to the end, a negative [start]
    counting from the end. *)
Definition substr (s : string) (start : Z) : string :=
  let len := Js.length s in
  let from := if start <? 0 then Z.max (len + start) 0 else Z.min start len in
  dropChars (Z.to_nat from) s.

Record File := mkFile {
  originalname : string;
  mimetype : string
}.

Definition allowedMimes : list string :=
  ["text/csv";
   "application/vnd.ms-excel";
   "application/vnd.openxmlformats-officedocument.spreadsheetml.sheet";
   "application/csv";
   "text/x-csv";
   "application/x-csv";
   "text/comma-separated-values";
   "text/x-comma-separated-values"].

Definition allowedExtensions : list string := [".csv"; ".xlsx"; ".xls"].

(** [fileFilter(req, file, cb)]: [true] for [cb(null, true)], [false] for
    the error INVALID_FILE_TYPE. *)
Definition fileFilter (file : File) : bool :=
  let fileExtension :=
    substr (toLowerCase (originalname file))
           (lastIndexOf "."%char (originalname file)) in
  existsb (String.eqb (mimetype file)) allowedMimes
  || existsb (String.eqb fileExtension) allowedExtensions.

(** ** Reference definitions for the listing and the lookups *)

(** The records the four structured filters of the listing select. *)
Definition filtersSelect (req : ListingQuery) (e : Entry) : bool :=
  filterSelects (l_disease req) (disease e)
  && filterSelects (l_autoantibody req) (autoantibody e)
  && filterSelects (l_autoantigen req) (autoantigen e)
  && filterSelects (l_epitope req) (epitope e).

(** The records the parameters of the listing select: those the four
    filters select and, for a non-blank search term, the search selects.
    The field of the search has no default here: with the field absent
    (or not one of [all] and the five names) the term selects every
    record. *)
Definition listingSelects (req : ListingQuery) (e : Entry) : bool :=
  match nonBlank (l_search req) with
  | Some t => searchSelects (l_field req) t e
  | None => true
  end && filtersSelect req e.

(** A list of stored documents in the order of one key, ascending or
    descending; documents that compare equal may come in any order. *)
Definition sortedByKey (key : string) (descending : bool) (l : list Stored) : Prop :=
  StronglySorted
    (λ a b, compareValue (storedValue key a) (storedValue key b)
            ≠ (if descending then Lt else Gt)) l.

(** A record is related to an entry when it has the entry's disease or
    autoantigen, if that is not empty, or the entry's UniProt id, if that
    is neither empty nor the text Multiple; the entry's value counts
    without the white space around it. *)
Definition related (e other : Entry) : Prop :=
  (∃ v, disease e = Some v ∧ v ≠ "" ∧ disease other = Some (Js.trim v)) ∨
  (∃ v, autoantigen e = Some v ∧ v ≠ "" ∧ autoantigen other = Some (Js.trim v)) ∨
  (∃ v, uniprotId e = Some v ∧ v ≠ "" ∧ v ≠ "Multiple"
        ∧ uniprotId other = Some (Js.trim v)).

(** Every document has an [_id] of its own. *)
Definition uniqueIds (store : Store) : Prop := List.NoDup (map s_id store).

(** *** A sample store *)
Module SampleStore.

Definition sle2 : Entry :=
  mkEntry (Some "Systemic lupus erythematosus (SLE)") (Some "Anti-Sm")
    (Some "Sm") None (Some "Multiple") (Some 86400000) None.

Definition store : Store :=
  [ mkStored 1 Sample.celiac (Some 10);
    mkStored 2 Sample.other (Some 20);
    mkStored 3 Sample.sle (Some 30);
    mkStored 4 sle2 (Some 40) ].

Definition id2 : string := "000000000000000000000002".
Definition id3 : string := "000000000000000000000003".

End SampleStore.

(** *** The export *)

(** What a filter of the export asks of a field: nothing when the filter
    is absent or empty, else that the field contains the text as given. *)
Definition rawFilterHolds (v : option string) (fieldValue : option string) : bool :=
  if Js.truthyOpt v then fieldContains (default "" v) fieldValue else true.

Definition exportHolds (req : ExportQuery) (e : Entry) : bool :=
  rawFilterHolds (x_disease req) (disease e)
  && rawFilterHolds (x_autoantibody req) (autoantibody e)
  && rawFilterHolds (x_autoantigen req) (autoantigen e).

(** The number of records exported out of those available: the limit when
    it reads as a positive number, capped at 10000; everything otherwise. *)
Definition exportedCount (limit : option string) (available : nat) : nat :=
  match parseIntOpt limit with
  | Js.Num n => if 0 <? n then Nat.min (Z.to_nat (Z.min n 10000)) available else available
  | Js.Infinity false => Nat.min (Z.to_nat 10000) available
  | Js.NaN | Js.Infinity true => available
  end.

(** The order of a list of lean records under a sort specification. *)
Definition sortedBy (spec : SortSpec) (entries : list Entry) : Prop :=
  StronglySorted (λ a b, docLe spec (mkDoc a None) (mkDoc b None) = true) entries.

(** *** Bulk validation *)

(** A record the bulk validation lets through: disease, autoantibody and
    autoantigen are present and not blank, and the UniProt id, when there
    is one, is empty, the text Multiple, or a capital letter followed by
    five capital letters or digits. *)
Definition wellFormed (e : Entry) : Prop :=
  nonBlank (disease e) ≠ None ∧
  nonBlank (autoantibody e) ≠ None ∧
  nonBlank (autoantigen e) ≠ None ∧
  match uniprotId e with
  | Some u => uniprotIdValidator u = true
  | None => True
  end.

Definition validItem (item : option Entry) : Prop :=
  match item with
  | Some e => wellFormed e
  | None => False
  end.


(** *** Statistics *)

(** How many records have the value in the field ([None]: no value). *)
Definition occurrences (field : string) (key : option string) (coll : Collection) : Z :=
  Z.of_nat (length (List.filter (λ e, bool_decide (getField field e = key)) coll)).

(** The count recorded for a key in a list of groups. *)
Fixpoint countIn (key : option string) (groups : list GroupCount) : Z :=
  match groups with
  | [] => 0
  | g :: rest =>
      (if bool_decide (g_id g = key) then g_count g else 0) + countIn key rest
  end.

Definition sumCounts (groups : list GroupCount) : Z :=
  foldr (λ g acc, g_count g + acc) 0 groups.

(** A list of the [n] most frequent values of a field: at most [n] rows
    with distinct values, each with the number of records that have the
    value, the larger counts first; a value of the collection that is not
    listed occurs at most as often as every listed one, and is left out
    only when the list is full. *)
Definition isTopGroups (field : string) (n : nat) (coll : Collection)
    (top : list GroupCount) : Prop :=
  (length top ≤ n)%nat ∧
  List.NoDup (map g_id top) ∧
  Forall (λ g, 1 ≤ g_count g ∧ g_count g = occurrences field (g_id g) coll) top ∧
  StronglySorted (λ a b, g_count b ≤ g_count a) top ∧
  (∀ e, In e coll →
     In (getField field e) (map g_id top) ∨
     (length top = n ∧
      Forall (λ g, occurrences field (getField field e) coll ≤ g_count g) top)).

(** ** The router (routes/diseaseRoutes.js)

    A request path is the list of its segments below the mount point.  A
    literal segment of a route matches without regard to letter case, a
    parameter matches any segment that is not empty. *)
Inductive Method := GET | POST | PUT | DELETE.

#[global] Instance Method_eq_dec : EqDecision Method.
Proof. solve_decision. Defined.

Inductive Segment :=
| Lit (text : string)
| Param (name : string).

Inductive Handler :=
| GetAllEntries | GetEntryById | CreateEntry | UpdateEntry | DeleteEntry
| SearchEntries | AdvancedSearch
| GetEntriesByDisease | GetEntriesByUniprotId
| GetUniqueValues | GetFilteredUniqueValues
| GetStatistics
| BulkImport | ExportEntries.

Record Route := mkRoute {
  r_method : Method;
  r_path : list Segment;
  r_handler : Handler
}.

(** The routes in the order of their registration. *)
Definition router : list Route :=
  [ mkRoute GET [] GetAllEntries;
    mkRoute GET [Param "id"] GetEntryById;
    mkRoute POST [] CreateEntry;
    mkRoute PUT [Param "id"] UpdateEntry;
    mkRoute DELETE [Param "id"] DeleteEntry;
    mkRoute GET [Lit "search"; Lit "entries"] SearchEntries;
    mkRoute GET [Lit "search"; Lit "advanced"] AdvancedSearch;
    mkRoute GET [Lit "disease"; Param "disease"] GetEntriesByDisease;
    mkRoute GET [Lit "uniprot"; Param "uniprotId"] GetEntriesByUniprotId;
    mkRoute GET [Lit "unique"; Param "field"] GetUniqueValues;
    mkRoute GET [Lit "unique-filtered"; Param "field"] GetFilteredUniqueValues;
    mkRoute GET [Lit "statistics"; Lit "overview"] GetStatistics;
    mkRoute POST [Lit "bulk"; Lit "import"] BulkImport;
    mkRoute GET [Lit "export"; Lit "data"] ExportEntries ].

Definition segmentMatches (p : Segment) (segment : string) : bool :=
  match p with
  | Lit text => String.eqb (toLowerCase segment) text
  | Param _ => Js.truthy segment
  end.

Fixpoint pathMatches (pattern : list Segment) (path : list string) : bool :=
  match pattern, path with
  | [], [] => true
  | p :: pattern', segment :: path' =>
      segmentMatches p segment && pathMatches pattern' path'
  | _, _ => false
  end.

Definition routeMatches (method : Method) (path : list string) (r : Route) : bool :=
  bool_decide (r_method r = method) && pathMatches (r_path r) path.

(** The handler of a request: the first route that matches. *)
Definition dispatch (method : Method) (path : list string) : option Handler :=
  r_handler <$> List.find (routeMatches method path) router.

(** A path that a route matches: its literal segments, and the name of a
    parameter in the place of the parameter. *)
Definition samplePath (r : Route) : list string :=
  map (λ p, match p with Lit text => text | Param name => name end) (r_path r).

(** Two routes overlap when some request could match both: the same
    method, as many segments, and no position with two different
    literals. *)
Definition segmentsOverlap (p q : Segment) : bool :=
  match p, q with
  | Lit s, Lit t => String.eqb s t
  | _, _ => true
  end.

Fixpoint patternsOverlap (ps qs : list Segment) : bool :=
  match ps, qs with
  | [], [] => true
  | p :: ps', q :: qs' => segmentsOverlap p q && patternsOverlap ps' qs'
  | _, _ => false
  end.

Definition routesOverlap (r1 r2 : Route) : bool :=
  bool_decide (r_method r1 = r_method r2) && patternsOverlap (r_path r1) (r_path r2).

Fixpoint pairwiseDisjoint (routes : list Route) : bool :=
  match routes with
  | [] => true
  | r :: rest =>
      forallb (λ r', negb (routesOverlap r r')) rest && pairwiseDisjoint rest
  end.

(** ** bulkImport

    The storage call [insertMany] and the clock are parameters of the
    handler.  An error thrown by the call is seen through the properties
    the handler and [handleError] read. *)
Record ThrownError := mkThrownError {
  err_name : string;
  err_code : option Z;
  err_messages : list string;
  err_insertedCount : option Z;
  err_writeErrors : option (list string)
}.

Inductive InsertOutcome :=
| Inserted (results : list Entry)
| Thrown (error : ThrownError).

(** The four kinds of answer: status 400 with a message and, for
    validation errors, the list of them; status 200; status 207; the
    answer of [handleError]. *)
Inductive ImportResponse :=
| ImportRejected (message : string) (errors : option (list string))
| Imported (message : string) (inserted total failed : Z)
| PartlyImported (message : string) (inserted failed : Z) (errors : list string)
| ImportError (status : Z) (message : string).

Module Errors.

(** [handleError(res, error, message)]: status and message by the kind of
    the error. *)
Definition handleError (error : ThrownError) (message : string) : Z * string :=
  if String.eqb (err_name error) "ValidationError" then
    (400, "Validation error: " +:+ join ", " (err_messages error))
  else if String.eqb (err_name error) "CastError" then
    (400, "Invalid ID format")
  else if bool_decide (err_code error = Some 11000) then
    (409, "Duplicate entry found")
  else (500, message).

End Errors.

(** The elements of an array that are all objects; [None] when one is
    not (reading [entry.metadata] of it throws). *)
Fixpoint objects (items : list (option Entry)) : option (list Entry) :=
  match items with
  | [] => Some []
  | item :: rest => e ← item; es ← objects rest; Some (e :: es)
  end.

(** [{ ...entry, metadata: { dateAdded, lastUpdated, verified, source } }]
    for the two readings of the clock. *)
Definition withMetadata (added updated : Z) (e : Entry) : Entry :=
  let given := metadata e in
  let givenSource := given ≫= source in
  mkEntry (disease e) (autoantibody e) (autoantigen e) (epitope e) (uniprotId e)
    (createdAt e)
    (Some (mkMetadata
             (Some (if Js.truthyOpt givenSource
                    then default "" givenSource else "bulk_import"))
             (Some added) (Some updated)
             (default false (verified <$> given)))).

Section BulkImport.
(** [clock n] is the value of the [n]-th [new Date()] of the request. *)
Variable clock : nat → Z.
Variable insertMany : list Entry → InsertOutcome.

(** [entries.map(entry => ({ ...entry, metadata: { ... } }))]: two
    readings of the clock for each entry. *)
Definition stamped (es : list Entry) : list Entry :=
  imap (λ i e, withMetadata (clock (2 * i)) (clock (2 * i + 1)) e) es.

(** [bulkImport(req, res)] for the [entries] of the body ([None]: absent
    or not an array): the lists handed to [insertMany], and the answer. *)
Definition bulkImport (entries : option (list (option Entry)))
  : list (list Entry) * ImportResponse :=
  match entries with
  | None | Some [] =>
      ([], ImportRejected "Entries array is required and cannot be empty" None)
  | Some items =>
      if 1000 <? Z.of_nat (length items) then
        ([], ImportRejected "Cannot import more than 1000 entries at once" None)
      else
        let validationErrors := validateBulkEntries entries in
        if 0 <? Z.of_nat (length validationErrors) then
          ([], ImportRejected "Validation errors in bulk data" (Some validationErrors))
        else
          match objects items with
          | None => ([], ImportError 500 "Error during bulk import")
          | Some es =>
              let entriesWithMetadata := stamped es in
              ([entriesWithMetadata],
               match insertMany entriesWithMetadata with
               | Inserted results =>
                   let inserted := Z.of_nat (length results) in
                   let total := Z.of_nat (length items) in
                   Imported
                     ("Successfully imported " +:+ numberToString inserted +:+ " entries")
                     inserted total (total - inserted)
               | Thrown error =>
                   match err_insertedCount error with
                   | Some insertedCount =>
                       if 0 <? insertedCount then
                         PartlyImported
                           ("Partially successful: imported "
                            +:+ numberToString insertedCount +:+ " entries")
                           insertedCount
                           (Z.of_nat (length (default [] (err_writeErrors error))))
                           (default [] (err_writeErrors error))
                       else
                         let '(status, message) :=
                           Errors.handleError error "Error during bulk import" in
                         ImportError status message
                   | None =>
                       let '(status, message) :=
                         Errors.handleError error "Error during bulk import" in
                       ImportError status message
                   end
               end)
          end
  end.

End BulkImport.

(** The bodies the bulk import lets through: an array of one to a
    thousand records, each of them well formed. *)
Definition importable (entries : option (list (option Entry))) (es : list Entry) : Prop :=
  entries = Some (map Some es) ∧
  (1 ≤ length es ≤ 1000)%nat ∧
  Forall wellFormed es.

(** * Properties *)

(** ** Strings *)

Lemma append_assoc (a b c : string) : (a +:+ b) +:+ c = a +:+ (b +:+ c).
Proof.
  induction a as [|x a IH]; [reflexivity|].
  change (String x ((a +:+ b) +:+ c) = String x (a +:+ (b +:+ c))).
  now rewrite IH.
Qed.

Lemma append_empty_r (a : string) : a +:+ "" = a.
Proof.
  induction a as [|x a IH]; [reflexivity|].
  change (String x (a +:+ "") = String x a). now rewrite IH.
Qed.

Lemma append_eq_empty (a b : string) : a +:+ b = "" → a = "" ∧ b = "".
Proof.
  destruct a; [|discriminate]. intros H. split; [reflexivity|exact H].
Qed.

(** ** Sanitizer *)

Lemma isSyntaxChar_spec c : isSyntaxChar c = true ↔ In c syntaxChars.
Proof.
  destruct c as [[] [] [] [] [] [] [] []]; vm_compute; split; intros H;
    try reflexivity; try discriminate;
    repeat (destruct H as [H|H]; [discriminate H|]); try contradiction;
    tauto.
Qed.

Lemma escapeRegExp_app s1 s2 :
  escapeRegExp (s1 +:+ s2) = escapeRegExp s1 +:+ escapeRegExp s2.
Proof.
  induction s1 as [|c s1 IH]; [reflexivity|].
  change (String c s1 +:+ s2) with (String c (s1 +:+ s2)).
  cbn [escapeRegExp]. rewrite IH. now destruct (isSyntaxChar c).
Qed.

(** A character outside the class is none of the characters the parser
    gives a meaning to. *)
Lemma plain_char_not_operator c :
  isSyntaxChar c = false →
  Ascii.eqb c "\" = false ∧ Ascii.eqb c "(" = false ∧ Ascii.eqb c ")" = false ∧
  Ascii.eqb c "|" = false ∧ Ascii.eqb c "*" = false ∧ Ascii.eqb c "+" = false ∧
  Ascii.eqb c "?" = false ∧ Ascii.eqb c "." = false.
Proof.
  destruct c as [[] [] [] [] [] [] [] []]; vm_compute; intros H;
    try discriminate H; repeat split.
Qed.

Lemma parseFrames_escapeRegExp raw : ∀ rest cur stack,
  parseFrames (escapeRegExp raw +:+ rest) cur stack =
  parseFrames rest (pushLiteral raw cur) stack.
Proof.
  induction raw as [|c raw IH]; intros rest cur stack; [reflexivity|].
  cbn [escapeRegExp pushLiteral]. destruct (isSyntaxChar c) eqn:Hc.
  - change (String "\" (String c (escapeRegExp raw)) +:+ rest)
      with (String "\" (String c (escapeRegExp raw +:+ rest))).
    cbn [parseFrames]. rewrite Ascii.eqb_refl, Hc. apply IH.
  - change (String c (escapeRegExp raw) +:+ rest)
      with (String c (escapeRegExp raw +:+ rest)).
    cbn [parseFrames].
    destruct (plain_char_not_operator c Hc)
      as (-> & -> & -> & -> & -> & -> & -> & ->).
    rewrite Hc. apply IH.
Qed.

Lemma pushLiteral_frame raw : ∀ f,
  alternatives (pushLiteral raw f) = alternatives f ∧
  atoms (pushLiteral raw f)
  = rev (map RChar (list_ascii_of_string raw)) ++ atoms f.
Proof.
  induction raw as [|c raw IH]; intros f; [split; reflexivity|].
  cbn [pushLiteral list_ascii_of_string map rev].
  destruct (IH (pushAtom (RChar c) f)) as [-> ->].
  split; [reflexivity|]. cbn [pushAtom atoms]. now rewrite <- app_assoc.
Qed.

Lemma seqOf_literal raw :
  seqOf (map RChar (list_ascii_of_string raw)) = literalRegex raw.
Proof.
  induction raw as [|c raw IH]; [reflexivity|].
  cbn [list_ascii_of_string map literalRegex]. now rewrite <- IH.
Qed.

Lemma parsePattern_escapeRegExp raw :
  parsePattern (escapeRegExp raw) = Some (literalRegex raw).
Proof.
  unfold parsePattern.
  rewrite <- (append_empty_r (escapeRegExp raw)), parseFrames_escapeRegExp.
  cbn [parseFrames]. unfold closeFrame.
  destruct (pushLiteral_frame raw emptyFrame) as [-> ->].
  cbn [emptyFrame alternatives atoms rev foldr].
  now rewrite app_nil_r, rev_involutive, seqOf_literal.
Qed.

Lemma newRegExp_escapeRegExp raw :
  newRegExp (escapeRegExp raw) "i" = Some (literalRegExp raw).
Proof. unfold newRegExp. now rewrite parsePattern_escapeRegExp. Qed.

(** ** Regular expressions: the matcher and the texts matched *)

Section Matching.
Variable ic : bool.

Lemma Matches_nullable r s : Matches ic r s → s = "" → nullable r = true.
Proof.
  induction 1 as [|a b Hab|b Hb|r1 r2 s1 s2 _ IH1 _ IH2|r1 r2 s _ IH
                  |r1 r2 s _ IH|r|r s1 s2 _ _ _ _]; intros Hs;
    try discriminate; try reflexivity; cbn [nullable].
  - apply append_eq_empty in Hs as [-> ->]. now rewrite IH1, IH2.
  - now rewrite IH.
  - rewrite IH by assumption. apply orb_true_r.
Qed.

Lemma nullable_Matches r : nullable r = true → Matches ic r "".
Proof.
  induction r as [| | | |r1 IH1 r2 IH2|r1 IH1 r2 IH2|r IH]; cbn [nullable];
    try discriminate.
  - intros _. constructor.
  - intros [H1 H2]%andb_true_iff.
    change "" with ("" +:+ ""). constructor; auto.
  - intros [H|H]%orb_true_iff; [apply MatchAltL|apply MatchAltR]; auto.
  - intros _. constructor.
Qed.

Lemma nullable_spec r : nullable r = true ↔ Matches ic r "".
Proof.
  split; [apply nullable_Matches|]. intros H. now apply (Matches_nullable r "").
Qed.

Lemma derive_sound c r : ∀ s,
  Matches ic (derive ic c r) s → Matches ic r (String c s).
Proof.
  induction r as [| |a| |r1 IH1 r2 IH2|r1 IH1 r2 IH2|r IH]; intros s;
    cbn [derive].
  - inversion 1.
  - inversion 1.
  - destruct (charMatches ic a c) eqn:Hac; inversion 1; subst. now constructor.
  - destruct (isLineTerminator c) eqn:Hc; inversion 1; subst. now constructor.
  - assert (Hseq : ∀ t, Matches ic (RSeq (derive ic c r1) r2) t →
                        Matches ic (RSeq r1 r2) (String c t)).
    { intros t Ht. inversion Ht as [| | |? ? s1 s2 H1 H2| | | |]; subst.
      change (String c (s1 +:+ s2)) with (String c s1 +:+ s2).
      constructor; auto. }
    destruct (nullable r1) eqn:Hn; [|apply Hseq].
    intros H. inversion H; subst; [now apply Hseq|].
    change (String c s) with ("" +:+ String c s).
    constructor; [now apply nullable_Matches|auto].
  - inversion 1; subst; [apply MatchAltL|apply MatchAltR]; auto.
  - inversion 1 as [| | |? ? s1 s2 H1 H2| | | |]; subst.
    change (String c (s1 +:+ s2)) with (String c s1 +:+ s2).
    constructor; auto.
Qed.

Lemma derive_complete r t :
  Matches ic r t → ∀ c s, t = String c s → Matches ic (derive ic c r) s.
Proof.
  induction 1 as [|a b Hab|b Hb|r1 r2 s1 s2 H1 IH1 H2 IH2|r1 r2 u H IH
                  |r1 r2 u H IH|r|r s1 s2 H1 IH1 H2 IH2]; intros c s Ht;
    try discriminate; cbn [derive].
  - injection Ht as ? ?; subst. rewrite Hab. constructor.
  - injection Ht as ? ?; subst. rewrite Hb. constructor.
  - destruct s1 as [|c1 s1].
    + change ("" +:+ s2) with s2 in Ht.
      rewrite (Matches_nullable r1 "" H1 eq_refl).
      apply MatchAltR. now apply IH2.
    + change (String c1 s1 +:+ s2) with (String c1 (s1 +:+ s2)) in Ht.
      injection Ht as ? ?; subst.
      assert (Hs : Matches ic (RSeq (derive ic c r1) r2) (s1 +:+ s2))
        by (constructor; auto).
      destruct (nullable r1); [now apply MatchAltL|exact Hs].
  - apply MatchAltL. now apply IH.
  - apply MatchAltR. now apply IH.
  - destruct s1 as [|c1 s1].
    + change ("" +:+ s2) with s2 in Ht. now apply IH2.
    + change (String c1 s1 +:+ s2) with (String c1 (s1 +:+ s2)) in Ht.
      injection Ht as ? ?; subst. constructor; auto.
Qed.

Lemma derive_spec c r s :
  Matches ic (derive ic c r) s ↔ Matches ic r (String c s).
Proof.
  split; [apply derive_sound|]. intros H. now apply (derive_complete r _ H).
Qed.

Lemma matchesHere_spec s : ∀ r,
  matchesHere ic r s = true ↔ ∃ pre post, s = pre +:+ post ∧ Matches ic r pre.
Proof.
  induction s as [|c s IH]; intros r; cbn [matchesHere];
    rewrite orb_true_iff, nullable_spec.
  - split.
    + intros [H|H]; [|discriminate]. now exists "", "".
    + intros (pre & post & Hs & Hm). left.
      symmetry in Hs. apply append_eq_empty in Hs as [-> _]. exact Hm.
  - rewrite IH. split.
    + intros [H|(pre & post & -> & Hm)].
      * now exists "", (String c s).
      * exists (String c pre), post. split; [reflexivity|].
        now apply derive_spec.
    + intros (pre & post & Hs & Hm). destruct pre as [|p pre].
      * now left.
      * right. change (String p pre +:+ post) with (String p (pre +:+ post)) in Hs.
        injection Hs as ? ?; subst. exists pre, post. split; [reflexivity|].
        now apply derive_spec.
Qed.

Lemma searchFrom_spec r s :
  searchFrom ic r s = true ↔
  ∃ pre mid post, s = pre +:+ mid +:+ post ∧ Matches ic r mid.
Proof.
  induction s as [|c s IH]; cbn [searchFrom];
    rewrite orb_true_iff, matchesHere_spec.
  - split.
    + intros [(mid & post & Hs & Hm)|H]; [|discriminate].
      now exists "", mid, post.
    + intros (pre & mid & post & Hs & Hm). left.
      destruct pre; [|discriminate]. now exists mid, post.
  - rewrite IH. split.
    + intros [(mid & post & Hs & Hm)|(pre & mid & post & -> & Hm)].
      * now exists "", mid, post.
      * now exists (String c pre), mid, post.
    + intros (pre & mid & post & Hs & Hm). destruct pre as [|p pre].
      * left. now exists mid, post.
      * right.
        change (String p pre +:+ mid +:+ post)
          with (String p (pre +:+ mid +:+ post)) in Hs.
        injection Hs as ? ?; subst. now exists pre, mid, post.
Qed.

End Matching.

Lemma charMatches_true_iff a b :
  charMatches true a b = true ↔ Js.canonicalize a = Js.canonicalize b.
Proof. unfold charMatches. apply Ascii.eqb_eq. Qed.

(** A literal pattern matches the texts equal to it up to letter case. *)
Lemma Matches_literal lit : ∀ s,
  Matches true (literalRegex lit) s ↔ eqIgnoreCase s lit.
Proof.
  unfold eqIgnoreCase. induction lit as [|a lit IH]; intros s; cbn [literalRegex].
  - split.
    + inversion 1. reflexivity.
    + destruct s; [constructor|discriminate].
  - split.
    + inversion 1 as [| | |? ? s1 s2 H1 H2| | | |]; subst.
      inversion H1 as [|? b Hab| | | | | |]; subst.
      apply charMatches_true_iff in Hab. apply IH in H2.
      change (String b "" +:+ s2) with (String b s2).
      cbn [Js.toUpperCase]. now rewrite Hab, H2.
    + destruct s as [|b s]; [discriminate|]. cbn [Js.toUpperCase].
      intros [= Hab Hs]. change (String b s) with (String b "" +:+ s).
      constructor; [|now apply IH].
      constructor. now apply charMatches_true_iff.
Qed.

Lemma regexTest_literal_spec raw s :
  regexTest (literalRegExp raw) s = true ↔ occursIgnoreCase raw s.
Proof.
  unfold regexTest, occursIgnoreCase. cbn [literalRegExp pattern ignoreCase].
  rewrite searchFrom_spec. split.
  - intros (pre & mid & post & Hs & Hm). exists pre, mid, post.
    split; [exact Hs|]. now apply Matches_literal.
  - intros (pre & mid & post & Hs & Hm). exists pre, mid, post.
    split; [exact Hs|]. now apply Matches_literal.
Qed.

Lemma startsWith_spec lit s :
  Js.startsWith (Js.toUpperCase lit) (Js.toUpperCase s) = true ↔
  ∃ mid post, s = mid +:+ post ∧ eqIgnoreCase mid lit.
Proof.
  unfold eqIgnoreCase. revert s.
  induction lit as [|a lit IH]; intros s.
  - split; [intros _; exists "", s; split; reflexivity|reflexivity].
  - destruct s as [|b s]; cbn [Js.startsWith Js.toUpperCase].
    + split; [discriminate|].
      intros (mid & post & Hs & Hm).
      symmetry in Hs. apply append_eq_empty in Hs as [-> _]. discriminate.
    + destruct (Ascii.eqb_spec (Js.canonicalize a) (Js.canonicalize b)) as [Hab|Hab].
      * rewrite IH. split.
        -- intros (mid & post & -> & Hm).
           exists (String b mid), post. split; [reflexivity|].
           cbn [Js.toUpperCase]. now rewrite Hm, Hab.
        -- intros (mid & post & Hs & Hm).
           destruct mid as [|m mid]; [discriminate|].
           change (String m mid +:+ post) with (String m (mid +:+ post)) in Hs.
           injection Hs as ? ?; subst. injection Hm as _ Hm. now exists mid, post.
      * split; [discriminate|].
        intros (mid & post & Hs & Hm).
        destruct mid as [|m mid]; [discriminate|].
        change (String m mid +:+ post) with (String m (mid +:+ post)) in Hs.
        injection Hs as ? ?; subst. injection Hm as Hc _. congruence.
Qed.

Lemma containsIgnoreCase_spec raw s :
  containsIgnoreCase raw s = true ↔ occursIgnoreCase raw s.
Proof.
  unfold containsIgnoreCase, occursIgnoreCase.
  induction s as [|b s IH]; cbn [Js.toUpperCase Js.includes];
    rewrite orb_true_iff.
  - rewrite (startsWith_spec raw ""). split.
    + intros [(mid & post & Hs & Hm)|H]; [|discriminate].
      now exists "", mid, post.
    + intros (pre & mid & post & Hs & Hm). left.
      destruct pre; [|discriminate]. now exists mid, post.
  - rewrite (startsWith_spec raw (String b s)), IH. split.
    + intros [(mid & post & Hs & Hm)|(pre & mid & post & -> & Hm)].
      * now exists "", mid, post.
      * now exists (String b pre), mid, post.
    + intros (pre & mid & post & Hs & Hm). destruct pre as [|p pre].
      * left. now exists mid, post.
      * right.
        change (String p pre +:+ mid +:+ post)
          with (String p (pre +:+ mid +:+ post)) in Hs.
        injection Hs as ? ?; subst. now exists pre, mid, post.
Qed.

Lemma regexTest_literal raw s :
  regexTest (literalRegExp raw) s = containsIgnoreCase raw s.
Proof.
  apply eq_true_iff_eq.
  now rewrite regexTest_literal_spec, containsIgnoreCase_spec.
Qed.

(** Without the sanitising replace the parentheses of the filter value
    form a group, and the pattern no longer matches the record value. *)
Lemma unescaped_pattern_differs :
  ∃ re, newRegExp "C1q (complement)" "i" = Some re ∧
        regexTest re "C1q (complement)" = false ∧
        regexTest re "c1q COMPLEMENT" = true.
Proof. eexists. split; [reflexivity|]. split; reflexivity. Qed.

(** C5. The sanitising replace puts a backslash before each of the fourteen
    regex metacharacters and leaves every other character as it is; the
    escaped text always compiles, and as a case-insensitive pattern it
    matches a text exactly when the raw string occurs in it (up to letter
    case).  The filter value [C1q (complement)] becomes
    [C1q \(complement\)] and matches the record value [C1q (complement)]. *)
Theorem sanitizer_escape_literal :
  (∀ c, isSyntaxChar c = true ↔ In c syntaxChars) ∧
  (∀ c s, escapeRegExp (String c s) =
          if isSyntaxChar c then String "\"%char (String c (escapeRegExp s))
          else String c (escapeRegExp s)) ∧
  (∀ s1 s2, escapeRegExp (s1 +:+ s2) = escapeRegExp s1 +:+ escapeRegExp s2) ∧
  (∀ raw, ∃ re, newRegExp (escapeRegExp raw) "i" = Some re ∧
     (∀ text, Matches true (pattern re) text ↔ eqIgnoreCase text raw) ∧
     ∀ text, regexTest re text = true ↔ occursIgnoreCase raw text) ∧
  escapeRegExp "C1q (complement)" = "C1q \(complement\)" ∧
  (∃ re, newRegExp (escapeRegExp "C1q (complement)") "i" = Some re ∧
         regexTest re "C1q (complement)" = true).
Proof.
  split; [exact isSyntaxChar_spec|].
  split; [reflexivity|].
  split; [exact escapeRegExp_app|].
  split.
  - intros raw. exists (literalRegExp raw).
    split; [apply newRegExp_escapeRegExp|].
    split; [apply Matches_literal|apply regexTest_literal_spec].
  - split; [reflexivity|].
    exists (literalRegExp "C1q (complement)"). split; reflexivity.
Qed.

(** ** QueryBuilder *)

Lemma matchesQuery_empty e : matchesQuery (QFields ∅) e = true.
Proof. simpl. apply bool_decide_eq_true_2, map_Forall_empty. Qed.

Lemma matchesQuery_singleton name re e :
  matchesQuery (QFields {[ name := re ]}) e = fieldMatchesb e name re.
Proof.
  simpl. destruct (fieldMatchesb e name re) eqn:H.
  - apply bool_decide_eq_true_2, map_Forall_singleton, H.
  - apply bool_decide_eq_false_2. intros Hm.
    apply map_Forall_singleton in Hm. congruence.
Qed.

Lemma fieldMatchesb_spec e name re :
  fieldMatchesb e name re = true ↔ fieldMatches e name re.
Proof.
  unfold fieldMatchesb, fieldMatches. destruct (getField name e) as [v|].
  - split; [intros H; now exists v|]. intros (w & [= <-] & H). exact H.
  - split; [discriminate|]. intros (w & [=] & _).
Qed.

Lemma filterCondition_eq name v :
  filterCondition name v =
  Some (match nonBlank v with
        | Some t => [QFields {[ name := literalRegExp t ]}]
        | None => []
        end).
Proof.
  unfold filterCondition. destruct (nonBlank v) as [t|]; [|reflexivity].
  now rewrite newRegExp_escapeRegExp.
Qed.

Lemma searchConditions_eq p :
  searchConditions p =
  Some (match nonBlank (p_search p) with
        | Some t =>
            if bool_decide (p_field p = Some "all")
            then [anyFieldQuery (literalRegExp t)]
            else if includesField searchFields (p_field p)
            then [QFields {[ default "" (p_field p) := literalRegExp t ]}]
            else []
        | None => []
        end).
Proof.
  unfold searchConditions. destruct (nonBlank (p_search p)) as [t|]; [|reflexivity].
  rewrite newRegExp_escapeRegExp. simpl.
  destruct (bool_decide (p_field p = Some "all")); [reflexivity|].
  now destruct (includesField searchFields (p_field p)).
Qed.

Lemma filterCondition_clauses name v fc :
  filterCondition name v = Some fc →
  Forall isFieldClause fc ∧
  length fc = if bool_decide (is_Some (nonBlank v)) then 1%nat else 0%nat.
Proof.
  rewrite filterCondition_eq. intros [= <-].
  destruct (nonBlank v) as [t|].
  - split; [|reflexivity].
    constructor; [|constructor]. now exists name, (literalRegExp t).
  - split; [constructor|reflexivity].
Qed.

Lemma filterConditions_clauses p :
  ∃ fc, filterConditions p = Some fc ∧ Forall isFieldClause fc ∧
    length fc =
      ((if bool_decide (is_Some (nonBlank (p_disease p))) then 1 else 0)
       + (if bool_decide (is_Some (nonBlank (p_autoantibody p))) then 1 else 0)
       + (if bool_decide (is_Some (nonBlank (p_autoantigen p))) then 1 else 0)
       + (if bool_decide (is_Some (nonBlank (p_epitope p))) then 1 else 0))%nat.
Proof.
  unfold filterConditions.
  destruct (filterCondition "disease" (p_disease p)) as [c1|] eqn:H1;
    [|rewrite filterCondition_eq in H1; discriminate].
  destruct (filterCondition "autoantibody" (p_autoantibody p)) as [c2|] eqn:H2;
    [|rewrite filterCondition_eq in H2; discriminate].
  destruct (filterCondition "autoantigen" (p_autoantigen p)) as [c3|] eqn:H3;
    [|rewrite filterCondition_eq in H3; discriminate].
  destruct (filterCondition "epitope" (p_epitope p)) as [c4|] eqn:H4;
    [|rewrite filterCondition_eq in H4; discriminate].
  apply filterCondition_clauses in H1 as [F1 L1], H2 as [F2 L2],
    H3 as [F3 L3], H4 as [F4 L4].
  exists (c1 ++ c2 ++ c3 ++ c4). split; [reflexivity|]. split.
  - repeat (apply Forall_app; split); assumption.
  - rewrite !length_app, L1, L2, L3, L4. lia.
Qed.

Lemma searchConditions_length p sc :
  searchConditions p = Some sc →
  length sc =
    if bool_decide (is_Some (nonBlank (p_search p)))
       && (bool_decide (p_field p = Some "all")
           || includesField searchFields (p_field p))
    then 1%nat else 0%nat.
Proof.
  rewrite searchConditions_eq. intros [= <-].
  destruct (nonBlank (p_search p)) as [t|]; [|reflexivity].
  rewrite (bool_decide_eq_true_2 (is_Some (Some t))) by (eexists; reflexivity). rewrite andb_true_l.
  destruct (bool_decide (p_field p = Some "all")); [reflexivity|].
  rewrite orb_false_l.
  now destruct (includesField searchFields (p_field p)).
Qed.

Lemma buildCombinedQuery_semantics conds q e :
  match conds with
  | [] => Some (QFields ∅)
  | [c] => Some c
  | _ => Some (QAnd conds)
  end = Some q →
  matchesQuery q e = forallb (λ c, matchesQuery c e) conds.
Proof.
  destruct conds as [|c [|c' rest]]; intros [= <-].
  - apply matchesQuery_empty.
  - simpl. now rewrite andb_true_r.
  - reflexivity.
Qed.

(** C1. [buildCombinedQuery] combines the clauses by their number: none
    gives the match-all object, exactly one gives that clause itself, two
    or more give the [$and] of all of them; with [field = all] the
    free-text [$or] is the first operand, followed by the single-field
    clauses of the structured filters.  The built query holds of a record
    exactly when every clause does. *)
Theorem buildCombinedQuery_by_count (p : SearchParams) :
  ∃ conds,
    allConditions p = Some conds ∧
    length conds = clauseCount p ∧
    (conds = [] →
     buildCombinedQuery p = Some (QFields ∅) ∧
     ∀ e, matchesQuery (QFields ∅) e = true) ∧
    (∀ c, conds = [c] → buildCombinedQuery p = Some c) ∧
    ((2 ≤ length conds)%nat → buildCombinedQuery p = Some (QAnd conds)) ∧
    (∀ t, nonBlank (p_search p) = Some t → p_field p = Some "all" →
       ∃ fc, conds = anyFieldQuery (literalRegExp t) :: fc ∧
             Forall isFieldClause fc) ∧
    (∀ q e, buildCombinedQuery p = Some q →
       matchesQuery q e = forallb (λ c, matchesQuery c e) conds).
Proof.
  destruct (filterConditions_clauses p) as (fc & Hfc & Ffc & Lfc).
  destruct (searchConditions p) as [sc|] eqn:Hsc;
    [|rewrite searchConditions_eq in Hsc; discriminate].
  pose proof (searchConditions_length p sc Hsc) as Lsc.
  exists (sc ++ fc).
  assert (Hall : allConditions p = Some (sc ++ fc)).
  { unfold allConditions. now rewrite Hsc, Hfc. }
  split; [exact Hall|]. split.
  { unfold clauseCount. rewrite length_app, Lsc, Lfc. lia. }
  unfold buildCombinedQuery. rewrite Hall. simpl.
  split; [intros ->; split; [reflexivity|apply matchesQuery_empty]|].
  split; [now intros c ->|].
  split.
  { intros Hlen. destruct (sc ++ fc) as [|c [|c' rest]]; simpl in Hlen;
      [lia|lia|reflexivity]. }
  split.
  { intros t Ht Hf. exists fc. split; [|exact Ffc].
    rewrite searchConditions_eq, Ht, bool_decide_eq_true_2 in Hsc by exact Hf.
    injection Hsc as <-. reflexivity. }
  intros q e. apply buildCombinedQuery_semantics.
Qed.

Lemma buildCombinedQuery_by_count_witness :
  buildCombinedQuery
    (mkSearchParams (Some "lupus") (Some "all") (Some " SLE ") None None None)
  = Some (QAnd [anyFieldQuery (literalRegExp "lupus");
                QFields {[ "disease" := literalRegExp "SLE" ]}]).
Proof.
  destruct (buildCombinedQuery_by_count
    (mkSearchParams (Some "lupus") (Some "all") (Some " SLE ") None None None))
    as (conds & Hall & _ & _ & _ & Hand & _).
  vm_compute in Hall. injection Hall as <-.
  apply Hand. simpl. lia.
Defined.

(** ** Sorting *)

Section SortBy.
Context {A : Type} (le : A → A → bool).

Lemma insertSorted_Permutation x l : insertSorted le x l ≡ₚ x :: l.
Proof.
  induction l as [|y l IH]; simpl; [reflexivity|].
  destruct (le x y); [reflexivity|].
  rewrite IH. apply Permutation_swap.
Qed.

Lemma sortBy_Permutation l : sortBy le l ≡ₚ l.
Proof.
  induction l as [|x l IH]; simpl; [reflexivity|].
  unfold sortBy in *. simpl. rewrite insertSorted_Permutation. now rewrite IH.
Qed.

Lemma sortBy_length l : length (sortBy le l) = length l.
Proof. apply Permutation_length, sortBy_Permutation. Qed.

Hypothesis le_total : ∀ a b, le a b = true ∨ le b a = true.
Hypothesis le_trans : ∀ a b c, le a b = true → le b c = true → le a c = true.

Lemma insertSorted_StronglySorted x l :
  StronglySorted (λ a b, le a b = true) l →
  StronglySorted (λ a b, le a b = true) (insertSorted le x l).
Proof.
  induction 1 as [|y l Hs IH Hy]; simpl.
  - constructor; constructor.
  - destruct (le x y) eqn:Hxy.
    + constructor; [constructor; assumption|].
      constructor; [exact Hxy|].
      eapply Forall_impl; [exact Hy|]. intros z Hz. eapply le_trans; eauto.
    + constructor; [exact IH|].
      eapply Permutation_Forall; [symmetry; apply insertSorted_Permutation|].
      constructor; [|exact Hy].
      destruct (le_total x y) as [H|H]; [congruence|exact H].
Qed.

Lemma sortBy_StronglySorted l :
  StronglySorted (λ a b, le a b = true) (sortBy le l).
Proof.
  induction l as [|x l IH]; [constructor|].
  apply insertSorted_StronglySorted, IH.
Qed.

End SortBy.

Lemma StronglySorted_take {A} (R : A → A → Prop) n l :
  StronglySorted R l → StronglySorted R (take n l).
Proof.
  intros H. revert n. induction H as [|x l Hs IH Hx]; intros [|n]; simpl;
    try constructor; [apply IH|].
  apply Forall_take, Hx.
Qed.

Lemma StronglySorted_impl_In {A} (R S : A → A → Prop) l :
  (∀ a b, In a l → In b l → R a b → S a b) →
  StronglySorted R l → StronglySorted S l.
Proof.
  intros HRS H. induction H as [|x l Hs IH Hx]; [constructor|].
  constructor.
  - apply IH. intros a b Ha Hb. apply HRS; now right.
  - rewrite List.Forall_forall in *. intros y Hy.
    apply HRS; [now left|now right|auto].
Qed.

(** *** Comparison functions that are total orders *)

Class OrderCompare {A} (cmp : A → A → comparison) := {
  cmp_antisym : ∀ a b, cmp b a = CompOpp (cmp a b);
  cmp_eq_subst : ∀ a b, cmp a b = Eq → ∀ x, cmp a x = cmp b x;
  cmp_lt_trans : ∀ a b c, cmp a b = Lt → cmp b c = Lt → cmp a c = Lt
}.

Lemma cmp_eq_subst_r {A} (cmp : A → A → comparison) `{!OrderCompare cmp} a b :
  cmp a b = Eq → ∀ x, cmp x a = cmp x b.
Proof.
  intros H x. rewrite (cmp_antisym (cmp:=cmp) a x), (cmp_antisym (cmp:=cmp) b x).
  f_equal. now apply cmp_eq_subst.
Qed.

Lemma notGt_total {A} (cmp : A → A → comparison) `{!OrderCompare cmp} a b :
  cmp a b ≠ Gt ∨ cmp b a ≠ Gt.
Proof.
  rewrite (cmp_antisym (cmp:=cmp) a b).
  destruct (cmp a b); simpl; intuition congruence.
Qed.

Lemma notGt_trans {A} (cmp : A → A → comparison) `{!OrderCompare cmp} a b c :
  cmp a b ≠ Gt → cmp b c ≠ Gt → cmp a c ≠ Gt.
Proof.
  intros Hab Hbc.
  destruct (cmp a b) eqn:Eab; [| |congruence].
  - now rewrite (cmp_eq_subst (cmp:=cmp) a b Eab c).
  - destruct (cmp b c) eqn:Ebc; [| |congruence].
    + rewrite <- (cmp_eq_subst_r cmp b c Ebc a), Eab. discriminate.
    + rewrite (cmp_lt_trans (cmp:=cmp) a b c Eab Ebc). discriminate.
Qed.

#[global] Instance Z_OrderCompare : OrderCompare Z.compare.
Proof.
  split.
  - intros a b. apply Z.compare_antisym.
  - intros a b H%Z.compare_eq x. now subst.
  - intros a b c. rewrite !Z.compare_lt_iff. lia.
Qed.

Lemma string_compare_lt_trans a b c :
  String.compare a b = Lt → String.compare b c = Lt → String.compare a c = Lt.
Proof.
  revert b c. induction a as [|x a IH]; intros [|y b] [|z c]; simpl;
    try discriminate; try reflexivity.
  destruct (Ascii.compare x y) eqn:Hxy; try discriminate.
  - apply Ascii.compare_eq_iff in Hxy as ->.
    destruct (Ascii.compare y z); auto. apply IH.
  - intros _. destruct (Ascii.compare y z) eqn:Hyz; try discriminate.
    + apply Ascii.compare_eq_iff in Hyz as <-. now rewrite Hxy.
    + intros _. unfold Ascii.compare in *.
      rewrite N.compare_lt_iff in Hxy, Hyz.
      assert (H : (N_of_ascii x ?= N_of_ascii z)%N = Lt)
        by (rewrite N.compare_lt_iff; lia).
      now rewrite H.
Qed.

#[global] Instance string_OrderCompare : OrderCompare String.compare.
Proof.
  split.
  - intros a b. apply String.compare_antisym.
  - intros a b H%String.compare_eq_iff x. now subst.
  - apply string_compare_lt_trans.
Qed.

#[global] Instance compareValue_OrderCompare : OrderCompare compareValue.
Proof.
  split.
  - intros [|x|x] [|y|y]; simpl; try reflexivity.
    + apply Z.compare_antisym.
    + apply String.compare_antisym.
  - intros [|x|x] [|y|y]; simpl; try discriminate; try reflexivity.
    + intros H%Z.compare_eq. now subst.
    + intros H%String.compare_eq_iff. now subst.
  - intros [|x|x] [|y|y] [|z|z]; simpl; try discriminate; try reflexivity.
    + apply (cmp_lt_trans (cmp:=Z.compare)).
    + apply string_compare_lt_trans.
Qed.

#[global] Instance compareDocs_OrderCompare spec : OrderCompare (compareDocs spec).
Proof.
  induction spec as [|[key dir] rest IH]; split; simpl.
  - reflexivity.
  - reflexivity.
  - discriminate.
  - intros a b.
    rewrite (cmp_antisym (cmp:=compareValue) (docValue key a) (docValue key b)).
    destruct (compareValue (docValue key a) (docValue key b)); simpl;
      [apply IH|now destruct (dir <? 0)..].
  - intros a b H x.
    destruct (compareValue (docValue key a) (docValue key b)) eqn:E;
      [|destruct (dir <? 0); discriminate..].
    rewrite (cmp_eq_subst (cmp:=compareValue) _ _ E).
    destruct (compareValue (docValue key b) (docValue key x)); [|reflexivity..].
    now apply IH.
  - intros a b c Hab Hbc.
    destruct (compareValue (docValue key a) (docValue key b)) eqn:Eab.
    + rewrite (cmp_eq_subst (cmp:=compareValue) _ _ Eab).
      destruct (compareValue (docValue key b) (docValue key c)); [|exact Hbc..].
      eapply IH; eauto.
    + destruct (compareValue (docValue key b) (docValue key c)) eqn:Ebc.
      * rewrite <- (cmp_eq_subst_r compareValue _ _ Ebc), Eab. exact Hab.
      * now rewrite (cmp_lt_trans (cmp:=compareValue) _ _ _ Eab Ebc).
      * destruct (dir <? 0); simpl in *; congruence.
    + destruct (compareValue (docValue key b) (docValue key c)) eqn:Ebc.
      * rewrite <- (cmp_eq_subst_r compareValue _ _ Ebc), Eab. exact Hab.
      * destruct (dir <? 0); simpl in *; congruence.
      * assert (Eca : compareValue (docValue key c) (docValue key a) = Lt).
        { apply (cmp_lt_trans (cmp:=compareValue) _ (docValue key b)).
          - rewrite (cmp_antisym (cmp:=compareValue)), Ebc. reflexivity.
          - rewrite (cmp_antisym (cmp:=compareValue)), Eab. reflexivity. }
        rewrite (cmp_antisym (cmp:=compareValue)), Eca. exact Hab.
Qed.

Lemma docLe_total spec a b : docLe spec a b = true ∨ docLe spec b a = true.
Proof.
  unfold docLe. destruct (notGt_total (compareDocs spec) a b) as [H|H];
    [left|right]; now destruct (compareDocs spec _ _).
Qed.

Lemma docLe_trans spec a b c :
  docLe spec a b = true → docLe spec b c = true → docLe spec a c = true.
Proof.
  unfold docLe. intros Hab Hbc.
  assert (H : compareDocs spec a c ≠ Gt).
  { apply (notGt_trans (compareDocs spec) a b c).
    - now destruct (compareDocs spec a b).
    - now destruct (compareDocs spec b c). }
  now destruct (compareDocs spec a c).
Qed.

Lemma sortBy_docLe_sorted spec docs :
  StronglySorted (λ a b, docLe spec a b = true) (sortBy (docLe spec) docs).
Proof.
  apply sortBy_StronglySorted; [apply docLe_total|apply docLe_trans].
Qed.

(** ** Ranked search *)

Lemma fieldMatchesb_literal e name t :
  fieldMatchesb e name (literalRegExp t) = fieldContains t (getField name e).
Proof.
  unfold fieldMatchesb, fieldContains.
  destruct (getField name e); [apply regexTest_literal|reflexivity].
Qed.

Lemma matchesQuery_anyField t e :
  matchesQuery (anyFieldQuery (literalRegExp t)) e = isCandidate t e.
Proof.
  unfold anyFieldQuery, isCandidate. cbn [matchesQuery existsb].
  change (bool_decide (map_Forall (λ name re, fieldMatchesb e name re = true)
            ?m)) with (matchesQuery (QFields m) e).
  rewrite !matchesQuery_singleton, !fieldMatchesb_literal, orb_false_r.
  unfold getField. simpl. now rewrite !orb_assoc.
Qed.

Lemma evalSum_weightedScore t e :
  evalSum (relevanceTerms (literalRegExp t)) e = weightedScore t e.
Proof.
  unfold relevanceTerms, evalSum, weightedScore, evalCond, fieldContains. simpl.
  unfold getField. simpl. rewrite !regexTest_literal.
  destruct (disease e), (autoantibody e), (autoantigen e);
    rewrite ?regexTest_literal; lia.
Qed.

Lemma weightedScore_candidate t e :
  isCandidate t e = true → 2 ≤ weightedScore t e.
Proof.
  unfold isCandidate, weightedScore, fieldContains.
  destruct (disease e), (autoantibody e), (autoantigen e), (epitope e),
    (uniprotId e); simpl;
    repeat match goal with
           | |- context [containsIgnoreCase ?a ?b] =>
               destruct (containsIgnoreCase a b)
           end; simpl; intros; try lia; discriminate.
Qed.

Lemma filter_map_mkDoc (P : Entry → bool) coll :
  List.filter (λ d, P (entry d)) (map (λ e, mkDoc e None) coll)
  = map (λ e, mkDoc e None) (List.filter P coll).
Proof.
  induction coll as [|e coll IH]; simpl; [reflexivity|].
  destruct (P e); simpl; now rewrite IH.
Qed.

Lemma filter_ext_bool {A} (f g : A → bool) l :
  (∀ x, f x = g x) → List.filter f l = List.filter g l.
Proof.
  intros H. induction l as [|x l IH]; simpl; [reflexivity|].
  now rewrite H, IH.
Qed.

Lemma aggregate_pipeline t lim coll :
  aggregate coll (pipeline (literalRegExp t) lim) =
  match Js.mathMin (Js.parseInt lim) (Js.Num 100) with
  | Js.Num n =>
      if 1 <=? n
      then Some (take (Z.to_nat n) (sortBy (docLe rankingSort) (scoredCandidates t coll)))
      else None
  | Js.NaN | Js.Infinity _ => None
  end.
Proof.
  unfold aggregate, pipeline. cbn [runPipeline runStage mbind option_bind].
  rewrite (filter_map_mkDoc (matchesQuery (anyFieldQuery (literalRegExp t)))).
  rewrite (filter_ext_bool _ (isCandidate t)) by apply matchesQuery_anyField.
  rewrite map_map. cbn [entry].
  rewrite (map_ext _ (λ e, mkDoc e (Some (weightedScore t e))))
    by (intros e; now rewrite evalSum_weightedScore).
  fold (scoredCandidates t coll).
  destruct (Js.mathMin (Js.parseInt lim) (Js.Num 100)) as [|n|s];
    [reflexivity| |reflexivity].
  now destruct (1 <=? n).
Qed.

Lemma docLe_rankingSort a b sa sb :
  relevanceScore a = Some sa → relevanceScore b = Some sb →
  docLe rankingSort a b = true → rankedBefore a b.
Proof.
  intros Ha Hb H. exists sa, sb. split; [exact Ha|]. split; [exact Hb|].
  unfold docLe, rankingSort in H. cbn [compareDocs] in H.
  unfold docValue in H. simpl in H. rewrite Ha, Hb in H. simpl in H.
  destruct (Z.compare_spec sa sb) as [Heq|Hlt|Hgt]; simpl in H.
  - right. split; [exact Heq|].
    unfold getField in H. simpl in H.
    destruct (disease (entry a)) as [x|], (disease (entry b)) as [y|];
      simpl in *; try reflexivity; try discriminate.
    unfold String.leb. now destruct (String.compare x y).
  - discriminate.
  - left. lia.
Qed.

Lemma scoredCandidates_spec t coll d :
  In d (scoredCandidates t coll) →
  In (entry d) coll ∧ isCandidate t (entry d) = true ∧
  relevanceScore d = Some (weightedScore t (entry d)) ∧
  2 ≤ weightedScore t (entry d).
Proof.
  unfold scoredCandidates. rewrite in_map_iff.
  intros (e & <- & He). apply filter_In in He as [Hin Hc]. simpl.
  repeat split; auto. now apply weightedScore_candidate.
Qed.

Lemma ranked_sorted t coll :
  StronglySorted rankedBefore (sortBy (docLe rankingSort) (scoredCandidates t coll)).
Proof.
  eapply StronglySorted_impl_In; [|apply sortBy_docLe_sorted].
  intros a b Ha Hb.
  assert (Hperm := sortBy_Permutation (docLe rankingSort) (scoredCandidates t coll)).
  apply (Permutation_in _ Hperm), scoredCandidates_spec in Ha as (_ & _ & Sa & _).
  apply (Permutation_in _ Hperm), scoredCandidates_spec in Hb as (_ & _ & Sb & _).
  eapply docLe_rankingSort; eauto.
Qed.

Lemma termShorterThan_false n t :
  0 < n → n ≤ Js.length (Js.trim t) → termShorterThan n (Some t) = false.
Proof.
  intros Hn H. unfold termShorterThan.
  destruct t as [|c t].
  - change (Js.length (Js.trim "")) with 0 in H. lia.
  - cbn [Js.truthy negb orb]. apply Z.ltb_ge. exact H.
Qed.

Lemma termShorterThan_true n t :
  0 < n → Js.length (Js.trim t) < n → termShorterThan n (Some t) = true.
Proof.
  intros Hn H. unfold termShorterThan.
  apply orb_true_iff. right. now apply Z.ltb_lt.
Qed.

Lemma advancedSearch_rejected coll req :
  termShorterThan 2 (as_q req) = true →
  advancedSearch coll req =
  ([], Failure 400 "Search term must be at least 2 characters long").
Proof. intros H. unfold advancedSearch. now rewrite H. Qed.

Lemma advancedSearch_accepted coll req term :
  as_q req = Some term → termShorterThan 2 (Some term) = false →
  let re := literalRegExp (Js.trim term) in
  let lim := default "50" (as_limit req) in
  match aggregate coll (pipeline re lim) with
  | Some results =>
      ∃ calls stats,
        advancedSearch coll req =
        (CallAggregate (pipeline re lim) :: calls,
         Success (mkAdvancedSearchResult results (Z.of_nat (length results))
                    (Js.trim term) stats))
  | None =>
      advancedSearch coll req =
      ([CallAggregate (pipeline re lim)],
       Failure 500 "Error performing advanced search")
  end.
Proof.
  intros Hq Hv re lim. unfold advancedSearch. rewrite Hq, Hv.
  cbn [default from_option id]. rewrite newRegExp_escapeRegExp.
  fold re. fold lim.
  unfold lift, call. cbn [mbind action_bind].
  destruct (aggregate coll (pipeline re lim)) as [results|]; [|reflexivity].
  destruct (bool_decide (as_includeStats req = Some "true"));
    eexists _, _; reflexivity.
Qed.

(** C7. A ranked-search request whose term is missing or shorter than two
    characters after trimming is answered with status 400 and the message
    naming the minimum length; storage is not called and no record is
    returned.  A term of trimmed length at least two never gets this
    answer: the aggregation is run, and the response is a success or the
    status-500 storage error. *)
Theorem advancedSearch_validation (coll : Collection) (req : AdvancedSearchQuery) :
  (as_q req = None ∨ (∃ t, as_q req = Some t ∧ Js.length (Js.trim t) < 2) →
   advancedSearch coll req =
   ([], Failure 400 "Search term must be at least 2 characters long")) ∧
  (∀ t, as_q req = Some t → 2 ≤ Js.length (Js.trim t) →
   ∃ calls r,
     advancedSearch coll req =
       (CallAggregate (pipeline (literalRegExp (Js.trim t))
                         (default "50" (as_limit req))) :: calls, r) ∧
     r ≠ Failure 400 "Search term must be at least 2 characters long" ∧
     ((∃ result, r = Success result) ∨
      r = Failure 500 "Error performing advanced search")).
Proof.
  split.
  - intros H. apply advancedSearch_rejected.
    destruct H as [->|(t & -> & Ht)]; [reflexivity|].
    now apply termShorterThan_true.
  - intros t Hq Ht.
    pose proof (advancedSearch_accepted coll req t Hq
                  (termShorterThan_false 2 t ltac:(lia) Ht)) as H.
    cbv zeta in H.
    destruct (aggregate coll _) as [results|].
    + destruct H as (calls & stats & ->). eexists _, _.
      split; [reflexivity|]. split; [discriminate|]. left. eauto.
    + rewrite H. eexists _, _.
      split; [reflexivity|]. split; [discriminate|]. now right.
Qed.

Lemma advancedSearch_validation_witness :
  advancedSearch Sample.collection (mkAdvancedSearchQuery (Some " l ") None None)
  = ([], Failure 400 "Search term must be at least 2 characters long") ∧
  ∃ calls r,
    advancedSearch Sample.collection (mkAdvancedSearchQuery (Some "lupus") None None)
    = (CallAggregate (pipeline (literalRegExp "lupus") "50") :: calls, r) ∧
    r ≠ Failure 400 "Search term must be at least 2 characters long".
Proof.
  split.
  - apply (advancedSearch_validation Sample.collection
             (mkAdvancedSearchQuery (Some " l ") None None)).
    right. exists " l ". split; [reflexivity|]. vm_compute. reflexivity.
  - destruct (advancedSearch_validation Sample.collection
                (mkAdvancedSearchQuery (Some "lupus") None None)) as [_ H].
    destruct (H "lupus" eq_refl) as (calls & r & Hr & Hne & _).
    + vm_compute. discriminate.
    + exists calls, r. split; [exact Hr|exact Hne].
Defined.

(** C2. For a term of trimmed length at least two there is a ranking of
    the whole candidate set (the records matching the term in one of the
    five fields, letter case ignored): a rearrangement of the candidates,
    each paired with its weighted score (10, 8, 6, 4, 2, an absent epitope
    or UniProt id counting as empty), every score at least two, sorted by
    descending score and, for equal scores, ascending disease name.  A
    successful ranked search returns exactly the first records of that
    ranking, as many as the limit capped at 100 allows: their number is
    the smaller of that cap and the number of candidates.  The search
    succeeds, with that result, whenever the limit parses to a positive
    number. *)
Theorem advancedSearch_ranking (coll : Collection) (req : AdvancedSearchQuery)
    (term : string) :
  as_q req = Some term →
  2 ≤ Js.length (Js.trim term) →
  let t := Js.trim term in
  ∃ ranked,
    ranked ≡ₚ scoredCandidates t coll ∧
    StronglySorted rankedBefore ranked ∧
    Forall (λ d, In (entry d) coll ∧ isCandidate t (entry d) = true ∧
                 relevanceScore d = Some (weightedScore t (entry d)) ∧
                 2 ≤ weightedScore t (entry d)) ranked ∧
    (∀ result, snd (advancedSearch coll req) = Success result →
       ∃ m,
         Js.mathMin (Js.parseInt (default "50" (as_limit req))) (Js.Num 100)
         = Js.Num m ∧
         1 ≤ m ≤ 100 ∧
         as_data result = take (Z.to_nat m) ranked ∧
         as_count result = Z.of_nat (length (as_data result)) ∧
         as_count result
         = Z.min m (Z.of_nat (length (List.filter (isCandidate t) coll))) ∧
         as_searchTerm result = t ∧
         StronglySorted rankedBefore (as_data result) ∧
         Forall (λ d, In (entry d) coll ∧ isCandidate t (entry d) = true ∧
                      relevanceScore d = Some (weightedScore t (entry d)) ∧
                      2 ≤ weightedScore t (entry d)) (as_data result)) ∧
    (∀ n, Js.parseInt (default "50" (as_limit req)) = Js.Num n → 1 ≤ n →
       ∃ result,
         snd (advancedSearch coll req) = Success result ∧
         as_data result = take (Z.to_nat (Z.min n 100)) ranked).
Proof.
  intros Hq Ht t.
  set (ranked := sortBy (docLe rankingSort) (scoredCandidates t coll)).
  assert (Hperm : ranked ≡ₚ scoredCandidates t coll) by apply sortBy_Permutation.
  assert (Hall : Forall (λ d, In (entry d) coll ∧ isCandidate t (entry d) = true ∧
                   relevanceScore d = Some (weightedScore t (entry d)) ∧
                   2 ≤ weightedScore t (entry d)) ranked).
  { rewrite List.Forall_forall. intros d Hd. apply scoredCandidates_spec.
    eapply Permutation_in; [exact Hperm|exact Hd]. }
  assert (Hlen : length ranked = length (List.filter (isCandidate t) coll)).
  { rewrite (Permutation_length Hperm). unfold scoredCandidates. apply length_map. }
  exists ranked. split; [exact Hperm|]. split; [apply ranked_sorted|].
  split; [exact Hall|].
  pose proof (advancedSearch_accepted coll req term Hq
                (termShorterThan_false 2 term ltac:(lia) Ht)) as H.
  cbv zeta in H. rewrite aggregate_pipeline in H. fold t in H. fold ranked in H.
  destruct (Js.mathMin (Js.parseInt (default "50" (as_limit req))) (Js.Num 100))
    as [|m|s] eqn:Hm.
  - rewrite H. split; [discriminate|].
    intros n Hn _. rewrite Hn in Hm. discriminate.
  - destruct (1 <=? m) eqn:Hle.
    + apply Z.leb_le in Hle.
      assert (Hm100 : m ≤ 100).
      { destruct (Js.parseInt (default "50" (as_limit req))) as [|z|[|]];
          cbn [Js.mathMin] in Hm; try discriminate; injection Hm as <-; lia. }
      destruct H as (calls & stats & ->). cbn [snd]. split.
      * intros result [= <-].
        cbn [as_data as_count as_searchTerm].
        exists m. split; [reflexivity|]. split; [lia|].
        split; [reflexivity|]. split; [reflexivity|].
        split; [rewrite length_take, Hlen; lia|]. split; [reflexivity|].
        split; [apply StronglySorted_take, ranked_sorted|].
        apply Forall_take, Hall.
      * intros n Hn Hn1. rewrite Hn in Hm. cbn [Js.mathMin] in Hm.
        injection Hm as <-. eexists. split; reflexivity.
    + rewrite H. cbn [snd]. split; [discriminate|].
      intros n Hn Hn1. rewrite Hn in Hm. cbn [Js.mathMin] in Hm. injection Hm as <-.
      apply Z.leb_gt in Hle. lia.
  - rewrite H. split; [discriminate|].
    intros n Hn _. rewrite Hn in Hm. discriminate.
Qed.

Lemma advancedSearch_ranking_witness :
  ∃ result,
    snd (advancedSearch Sample.collection
           (mkAdvancedSearchQuery (Some "lupus") None None)) = Success result ∧
    as_data result = [mkDoc Sample.sle (Some 10); mkDoc Sample.other (Some 8)] ∧
    as_count result = 2 ∧
    StronglySorted rankedBefore (as_data result).
Proof.
  destruct (advancedSearch_ranking Sample.collection
              (mkAdvancedSearchQuery (Some "lupus") None None) "lupus" eq_refl)
    as (ranked & _ & _ & _ & Hall & Hex).
  - vm_compute. discriminate.
  - destruct (Hex 50 eq_refl) as (result & Hr & _); [lia|].
    exists result. split; [exact Hr|].
    destruct (Hall result Hr) as (m & Hm & _ & _ & _ & Hc & _ & Hs & _).
    split; [|split; [|exact Hs]].
    + pose proof Hr as Hdata. vm_compute in Hdata. now injection Hdata as <-.
    + vm_compute in Hm. injection Hm as <-. rewrite Hc. reflexivity.
Defined.

(** The scenario of the specification: for the term [lupus] the record
    matching in its disease name (score 10) comes before the record
    matching in its autoantibody (score 8); the third record is no
    candidate. *)
Example advancedSearch_lupus_scenario :
  snd (advancedSearch Sample.collection
         (mkAdvancedSearchQuery (Some "lupus") None None))
  = Success (mkAdvancedSearchResult
               [mkDoc Sample.sle (Some 10); mkDoc Sample.other (Some 8)]
               2 "lupus" None).
Proof. reflexivity. Qed.

(** The limit of a successful ranked search: the result is never longer
    than the requested limit, nor than 100; an absent limit is 50. *)
Lemma advancedSearch_limit_upper (coll : Collection) (req : AdvancedSearchQuery)
    (term : string) (n : Z) result :
  as_q req = Some term →
  2 ≤ Js.length (Js.trim term) →
  Js.parseInt (default "50" (as_limit req)) = Js.Num n →
  snd (advancedSearch coll req) = Success result →
  1 ≤ n ∧
  (as_limit req = None → n = 50) ∧
  Z.of_nat (length (as_data result)) ≤ Z.min n 100.
Proof.
  intros Hq Ht Hn.
  pose proof (advancedSearch_accepted coll req term Hq
                (termShorterThan_false 2 term ltac:(lia) Ht)) as H.
  cbv zeta in H. rewrite aggregate_pipeline, Hn in H. simpl in H.
  destruct (1 <=? Z.min n 100) eqn:Hle.
  - destruct H as (calls & stats & ->). simpl. intros [= <-]. simpl.
    apply Z.leb_le in Hle. split; [lia|]. split.
    + intros Hnone. rewrite Hnone in Hn. vm_compute in Hn. congruence.
    + rewrite length_take. lia.
  - rewrite H. discriminate.
Qed.

(** A limit that parses to zero, to a negative number or to [NaN] is not
    raised to one: the [$limit] stage is rejected and the handler answers
    with status 500. *)
Lemma advancedSearch_limit_not_positive (coll : Collection)
    (req : AdvancedSearchQuery) (term : string) :
  as_q req = Some term →
  2 ≤ Js.length (Js.trim term) →
  (Js.parseInt (default "50" (as_limit req)) = Js.NaN ∨
   ∃ n, Js.parseInt (default "50" (as_limit req)) = Js.Num n ∧ n ≤ 0) →
  snd (advancedSearch coll req) = Failure 500 "Error performing advanced search".
Proof.
  intros Hq Ht Hn.
  pose proof (advancedSearch_accepted coll req term Hq
                (termShorterThan_false 2 term ltac:(lia) Ht)) as H.
  cbv zeta in H. rewrite aggregate_pipeline in H.
  destruct Hn as [Hn|(n & Hn & Hle)]; rewrite Hn in H; simpl in H.
  - now rewrite H.
  - destruct (1 <=? Z.min n 100) eqn:E; [apply Z.leb_le in E; lia|].
    now rewrite H.
Qed.

(** The listing handler does clamp its page size to the range from 1 to
    100, whatever the parameter. *)
Lemma listingLimit_clamped limit :
  ∃ n, listingLimit limit = Js.Num n ∧ 1 ≤ n ≤ 100.
Proof.
  unfold listingLimit.
  destruct (match limit with Some s => Js.parseInt s | None => Js.NaN end)
    as [|[|p|p]|[|]]; cbn [Js.orElse Js.mathMax Js.mathMin]; eexists;
    (split; [reflexivity|lia]).
Qed.

(** C3 at the failing input: with [limit=0] the limit handed to the
    [$limit] stage is 0, outside the range from 1 to 100, and the request
    ends in the status-500 error instead of a result of length one; the
    same for [limit=-5].  The listing handler turns the same two values
    into page sizes within the range. *)
Theorem advancedSearch_limit_zero :
  Js.mathMin (Js.parseInt "0") (Js.Num 100) = Js.Num 0 ∧
  advancedSearch Sample.collection
    (mkAdvancedSearchQuery (Some "lupus") (Some "0") None)
  = ([CallAggregate (pipeline (literalRegExp "lupus") "0")],
     Failure 500 "Error performing advanced search") ∧
  advancedSearch Sample.collection
    (mkAdvancedSearchQuery (Some "lupus") (Some "-5") None)
  = ([CallAggregate (pipeline (literalRegExp "lupus") "-5")],
     Failure 500 "Error performing advanced search") ∧
  listingLimit (Some "0") = Js.Num 10 ∧
  listingLimit (Some "-5") = Js.Num 1.
Proof. repeat split; reflexivity. Qed.

(** ** Free-text search with an unknown field *)

Lemma filter_matchesQuery_empty (coll : Collection) :
  List.filter (matchesQuery (QFields ∅)) coll = coll.
Proof.
  induction coll as [|e coll IH]; [reflexivity|].
  cbn [List.filter]. rewrite matchesQuery_empty. now rewrite IH.
Qed.

Lemma searchConditions_unknown_field p t :
  nonBlank (p_search p) = Some t →
  p_field p ≠ Some "all" →
  includesField searchFields (p_field p) = false →
  searchConditions p = Some [].
Proof.
  intros Ht Hall Hf. rewrite searchConditions_eq, Ht.
  rewrite bool_decide_eq_false_2 by exact Hall. now rewrite Hf.
Qed.

Lemma searchConditions_no_search p :
  p_search p = None → searchConditions p = Some [].
Proof. intros H. rewrite searchConditions_eq, H. reflexivity. Qed.

Lemma termShorterThan_nonBlank v t :
  nonBlank v = Some t → termShorterThan 1 v = false.
Proof.
  unfold nonBlank, termShorterThan. destruct v as [s|]; [|discriminate].
  destruct (Js.truthy s) eqn:Hs; [|discriminate]. simpl.
  destruct (Js.trim s) eqn:Hts; [discriminate|]. intros _.
  apply Z.ltb_ge. unfold Js.length. simpl. lia.
Qed.

(** C8, as the code has it.  A request with a non-blank search term and a
    field outside all, disease, autoantibody, autoantigen, epitope and
    uniprotId raises no validation error: [buildCombinedQuery] leaves the
    free-text clause out and builds the query of the structured filters
    alone, and [searchEntries] runs the match-all query, answering with
    the sorted collection cut to the limit, or with the status-500 storage
    error when the limit is not a number. *)
Theorem unknown_field_drops_search (p : SearchParams) (t : string) :
  nonBlank (p_search p) = Some t →
  p_field p ≠ Some "all" →
  includesField searchFields (p_field p) = false →
  buildCombinedQuery p =
    buildCombinedQuery (mkSearchParams None (p_field p) (p_disease p)
                          (p_autoantibody p) (p_autoantigen p) (p_epitope p)) ∧
  (∀ coll f lim,
     p = mkSearchParams (p_search p) (Some f) None None None None →
     let req := mkSearchEntriesQuery (p_search p) (Some f) lim in
     let maxLimit := Js.mathMin (Js.parseInt (default "20" lim)) (Js.Num 100) in
     let spec := [("disease", 1); ("autoantibody", 1)] in
     let all := map entry (sortBy (docLe spec) (map (λ e, mkDoc e None) coll)) in
     fst (searchEntries coll req) = [CallFind (QFields ∅) spec maxLimit] ∧
     snd (searchEntries coll req) =
       match cursorLimit maxLimit all with
       | Some entries =>
           Success (mkSearchEntriesResult entries (Z.of_nat (length entries)) t)
       | None => Failure 500 "Error searching entries"
       end).
Proof.
  intros Ht Hall Hf.
  assert (Hsc := searchConditions_unknown_field p t Ht Hall Hf).
  split.
  - unfold buildCombinedQuery, allConditions. rewrite Hsc.
    rewrite searchConditions_no_search by reflexivity. reflexivity.
  - intros coll f lim Hp req maxLimit spec all.
    assert (Hb : buildCombinedQuery p = Some (QFields ∅)).
    { unfold buildCombinedQuery, allConditions. rewrite Hsc, Hp. reflexivity. }
    unfold searchEntries. subst req. cbn [se_q se_field se_limit default from_option id].
    rewrite (termShorterThan_nonBlank _ _ Ht).
    rewrite <- Hp, Hb. unfold lift, call. cbn [mbind action_bind].
    fold maxLimit. fold spec. unfold find.
    rewrite filter_matchesQuery_empty. fold all.
    assert (Htrim : Js.trim (default "" (p_search p)) = t).
    { unfold nonBlank in Ht. destruct (p_search p) as [s|]; [|discriminate].
      simpl. destruct (Js.truthy s && Js.truthy (Js.trim s)); congruence. }
    destruct (cursorLimit maxLimit all) as [entries|]; simpl.
    + split; [reflexivity|]. now rewrite Htrim.
    + split; reflexivity.
Qed.

Lemma unknown_field_drops_search_witness :
  buildCombinedQuery
    (mkSearchParams (Some "lupus") (Some "foo") (Some "SLE") None None None)
  = buildCombinedQuery
      (mkSearchParams None (Some "foo") (Some "SLE") None None None).
Proof.
  apply (unknown_field_drops_search
           (mkSearchParams (Some "lupus") (Some "foo") (Some "SLE") None None None)
           "lupus").
  - reflexivity.
  - discriminate.
  - reflexivity.
Defined.

(** C8 as stated fails: the request [q=lupus&field=foo] gets no validation
    error; the free-text clause is dropped, the match-all query is run and
    all three records come back, also the one without the term. *)
Lemma searchEntries_unknown_field_counterexample :
  let req := mkSearchEntriesQuery (Some "lupus") (Some "foo") None in
  nonBlank (se_q req) = Some "lupus" ∧
  includesField ("all" :: searchFields) (se_field req) = false ∧
  fst (searchEntries Sample.collection req)
    = [CallFind (QFields ∅) [("disease", 1); ("autoantibody", 1)] (Js.Num 20)] ∧
  snd (searchEntries Sample.collection req)
    = Success (mkSearchEntriesResult
                 [Sample.celiac; Sample.other; Sample.sle] 3 "lupus") ∧
  isCandidate "lupus" Sample.celiac = false ∧
  ¬ (∃ status message,
       snd (searchEntries Sample.collection req) = Failure status message).
Proof.
  repeat split; try reflexivity.
  intros (status & message & H). vm_compute in H. discriminate.
Qed.

(** ** Facets *)

Lemma trimEnd_idempotent s : Js.trimEnd (Js.trimEnd s) = Js.trimEnd s.
Proof.
  induction s as [|c s IH]; [reflexivity|].
  cbn [Js.trimEnd]. destruct (Js.trimEnd s) as [|d r] eqn:Hr.
  - destruct (Js.isWhiteSpace c) eqn:Hc; [reflexivity|].
    cbn [Js.trimEnd]. now rewrite Hc.
  - cbn [Js.trimEnd]. cbn [Js.trimEnd] in IH. now rewrite IH.
Qed.

Lemma trimStart_head s :
  match Js.trimStart s with
  | EmptyString => True
  | String c _ => Js.isWhiteSpace c = false
  end.
Proof.
  induction s as [|c s IH]; [exact I|].
  cbn [Js.trimStart]. destruct (Js.isWhiteSpace c) eqn:Hc; [exact IH|exact Hc].
Qed.

Lemma trimEnd_head c s :
  Js.isWhiteSpace c = false →
  ∃ r, Js.trimEnd (String c s) = String c r.
Proof.
  intros Hc. cbn [Js.trimEnd]. destruct (Js.trimEnd s) as [|d r].
  - rewrite Hc. now exists "".
  - now exists (String d r).
Qed.

Lemma trim_idempotent s : Js.trim (Js.trim s) = Js.trim s.
Proof.
  unfold Js.trim. pose proof (trimStart_head s) as H.
  destruct (Js.trimStart s) as [|c t]; [reflexivity|].
  destruct (trimEnd_head c t H) as (r & Hr).
  rewrite Hr at 1. cbn [Js.trimStart]. rewrite H, <- Hr.
  apply trimEnd_idempotent.
Qed.

Lemma dedup_In x l : In x (dedup l) ↔ In x l.
Proof.
  induction l as [|y l IH]; [reflexivity|].
  cbn [dedup]. simpl. rewrite filter_In, IH. split.
  - intros [H|[H _]]; auto.
  - intros [H|H]; [now left|].
    destruct (String.eqb_spec y x) as [->|Hne]; [now left|].
    right. split; [exact H|reflexivity].
Qed.

Lemma dedup_NoDup l : List.NoDup (dedup l).
Proof.
  induction l as [|x l IH]; cbn [dedup]; constructor.
  - rewrite filter_In. intros [_ H]. now rewrite String.eqb_refl in H.
  - now apply List.NoDup_filter.
Qed.

Lemma NoDup_map_fixed (f : string → string) l :
  (∀ x, In x l → f x = x) → List.NoDup l → List.NoDup (map f l).
Proof.
  intros Hf Hl. rewrite (map_ext_in f (λ x, x)) by exact Hf.
  now rewrite map_id.
Qed.

Section FacetLemmas.
Variable localeCompare : string → string → Z.

Lemma filteredValues_Permutation values :
  filteredValues localeCompare values ≡ₚ
  map Js.trim
    (List.filter (λ v, Js.truthy v && negb (String.eqb (Js.trim v) "")) values).
Proof. apply sortBy_Permutation. Qed.

Lemma filteredValues_clean values :
  Forall (λ v, v ≠ "" ∧ Js.trim v = v) (filteredValues localeCompare values).
Proof.
  eapply Permutation_Forall; [symmetry; apply filteredValues_Permutation|].
  rewrite List.Forall_forall. intros v Hv.
  apply in_map_iff in Hv as (raw & <- & Hraw).
  apply filter_In in Hraw as [_ Hnb].
  apply andb_true_iff in Hnb as [_ Hnb]. apply negb_true_iff in Hnb.
  split; [|apply trim_idempotent].
  intros Heq. rewrite Heq in Hnb. discriminate.
Qed.

Lemma filteredValues_NoDup values :
  List.NoDup values → (∀ v, In v values → Js.trim v = v) →
  List.NoDup (filteredValues localeCompare values).
Proof.
  intros Hnd Htrim.
  eapply Permutation_NoDup; [symmetry; apply filteredValues_Permutation|].
  apply NoDup_map_fixed.
  - intros v Hv. apply filter_In in Hv as [Hv _]. auto.
  - now apply List.NoDup_filter.
Qed.

Lemma distinct_values coll field q v :
  In v (distinct coll field q) →
  ∃ e, In e coll ∧ matchesQuery q e = true ∧ getField field e = Some v.
Proof.
  unfold distinct. rewrite dedup_In, <- list_elem_of_In, list_elem_of_omap.
  intros (e & He & Hv). apply list_elem_of_In, filter_In in He as [Hin Hm].
  now exists e.
Qed.

Lemma distinct_filteredValues_NoDup coll field q :
  storedTrimmed coll field →
  List.NoDup (filteredValues localeCompare (distinct coll field q)).
Proof.
  intros Hst. apply filteredValues_NoDup; [apply dedup_NoDup|].
  intros v Hv. apply distinct_values in Hv as (e & He & _ & Hf).
  eapply Hst; eauto.
Qed.

Hypothesis localeCompare_total :
  ∀ a b, localeCompare a b ≤ 0 ∨ localeCompare b a ≤ 0.
Hypothesis localeCompare_trans :
  ∀ a b c, localeCompare a b ≤ 0 → localeCompare b c ≤ 0 → localeCompare a c ≤ 0.

Lemma filteredValues_sorted values :
  StronglySorted (λ a b, localeCompare a b ≤ 0) (filteredValues localeCompare values).
Proof.
  eapply StronglySorted_impl_In;
    [|apply (sortBy_StronglySorted (λ a b, localeCompare a b <=? 0))].
  - intros a b _ _ H. now apply Z.leb_le.
  - intros a b. rewrite !Z.leb_le. apply localeCompare_total.
  - intros a b c. rewrite !Z.leb_le. apply localeCompare_trans.
Qed.

End FacetLemmas.

Lemma setFilter_eq name v fq :
  setFilter name v fq =
  Some (if Js.truthyOpt v
        then <[ name := literalRegExp (Js.trim (default "" v)) ]> fq
        else fq).
Proof.
  unfold setFilter. destruct (Js.truthyOpt v); [|reflexivity].
  now rewrite newRegExp_escapeRegExp.
Qed.

Lemma facetFilter_total field d ab ag :
  ∃ fq, facetFilter field d ab ag = Some fq.
Proof.
  unfold facetFilter.
  repeat match goal with
         | |- context [if ?b then _ else _] => destruct b
         end;
    rewrite ?setFilter_eq; cbn [mbind option_bind]; rewrite ?setFilter_eq;
    cbn [mbind option_bind]; rewrite ?setFilter_eq; eauto.
Qed.

Lemma facetFilter_epitope d ab ag :
  facetFilter "epitope" d ab ag =
  Some (let f1 := if Js.truthyOpt ag
                  then <[ "autoantigen" := literalRegExp (Js.trim (default "" ag)) ]> ∅
                  else ∅ in
        let f2 := if Js.truthyOpt d
                  then <[ "disease" := literalRegExp (Js.trim (default "" d)) ]> f1
                  else f1 in
        if Js.truthyOpt ab
        then <[ "autoantibody" := literalRegExp (Js.trim (default "" ab)) ]> f2
        else f2).
Proof.
  unfold facetFilter. cbn [String.eqb Ascii.eqb Bool.eqb andb].
  rewrite setFilter_eq. cbn [mbind option_bind].
  rewrite setFilter_eq. cbn [mbind option_bind].
  now rewrite setFilter_eq.
Qed.

Section FacetHandlers.
Variable localeCompare : string → string → Z.

Lemma getUniqueValues_success coll field result :
  snd (getUniqueValues localeCompare coll field) = Success result →
  ∃ f, field = Some f ∧
    v_data result = filteredValues localeCompare (distinct coll f (QFields ∅)) ∧
    v_count result = Z.of_nat (length (v_data result)).
Proof.
  unfold getUniqueValues.
  destruct (negb (Js.truthyOpt field) || negb (includesField searchFields field))
    eqn:Hv; [discriminate|].
  destruct field as [f|]; [|discriminate]. cbn. intros [= <-]. now exists f.
Qed.

Lemma getFilteredUniqueValues_success coll field req result :
  snd (getFilteredUniqueValues localeCompare coll field req) = Success result →
  ∃ f, field = Some f ∧
    (v_data result = [] ∨
     ∃ fq, v_data result = filteredValues localeCompare (distinct coll f (QFields fq))) ∧
    v_count result = Z.of_nat (length (v_data result)).
Proof.
  unfold getFilteredUniqueValues.
  destruct (negb (Js.truthyOpt field) || negb (includesField facetFields field))
    eqn:Hv; [discriminate|].
  destruct field as [f|]; [|discriminate]. cbn [default from_option id].
  destruct (facetFilter_total f (f_disease req) (f_autoantibody req)
              (f_autoantigen req)) as (fq & ->).
  unfold lift, call. cbn [mbind action_bind].
  match goal with |- context [if ?b then _ else _] => destruct b end;
    cbn; intros [= <-]; exists f; (split; [reflexivity|]).
  - split; [now left|reflexivity].
  - split; [right; now exists fq|reflexivity].
Qed.

(** An epitope request in which none of the three constraints is truthy
    (each is absent or the empty string) is answered with the empty list
    and without a storage call. *)
Lemma epitope_facet_unconstrained coll req :
  Js.truthyOpt (f_disease req) = false →
  Js.truthyOpt (f_autoantibody req) = false →
  Js.truthyOpt (f_autoantigen req) = false →
  getFilteredUniqueValues localeCompare coll (Some "epitope") req
  = ([], Success (mkValuesResult [] 0 None)).
Proof.
  intros Hd Hab Hag. unfold getFilteredUniqueValues.
  cbn [Js.truthyOpt Js.truthy negb orb includesField facetFields existsb
       default from_option id].
  change (String.eqb "epitope" "disease") with false.
  change (String.eqb "epitope" "autoantibody") with false.
  change (String.eqb "epitope" "autoantigen") with false.
  change (String.eqb "epitope" "epitope") with true.
  cbn [negb orb andb]. rewrite facetFilter_epitope, Hd, Hab, Hag.
  reflexivity.
Qed.

(** An epitope request with at least one truthy constraint asks storage
    for the distinct epitopes of the records matching every given
    constraint: each returned value is the trimmed epitope of a record
    whose constrained fields contain the trimmed constraint values, up to
    letter case. *)
Lemma epitope_facet_constrained coll req :
  Js.truthyOpt (f_disease req) || Js.truthyOpt (f_autoantibody req)
    || Js.truthyOpt (f_autoantigen req) = true →
  ∃ fq result,
    getFilteredUniqueValues localeCompare coll (Some "epitope") req
    = ([CallDistinct "epitope" (QFields fq)], Success result) ∧
    v_data result = filteredValues localeCompare (distinct coll "epitope" (QFields fq)) ∧
    ∀ v, In v (v_data result) →
      ∃ e raw, In e coll ∧ epitope e = Some raw ∧ v = Js.trim raw ∧
        (∀ c, Js.truthyOpt (f_disease req) = true → f_disease req = Some c →
              fieldContains (Js.trim c) (disease e) = true) ∧
        (∀ c, Js.truthyOpt (f_autoantibody req) = true → f_autoantibody req = Some c →
              fieldContains (Js.trim c) (autoantibody e) = true) ∧
        (∀ c, Js.truthyOpt (f_autoantigen req) = true → f_autoantigen req = Some c →
              fieldContains (Js.trim c) (autoantigen e) = true).
Proof.
  intros Hany.
  pose proof (facetFilter_epitope (f_disease req) (f_autoantibody req)
                (f_autoantigen req)) as Hfq.
  cbv zeta in Hfq.
  match type of Hfq with _ = Some ?m => set (fq := m) in * end.
  exists fq, (mkValuesResult
                (filteredValues localeCompare (distinct coll "epitope" (QFields fq)))
                (Z.of_nat (length (filteredValues localeCompare
                                     (distinct coll "epitope" (QFields fq)))))
                (Some (mkFacetQuery (f_disease req) (f_autoantibody req)
                         (f_autoantigen req)))).
  split; [|split; [reflexivity|]].
  - unfold getFilteredUniqueValues.
    cbn [Js.truthyOpt Js.truthy negb orb includesField facetFields existsb
         default from_option id].
    change (String.eqb "epitope" "disease") with false.
    change (String.eqb "epitope" "autoantibody") with false.
    change (String.eqb "epitope" "autoantigen") with false.
    change (String.eqb "epitope" "epitope") with true.
    cbn [negb orb andb]. rewrite Hfq.
    unfold lift, call. cbn [mbind action_bind].
    destruct (Js.truthyOpt (f_disease req)), (Js.truthyOpt (f_autoantibody req)),
      (Js.truthyOpt (f_autoantigen req)); try discriminate; reflexivity.
  - cbn [v_data]. intros v Hv.
    eapply Permutation_in in Hv; [|apply filteredValues_Permutation].
    apply in_map_iff in Hv as (raw & <- & Hraw).
    apply filter_In in Hraw as [Hraw _].
    apply distinct_values in Hraw as (e & He & Hm & Hf).
    exists e, raw. split; [exact He|]. split; [exact Hf|]. split; [reflexivity|].
    cbn [matchesQuery] in Hm. apply bool_decide_eq_true_1 in Hm.
    rewrite map_Forall_lookup in Hm.
    assert (Hkey : ∀ name c, fq !! name = Some (literalRegExp (Js.trim c)) →
                   fieldContains (Js.trim c) (getField name e) = true).
    { intros name c Hl. apply Hm in Hl. now rewrite fieldMatchesb_literal in Hl. }
    repeat split; intros c Ht Hc.
    + apply (Hkey "disease"). subst fq. rewrite Ht, Hc. cbn [default from_option id].
      destruct (Js.truthyOpt (f_autoantibody req));
        [rewrite lookup_insert_ne by discriminate|]; apply lookup_insert_eq.
    + apply (Hkey "autoantibody"). subst fq. rewrite Ht, Hc.
      cbn [default from_option id]. apply lookup_insert_eq.
    + apply (Hkey "autoantigen"). subst fq. rewrite Ht, Hc.
      cbn [default from_option id].
      destruct (Js.truthyOpt (f_autoantibody req));
        [rewrite lookup_insert_ne by discriminate|];
        (destruct (Js.truthyOpt (f_disease req));
         [rewrite lookup_insert_ne by discriminate|]); apply lookup_insert_eq.
Qed.

End FacetHandlers.

Lemma sample_localeCompare_le a b :
  Sample.localeCompare a b ≤ 0 ↔
  String.compare (Js.toUpperCase a) (Js.toUpperCase b) ≠ Gt.
Proof.
  unfold Sample.localeCompare.
  destruct (String.compare (Js.toUpperCase a) (Js.toUpperCase b));
    split; intros H; try lia; try discriminate; congruence.
Qed.

Lemma sample_localeCompare_total a b :
  Sample.localeCompare a b ≤ 0 ∨ Sample.localeCompare b a ≤ 0.
Proof.
  rewrite !sample_localeCompare_le.
  apply (notGt_total String.compare).
Qed.

Lemma sample_localeCompare_trans a b c :
  Sample.localeCompare a b ≤ 0 → Sample.localeCompare b c ≤ 0 →
  Sample.localeCompare a c ≤ 0.
Proof.
  rewrite !sample_localeCompare_le.
  apply (notGt_trans String.compare).
Qed.

(** What the post-processing does give.  For a collation that is total
    and transitive, the value list of a successful facet enumeration,
    constrained or not, holds no empty value, every value is trimmed, the
    list is sorted by the collation, and its length is the reported count.
    Duplicates are removed by the storage [distinct] before trimming: the
    list is free of duplicates whenever the stored values of the field
    carry no surrounding white space.  The unconstrained enumeration
    returns the trimmed form of every stored value that is not blank. *)
Lemma facet_values_postprocessed (localeCompare : string → string → Z)
    (coll : Collection) (field : option string) (req : FacetQuery)
    (result : ValuesResult) :
  (∀ a b, localeCompare a b ≤ 0 ∨ localeCompare b a ≤ 0) →
  (∀ a b c, localeCompare a b ≤ 0 → localeCompare b c ≤ 0 → localeCompare a c ≤ 0) →
  snd (getUniqueValues localeCompare coll field) = Success result ∨
  snd (getFilteredUniqueValues localeCompare coll field req) = Success result →
  Forall (λ v, v ≠ "" ∧ Js.trim v = v) (v_data result) ∧
  StronglySorted (λ a b, localeCompare a b ≤ 0) (v_data result) ∧
  v_count result = Z.of_nat (length (v_data result)) ∧
  (∀ f, field = Some f → storedTrimmed coll f → List.NoDup (v_data result)) ∧
  (snd (getUniqueValues localeCompare coll field) = Success result →
   ∀ f e v, field = Some f → In e coll → getField f e = Some v →
            Js.trim v ≠ "" → In (Js.trim v) (v_data result)).
Proof.
  intros Htotal Htrans Hres.
  assert (H : ∃ f, field = Some f ∧
            (v_data result = [] ∨
             ∃ fq, v_data result
                   = filteredValues localeCompare (distinct coll f (QFields fq))) ∧
            v_count result = Z.of_nat (length (v_data result))).
  { destruct Hres as [Hres|Hres].
    - apply getUniqueValues_success in Hres as (f & Hf & Hd & Hc).
      exists f. split; [exact Hf|]. split; [right; now exists ∅|exact Hc].
    - now apply getFilteredUniqueValues_success in Hres. }
  assert (Hall : snd (getUniqueValues localeCompare coll field) = Success result →
            ∀ f e v, field = Some f → In e coll → getField f e = Some v →
                     Js.trim v ≠ "" → In (Js.trim v) (v_data result)).
  { intros Hu f e v Hf He Hv Hnb.
    apply getUniqueValues_success in Hu as (f' & Hf' & Hd & _).
    rewrite Hf in Hf'. injection Hf' as <-. rewrite Hd.
    eapply Permutation_in; [symmetry; apply filteredValues_Permutation|].
    apply in_map, filter_In. split.
    - unfold distinct. rewrite dedup_In, <- list_elem_of_In, list_elem_of_omap.
      exists e. split; [|exact Hv]. apply list_elem_of_In, filter_In.
      split; [exact He|apply matchesQuery_empty].
    - apply andb_true_iff. split.
      + destruct v; [now contradiction Hnb|reflexivity].
      + apply negb_true_iff. now apply String.eqb_neq. }
  destruct H as (f & Hf & [Hd|(fq & Hd)] & Hc).
  - rewrite Hd in *. repeat split; try constructor; [exact Hc|exact Hall].
  - split; [rewrite Hd; apply filteredValues_clean|].
    split; [rewrite Hd; now apply filteredValues_sorted|].
    split; [exact Hc|]. split; [|exact Hall].
    intros f' Hf' Hst. rewrite Hf in Hf'. injection Hf' as <-. rewrite Hd.
    now apply distinct_filteredValues_NoDup.
Qed.

(** C6 at the failing input: two stored disease names that differ by a
    trailing space only are two values for the storage [distinct], which
    runs before the trimming, and one value after it.  Both facet handlers
    answer with the name twice: the returned list has a duplicate where
    the claim has none. *)
Theorem facet_values_duplicates :
  map disease Sample.untrimmed = [Some "SLE"; Some "SLE "] ∧
  distinct Sample.untrimmed "disease" (QFields ∅) = ["SLE"; "SLE "] ∧
  snd (getUniqueValues Sample.localeCompare Sample.untrimmed (Some "disease"))
    = Success (mkValuesResult ["SLE"; "SLE"] 2 None) ∧
  snd (getFilteredUniqueValues Sample.localeCompare Sample.untrimmed
         (Some "disease") (mkFacetQuery None None None))
    = Success (mkValuesResult ["SLE"; "SLE"] 2
                 (Some (mkFacetQuery None None None))) ∧
  ¬ List.NoDup ["SLE"; "SLE"].
Proof.
  repeat split; try reflexivity.
  intros H. inversion H as [|x l Hin _]. apply Hin. now left.
Qed.

(** C4 at the failing input: an epitope request whose only constraint is
    the white-space text of one blank is not treated as unconstrained.
    The blank is truthy, its trimmed text is empty, the empty pattern
    matches every autoantigen, and the handler returns every epitope of
    the collection instead of the empty list. *)
Theorem epitope_facet_blank_constraint :
  let req := mkFacetQuery None None (Some " ") in
  nonBlank (f_autoantigen req) = None ∧
  getFilteredUniqueValues Sample.localeCompare Sample.collection (Some "epitope") req
  = ([CallDistinct "epitope" (QFields {[ "autoantigen" := literalRegExp "" ]})],
     Success (mkValuesResult ["ep"; "ep2"] 2 (Some req))) ∧
  (∀ s, regexTest (literalRegExp "") s = true) ∧
  getFilteredUniqueValues Sample.localeCompare Sample.collection (Some "epitope")
    (mkFacetQuery None None (Some ""))
  = ([], Success (mkValuesResult [] 0 None)).
Proof.
  repeat split; try reflexivity.
  intros s. unfold regexTest. simpl. now destruct s.
Qed.

(** ** CSV export *)

Lemma snoc_append cur c v : snoc cur c +:+ v = cur +:+ String c v.
Proof. unfold snoc. now rewrite append_assoc. Qed.

Lemma needsQuoting_cons c v :
  needsQuoting (String c v) = false →
  Ascii.eqb c comma = false ∧ Ascii.eqb c quote = false ∧
  Ascii.eqb c newline = false ∧ needsQuoting v = false.
Proof.
  unfold needsQuoting. cbn [Js.includesChar].
  rewrite !orb_false_iff, !(Ascii.eqb_sym c). tauto.
Qed.

Lemma escapeCSV_plain v : needsQuoting v = false → escapeCSV v = v.
Proof.
  intros H. unfold escapeCSV. destruct v; [reflexivity|].
  cbn [Js.truthy negb]. now rewrite H.
Qed.

Lemma escapeCSV_quoted v :
  needsQuoting v = true →
  escapeCSV v = String quote (doubleQuotes v +:+ String quote "").
Proof.
  intros H. unfold escapeCSV. destruct v; [discriminate|].
  cbn [Js.truthy negb]. now rewrite H.
Qed.

Lemma parseFrom_unquoted v : ∀ st cur row rest,
  needsQuoting v = false →
  st = FieldStart ∨ st = Unquoted →
  parseFrom st cur row (v +:+ rest) =
  parseFrom (match v with EmptyString => st | _ => Unquoted end)
            (cur +:+ v) row rest.
Proof.
  induction v as [|c v IH]; intros st cur row rest Hq Hst.
  - simpl. now rewrite append_empty_r.
  - apply needsQuoting_cons in Hq as (Hc & Hqt & Hn & Hq).
    change (String c v +:+ rest) with (String c (v +:+ rest)).
    assert (Hstep : parseFrom st cur row (String c (v +:+ rest)) =
                    parseFrom Unquoted (snoc cur c) row (v +:+ rest)).
    { destruct Hst as [-> | ->]; cbn [parseFrom]; now rewrite ?Hqt, Hc, Hn. }
    rewrite Hstep, IH by auto. rewrite snoc_append. now destruct v.
Qed.

Lemma parseFrom_quoted v : ∀ cur row rest,
  parseFrom Quoted cur row (doubleQuotes v +:+ rest) =
  parseFrom Quoted (cur +:+ v) row rest.
Proof.
  induction v as [|c v IH]; intros cur row rest.
  - simpl. now rewrite append_empty_r.
  - cbn [doubleQuotes]. destruct (Ascii.eqb c quote) eqn:Hc.
    + apply Ascii.eqb_eq in Hc as ->.
      change (String quote (String quote (doubleQuotes v)) +:+ rest)
        with (String quote (String quote (doubleQuotes v +:+ rest))).
      cbn [parseFrom]. rewrite Ascii.eqb_refl.
      rewrite IH, snoc_append. reflexivity.
    + change (String c (doubleQuotes v) +:+ rest)
        with (String c (doubleQuotes v +:+ rest)).
      cbn [parseFrom]. rewrite Hc, IH, snoc_append. reflexivity.
Qed.

(** Reading the text of one exported field. *)
Lemma parseFrom_field v row rest :
  parseFrom FieldStart "" row (escapeCSV v +:+ rest) =
  parseFrom (endState v) v row rest.
Proof.
  unfold endState. destruct (needsQuoting v) eqn:Hq.
  - rewrite (escapeCSV_quoted v Hq).
    change (String quote (doubleQuotes v +:+ String quote "") +:+ rest)
      with (String quote ((doubleQuotes v +:+ String quote "") +:+ rest)).
    cbn [parseFrom]. rewrite Ascii.eqb_refl, append_assoc, parseFrom_quoted.
    change (String quote "" +:+ rest) with (String quote rest).
    cbn [parseFrom]. now rewrite Ascii.eqb_refl.
  - rewrite (escapeCSV_plain v Hq), (parseFrom_unquoted v) by auto.
    reflexivity.
Qed.

Lemma endState_cases v :
  (endState v = FieldStart ∧ v = "") ∨ endState v = Unquoted ∨ endState v = QuoteSeen.
Proof.
  unfold endState. destruct (needsQuoting v); [auto|]. destruct v; auto.
Qed.

Lemma parseFrom_comma v row s :
  parseFrom (endState v) v row (String comma s) =
  parseFrom FieldStart "" (row ++ [v]) s.
Proof.
  destruct (endState_cases v) as [[-> ->]|[-> | ->]]; reflexivity.
Qed.

Lemma parseFrom_newline v row s :
  parseFrom (endState v) v row (String newline s) =
  (row ++ [v]) :: parseFrom FieldStart "" [] s.
Proof.
  destruct (endState_cases v) as [[-> ->]|[-> | ->]]; reflexivity.
Qed.

Lemma parseFrom_end v row :
  row ≠ [] → parseFrom (endState v) v row "" = [row ++ [v]].
Proof.
  intros Hrow. destruct (endState_cases v) as [[-> ->]|[-> | ->]];
    try reflexivity.
  destruct row; [contradiction|reflexivity].
Qed.

(** Reading one exported line up to the end of its last field. *)
Lemma parseFrom_row vs : ∀ v row rest,
  parseFrom FieldStart "" row (join "," (map escapeCSV (v :: vs)) +:+ rest) =
  parseFrom (endState (List.last (v :: vs) "")) (List.last (v :: vs) "")
            (row ++ removelast (v :: vs)) rest.
Proof.
  induction vs as [|v2 vs IH]; intros v row rest.
  - cbn [map join List.last removelast]. rewrite parseFrom_field, app_nil_r.
    reflexivity.
  - change (join "," (map escapeCSV (v :: v2 :: vs)))
      with (escapeCSV v +:+ "," +:+ join "," (map escapeCSV (v2 :: vs))).
    rewrite !append_assoc, parseFrom_field.
    change ("," +:+ ?s) with (String comma s).
    rewrite parseFrom_comma, IH.
    change (List.last (v :: v2 :: vs) "") with (List.last (v2 :: vs) "").
    change (removelast (v :: v2 :: vs)) with (v :: removelast (v2 :: vs)).
    now rewrite <- app_assoc.
Qed.

Lemma removelast_last_cons (v : string) vs :
  removelast (v :: vs) ++ [List.last (v :: vs) ""] = v :: vs.
Proof. symmetry. now apply app_removelast_last. Qed.

(** Reading back any table whose rows have at least two fields. *)
Lemma parseCSV_join rows :
  Forall (λ r : list string, (2 ≤ length r)%nat) rows →
  parseCSV (join (String newline "")
              (map (λ r, join "," (map escapeCSV r)) rows)) = rows.
Proof.
  unfold parseCSV. induction 1 as [|r rows Hr Hrows IH]; [reflexivity|].
  destruct r as [|v vs]; [simpl in Hr; lia|].
  destruct rows as [|r2 rows].
  - change (parseFrom FieldStart "" [] (join "," (map escapeCSV (v :: vs)))
            = [v :: vs]).
    rewrite <- (append_empty_r (join "," (map escapeCSV (v :: vs)))).
    rewrite parseFrom_row, app_nil_l.
    rewrite parseFrom_end.
    + now rewrite removelast_last_cons.
    + destruct vs; [simpl in Hr; lia|discriminate].
  - change (join (String newline "")
              (map (λ r, join "," (map escapeCSV r)) ((v :: vs) :: r2 :: rows)))
      with (join "," (map escapeCSV (v :: vs)) +:+ String newline "" +:+
            join (String newline "")
              (map (λ r, join "," (map escapeCSV r)) (r2 :: rows))).
    rewrite parseFrom_row.
    change (String newline "" +:+ ?s) with (String newline s).
    rewrite parseFrom_newline, app_nil_l.
    rewrite removelast_last_cons. f_equal. exact IH.
Qed.

(** *** Dates *)

Ltac no_if t :=
  lazymatch t with
  | context [if _ then _ else _] => fail
  | _ => idtac
  end.

(** Case analysis on the comparisons of the goal, innermost first. *)
Ltac split_comparisons :=
  repeat (cbv iota; cbn [andb orb negb];
    match goal with
    | |- context [Z.ltb ?a ?b] => no_if a; no_if b; destruct (Z.ltb_spec a b)
    | |- context [Z.leb ?a ?b] => no_if a; no_if b; destruct (Z.leb_spec a b)
    | |- context [Z.eqb ?a ?b] => no_if a; no_if b; destruct (Z.eqb_spec a b)
    end);
  cbv iota; cbn [andb orb negb].

(** The date computed for a day number is a date of the calendar. *)
Lemma civilFromDays_valid z :
  let '(y, m, d) := civilFromDays z in
  1 ≤ m ≤ 12 ∧ 1 ≤ d ≤ daysInMonth y m.
Proof.
  unfold civilFromDays, daysInMonth, isLeapYear. cbv zeta.
  split_comparisons; try (Z.to_euclidean_division_equations; lia).
Qed.

(** The day number of the date computed for a day number is that number. *)
Lemma daysFromCivil_civilFromDays z :
  let '(y, m, d) := civilFromDays z in daysFromCivil y m d = z.
Proof.
  unfold civilFromDays, daysFromCivil. cbv zeta.
  split_comparisons; try (Z.to_euclidean_division_equations; lia).
Qed.

Lemma isDateChar_plain c :
  isDateChar c = true →
  Ascii.eqb comma c = false ∧ Ascii.eqb quote c = false ∧
  Ascii.eqb newline c = false ∧ Ascii.eqb c "T" = false.
Proof.
  destruct c as [[] [] [] [] [] [] [] []]; vm_compute; intros H;
    try discriminate H; repeat split.
Qed.

Lemma digitChar_isDateChar n : isDateChar (digitChar n) = true.
Proof.
  unfold digitChar. pose proof (Z.mod_pos_bound n 10 ltac:(lia)) as Hb.
  assert (H : n mod 10 = 0 ∨ n mod 10 = 1 ∨ n mod 10 = 2 ∨ n mod 10 = 3 ∨
              n mod 10 = 4 ∨ n mod 10 = 5 ∨ n mod 10 = 6 ∨ n mod 10 = 7 ∨
              n mod 10 = 8 ∨ n mod 10 = 9) by lia.
  repeat destruct H as [H|H]; rewrite H; reflexivity.
Qed.

Lemma allChars_app p a b :
  allChars p (a +:+ b) = allChars p a && allChars p b.
Proof.
  induction a as [|c a IH]; [reflexivity|].
  change (allChars p (String c (a +:+ b)) = allChars p (String c a) && allChars p b).
  cbn [allChars]. now rewrite IH, andb_assoc.
Qed.

Lemma padDigits_dateChars w : ∀ n acc,
  allChars isDateChar acc = true → allChars isDateChar (padDigits w n acc) = true.
Proof.
  induction w as [|w IH]; intros n acc Hacc; [exact Hacc|].
  cbn [padDigits]. apply IH. cbn [allChars].
  now rewrite digitChar_isDateChar, Hacc.
Qed.

Lemma yearString_dateChars y : allChars isDateChar (yearString y) = true.
Proof.
  unfold yearString. destruct ((0 <=? y) && (y <=? 9999)).
  - now apply padDigits_dateChars.
  - cbn [allChars]. rewrite padDigits_dateChars by reflexivity.
    now destruct (y <? 0).
Qed.

Lemma dateChars_plain s : allChars isDateChar s = true → needsQuoting s = false.
Proof.
  unfold needsQuoting. induction s as [|c s IH]; [reflexivity|].
  cbn [allChars Js.includesChar]. intros [Hc Hs]%andb_true_iff.
  apply isDateChar_plain in Hc as (-> & -> & -> & _).
  apply IH in Hs. now rewrite !orb_false_l.
Qed.

Lemma splitHead_dateChars a s :
  allChars isDateChar a = true →
  splitHead "T" (a +:+ s) = a +:+ splitHead "T" s.
Proof.
  induction a as [|c a IH]; [reflexivity|].
  cbn [allChars]. intros [Hc Ha]%andb_true_iff.
  change (splitHead "T" (String c (a +:+ s)) = String c (a +:+ splitHead "T" s)).
  cbn [splitHead]. apply isDateChar_plain in Hc as (_ & _ & _ & ->).
  now rewrite IH.
Qed.

Lemma dayText_day t :
  dayText (Some t) =
  let '(y, m, d) := dayOf t in
  yearString y +:+ "-" +:+ padDigits 2 m "" +:+ "-" +:+ padDigits 2 d "".
Proof.
  unfold dayText, isoText, dayOf.
  destruct (civilFromDays (t / msPerDay)) as [[y m] d].
  rewrite splitHead_dateChars by apply yearString_dateChars.
  rewrite (splitHead_dateChars "-") by reflexivity.
  rewrite splitHead_dateChars by now apply padDigits_dateChars.
  rewrite (splitHead_dateChars "-") by reflexivity.
  rewrite splitHead_dateChars by now apply padDigits_dateChars.
  change (splitHead "T" ("T" +:+ ?s)) with "".
  now rewrite append_empty_r.
Qed.

Lemma dayText_dateChars d : allChars isDateChar (dayText d) = true.
Proof.
  destruct d as [t|]; [|reflexivity].
  rewrite dayText_day. unfold dayOf.
  destruct (civilFromDays (t / msPerDay)) as [[y m] dd].
  rewrite !allChars_app, yearString_dateChars.
  now rewrite !padDigits_dateChars by reflexivity.
Qed.

Lemma dayText_plain d : needsQuoting (dayText d) = false.
Proof. apply dateChars_plain, dayText_dateChars. Qed.

(** A date cell is the day of a valid date; an invalid date throws. *)
Lemma dateCell_eq d :
  dateCell d = if validDate d then Some (dayText d) else None.
Proof.
  destruct d as [t|]; [|reflexivity].
  unfold dateCell, toISOString, validDate, dayText.
  now destruct (validTime t).
Qed.

(** *** The exported text *)

Lemma csvRow_eq e :
  csvRow e = if validDates e then Some (map escapeCSV (exportedValues e)) else None.
Proof.
  unfold csvRow, validDates, exportedValues. rewrite !dateCell_eq.
  destruct (validDate (createdAt e)); [|reflexivity].
  destruct (validDate (metadata e ≫= lastUpdated)); [|reflexivity].
  cbn [mbind option_bind andb map].
  rewrite !(escapeCSV_plain (dayText _)) by apply dayText_plain.
  now destruct (default false (verified <$> metadata e)).
Qed.

Lemma csvLines_eq es :
  csvLines es =
  if forallb validDates es
  then Some (map (λ e, join "," (map escapeCSV (exportedValues e))) es)
  else None.
Proof.
  induction es as [|e es IH]; [reflexivity|].
  cbn [csvLines forallb map]. rewrite csvRow_eq, IH.
  destruct (validDates e); [|reflexivity].
  now destruct (forallb validDates es).
Qed.

(** The conversion of a list with a record: the joined table when every
    date is valid, an exception otherwise. *)
Lemma convertToCSV_join e es :
  convertToCSV (Some (e :: es)) =
  if forallb validDates (e :: es)
  then Some (join (String newline "")
               (map (λ r, join "," (map escapeCSV r))
                  (headers :: map exportedValues (e :: es))))
  else None.
Proof.
  unfold convertToCSV. rewrite csvLines_eq.
  destruct (forallb validDates (e :: es)); [|reflexivity].
  cbn [mbind option_bind]. do 2 f_equal.
  change (map (λ r, join "," (map escapeCSV r))
            (headers :: map exportedValues (e :: es)))
    with (join "," (map escapeCSV headers)
          :: map (λ r, join "," (map escapeCSV r)) (map exportedValues (e :: es))).
  f_equal. now rewrite map_map.
Qed.

Lemma exported_rows_wide (entries : list Entry) :
  Forall (λ r : list string, (2 ≤ length r)%nat) (headers :: map exportedValues entries).
Proof.
  constructor; [simpl; lia|].
  rewrite List.Forall_forall. intros r Hr.
  apply in_map_iff in Hr as (e & <- & _). simpl. lia.
Qed.

(** *** The standard reader *)

Lemma readFrom_parseFrom s : ∀ st cur row,
  Js.includesChar carriageReturn s = false →
  readFrom (readerState st) cur row s = parseFrom st cur row s.
Proof.
  induction s as [|c s IH]; intros st cur row Hs.
  - now destruct st, row, cur.
  - cbn [Js.includesChar] in Hs. apply orb_false_iff in Hs as [Hc Hs].
    rewrite Ascii.eqb_sym in Hc.
    destruct st; cbn [readFrom parseFrom readerState]; rewrite ?Hc;
      repeat match goal with
             | |- context [if ?b then _ else _] => destruct b
             end;
      try (f_equal); try (apply (IH FieldStart)); try (apply (IH Unquoted));
      try (apply (IH Quoted)); try (apply (IH QuoteSeen)); auto.
Qed.

Lemma includesChar_app c a b :
  Js.includesChar c (a +:+ b) = Js.includesChar c a || Js.includesChar c b.
Proof.
  induction a as [|d a IH]; [reflexivity|].
  change (String d a +:+ b) with (String d (a +:+ b)).
  cbn [Js.includesChar]. now rewrite IH, orb_assoc.
Qed.

Lemma includesChar_doubleQuotes v :
  Js.includesChar carriageReturn (doubleQuotes v) = Js.includesChar carriageReturn v.
Proof.
  induction v as [|d v IH]; [reflexivity|]. cbn [doubleQuotes].
  destruct (Ascii.eqb d quote) eqn:E.
  - apply Ascii.eqb_eq in E as ->. cbn [Js.includesChar]. rewrite IH. reflexivity.
  - cbn [Js.includesChar]. now rewrite IH.
Qed.

Lemma includesChar_escapeCSV v :
  Js.includesChar carriageReturn (escapeCSV v) = Js.includesChar carriageReturn v.
Proof.
  unfold escapeCSV. destruct v as [|d v]; [reflexivity|]. cbn [Js.truthy negb].
  destruct (needsQuoting (String d v)); [|reflexivity].
  cbn [Js.includesChar]. rewrite includesChar_app, includesChar_doubleQuotes.
  cbn [Js.includesChar]. now rewrite !orb_false_r.
Qed.

Lemma includesChar_join c sep parts :
  Js.includesChar c sep = false →
  Forall (λ p, Js.includesChar c p = false) parts →
  Js.includesChar c (join sep parts) = false.
Proof.
  intros Hsep. induction 1 as [|p parts Hp Hparts IH]; [reflexivity|].
  destruct parts as [|p2 parts]; [exact Hp|].
  change (join sep (p :: p2 :: parts)) with (p +:+ sep +:+ join sep (p2 :: parts)).
  now rewrite !includesChar_app, Hp, Hsep, IH.
Qed.

Lemma isDateChar_no_return c :
  isDateChar c = true → Ascii.eqb carriageReturn c = false.
Proof.
  destruct c as [[] [] [] [] [] [] [] []]; vm_compute; intros H;
    try discriminate H; reflexivity.
Qed.

Lemma dateChars_no_return s :
  allChars isDateChar s = true → Js.includesChar carriageReturn s = false.
Proof.
  induction s as [|c s IH]; [reflexivity|]. cbn [allChars Js.includesChar].
  intros [Hc Hs]%andb_true_iff. now rewrite (isDateChar_no_return c Hc), (IH Hs).
Qed.

Lemma exportedValues_no_return e :
  noCarriageReturn e = true →
  Forall (λ v, Js.includesChar carriageReturn (escapeCSV v) = false) (exportedValues e).
Proof.
  unfold noCarriageReturn, exportedValues. cbn [forallb].
  rewrite !andb_true_iff, !negb_true_iff.
  intros (H1 & H2 & H3 & H4 & H5 & _).
  repeat (constructor; [rewrite includesChar_escapeCSV; assumption|]).
  constructor; [rewrite includesChar_escapeCSV; apply dateChars_no_return, dayText_dateChars|].
  constructor; [rewrite includesChar_escapeCSV; apply dateChars_no_return, dayText_dateChars|].
  constructor; [|constructor].
  now destruct (default false (verified <$> metadata e)).
Qed.

(** Apart from carriage returns and invalid dates the round trip holds
    under the standard rules: when every date of a non-empty list of
    records is valid and no text value holds a carriage return, the export
    reads back as the header row followed by one row per record, in order,
    with the record's values. *)
Lemma readCSV_convertToCSV (entries : list Entry) :
  entries ≠ [] →
  forallb validDates entries = true →
  forallb noCarriageReturn entries = true →
  ∃ text,
    convertToCSV (Some entries) = Some text ∧
    readCSV text = headers :: map exportedValues entries ∧
    length (readCSV text) = S (length entries).
Proof.
  intros Hne Hdates Hcr. destruct entries as [|e es]; [contradiction|].
  rewrite convertToCSV_join, Hdates. eexists. split; [reflexivity|].
  assert (Hread : readCSV (join (String newline "")
                    (map (λ r, join "," (map escapeCSV r))
                       (headers :: map exportedValues (e :: es))))
                  = headers :: map exportedValues (e :: es)).
  { unfold readCSV. rewrite (readFrom_parseFrom _ FieldStart).
    - apply parseCSV_join, exported_rows_wide.
    - apply includesChar_join; [reflexivity|].
      rewrite List.Forall_forall. intros line Hline.
      apply in_map_iff in Hline as (r & <- & Hr).
      apply includesChar_join; [reflexivity|].
      rewrite List.Forall_forall. intros cell Hcell.
      apply in_map_iff in Hcell as (v & <- & Hv).
      destruct Hr as [<-|Hr].
      + cbn [headers In] in Hv.
        repeat (destruct Hv as [<-|Hv]; [reflexivity|]). destruct Hv.
      + apply in_map_iff in Hr as (e' & <- & He').
        rewrite forallb_forall in Hcr.
        pose proof (exportedValues_no_return e' (Hcr e' He')) as Hall.
        rewrite List.Forall_forall in Hall. now apply Hall. }
  split; [exact Hread|]. rewrite Hread. cbn [length]. now rewrite length_map.
Qed.

(** C9 at the failing inputs.  [escapeCSV] wraps a value that holds a
    comma, a quote or a line feed, and leaves a value with a carriage
    return as it is.  Exporting the one record whose disease name holds a
    carriage return and reading the text back by the standard rules gives
    two data rows where one record was exported, and neither carries the
    disease name; the record whose autoantigen holds a line feed comes
    back as one row with its value.  A record whose creation date is not a
    valid date makes the conversion throw, and the CSV export answers with
    status 500. *)
Theorem csv_carriage_return_splits_record :
  needsQuoting ("Type 1" +:+ String carriageReturn "diabetes") = false ∧
  escapeCSV ("Type 1" +:+ String carriageReturn "diabetes")
  = "Type 1" +:+ String carriageReturn "diabetes" ∧
  (∃ text,
     convertToCSV (Some [Sample.withReturn]) = Some text ∧
     readCSV text
     = [ headers;
         ["Type 1"];
         ["diabetes"; "GAD65"; "GAD"; ""; ""; ""; ""; "No"] ] ∧
     readCSV text ≠ headers :: map exportedValues [Sample.withReturn] ∧
     length (readCSV text) = 3%nat) ∧
  (∃ text,
     convertToCSV (Some [Sample.withLineFeed]) = Some text ∧
     readCSV text = headers :: map exportedValues [Sample.withLineFeed]) ∧
  validDates Sample.beyondRange = false ∧
  convertToCSV (Some [Sample.beyondRange]) = None ∧
  exportEntries [Sample.beyondRange]
    (mkExportQuery (Some "csv") None None None None)
  = Failure 500 "Error exporting entries".
Proof.
  split; [reflexivity|]. split; [reflexivity|]. split.
  { eexists. split; [reflexivity|]. split; [reflexivity|].
    split; [discriminate|reflexivity]. }
  split.
  { eexists. split; reflexivity. }
  repeat split; reflexivity.
Qed.

(** C10. For an absent or empty list of records [convertToCSV] returns the
    empty string, without a header row; a text it returns starts with the
    header line exactly when at least one record is exported, and it
    returns a text for every list of records with valid dates. *)
Theorem convertToCSV_no_records :
  convertToCSV None = Some "" ∧
  convertToCSV (Some []) = Some "" ∧
  parseCSV <$> convertToCSV (Some []) = Some [] ∧
  (∀ entries text,
     convertToCSV entries = Some text →
     (Js.startsWith headerLine text = true ↔ ∃ e es, entries = Some (e :: es))) ∧
  (∀ e es, forallb validDates (e :: es) = true →
     ∃ text, convertToCSV (Some (e :: es)) = Some text
             ∧ Js.startsWith headerLine text = true).
Proof.
  split; [reflexivity|]. split; [reflexivity|]. split; [reflexivity|].
  assert (Hhead : ∀ e es text, convertToCSV (Some (e :: es)) = Some text →
            Js.startsWith headerLine text = true).
  { intros e es text. unfold convertToCSV.
    destruct (csvLines (e :: es)) as [lines|] eqn:Hl; [|discriminate].
    cbn [mbind option_bind]. intros [= <-].
    cbn [csvLines] in Hl. destruct (csvRow e) as [row|]; [|discriminate].
    cbn [mbind option_bind] in Hl. destruct (csvLines es) as [rest|]; [|discriminate].
    cbn [mbind option_bind] in Hl. injection Hl as <-. reflexivity. }
  split.
  - intros entries text Htext. split.
    + destruct entries as [[|e es]|]; [|intros _; now exists e, es|];
        cbn [convertToCSV] in Htext; injection Htext as <-; discriminate.
    + intros (e & es & ->). exact (Hhead e es text Htext).
  - intros e es Hvalid. rewrite convertToCSV_join, Hvalid.
    eexists. split; [reflexivity|]. reflexivity.
Qed.

(** * Further properties of the controller *)

(** ** The meaning of a built query *)

Lemma forallb_singleton_field name t e :
  forallb (λ c, matchesQuery c e) [QFields {[ name := literalRegExp t ]}]
  = fieldContains t (getField name e).
Proof.
  cbn [forallb]. now rewrite matchesQuery_singleton, fieldMatchesb_literal, andb_true_r.
Qed.

Lemma filterCondition_holds name v fc e :
  filterCondition name v = Some fc →
  (forallb (λ c, matchesQuery c e) fc = true ↔ filterHolds v (getField name e)).
Proof.
  rewrite filterCondition_eq. intros [= <-]. unfold filterHolds.
  destruct (nonBlank v) as [t|].
  - now rewrite forallb_singleton_field.
  - simpl. tauto.
Qed.

Lemma searchConditions_holds p sc e :
  searchConditions p = Some sc →
  (forallb (λ c, matchesQuery c e) sc = true ↔ searchHolds (p_search p) (p_field p) e).
Proof.
  rewrite searchConditions_eq. intros [= <-]. unfold searchHolds.
  destruct (nonBlank (p_search p)) as [t|]; [|simpl; tauto].
  destruct (bool_decide (p_field p = Some "all")).
  - cbn [forallb]. now rewrite matchesQuery_anyField, andb_true_r.
  - destruct (includesField searchFields (p_field p)).
    + now rewrite forallb_singleton_field.
    + simpl. tauto.
Qed.

Lemma buildCombinedQuery_holds (p : SearchParams) :
  ∃ q, buildCombinedQuery p = Some q ∧
    ∀ e, matchesQuery q e = true ↔
         searchHolds (p_search p) (p_field p) e ∧
         filterHolds (p_disease p) (disease e) ∧
         filterHolds (p_autoantibody p) (autoantibody e) ∧
         filterHolds (p_autoantigen p) (autoantigen e) ∧
         filterHolds (p_epitope p) (epitope e).
Proof.
  destruct (searchConditions p) as [sc|] eqn:Hsc;
    [|rewrite searchConditions_eq in Hsc; discriminate].
  destruct (filterCondition "disease" (p_disease p)) as [c1|] eqn:H1;
    [|rewrite filterCondition_eq in H1; discriminate].
  destruct (filterCondition "autoantibody" (p_autoantibody p)) as [c2|] eqn:H2;
    [|rewrite filterCondition_eq in H2; discriminate].
  destruct (filterCondition "autoantigen" (p_autoantigen p)) as [c3|] eqn:H3;
    [|rewrite filterCondition_eq in H3; discriminate].
  destruct (filterCondition "epitope" (p_epitope p)) as [c4|] eqn:H4;
    [|rewrite filterCondition_eq in H4; discriminate].
  assert (Hall : allConditions p = Some (sc ++ c1 ++ c2 ++ c3 ++ c4)).
  { unfold allConditions, filterConditions. now rewrite Hsc, H1, H2, H3, H4. }
  destruct (buildCombinedQuery p) as [q|] eqn:Hq.
  - exists q. split; [reflexivity|]. intros e.
    unfold buildCombinedQuery in Hq. rewrite Hall in Hq. cbn [mbind option_bind] in Hq.
    rewrite (buildCombinedQuery_semantics _ q e Hq).
    rewrite !forallb_app, !andb_true_iff.
    rewrite (searchConditions_holds p sc e Hsc).
    rewrite (filterCondition_holds _ _ c1 e H1), (filterCondition_holds _ _ c2 e H2),
      (filterCondition_holds _ _ c3 e H3), (filterCondition_holds _ _ c4 e H4).
    reflexivity.
  - unfold buildCombinedQuery in Hq. rewrite Hall in Hq. cbn [mbind option_bind] in Hq.
    destruct (sc ++ c1 ++ c2 ++ c3 ++ c4) as [|c [|c' l]]; discriminate.
Qed.

(** X1. The query built from the parameters holds of a record exactly when
    the free-text search holds of it and each of the four structured
    filters holds of its field. *)
Theorem buildCombinedQuery_meaning (p : SearchParams) :
  ∃ q, buildCombinedQuery p = Some q ∧
    ∀ e, matchesQuery q e = true ↔
         searchHolds (p_search p) (p_field p) e ∧
         filterHolds (p_disease p) (disease e) ∧
         filterHolds (p_autoantibody p) (autoantibody e) ∧
         filterHolds (p_autoantigen p) (autoantigen e) ∧
         filterHolds (p_epitope p) (epitope e).
Proof. exact (buildCombinedQuery_holds p). Qed.

Lemma nonBlank_Some_trimmed v t : nonBlank v = Some t → Js.trim t = t ∧ Js.truthy t = true.
Proof.
  unfold nonBlank. destruct v as [s|]; [|discriminate].
  destruct (Js.truthy s); [|discriminate]. cbn [andb].
  destruct (Js.truthy (Js.trim s)) eqn:Ht; intros [= <-].
  split; [apply trim_idempotent|exact Ht].
Qed.

Lemma nonBlank_idempotent v : nonBlank (nonBlank v) = nonBlank v.
Proof.
  destruct (nonBlank v) as [t|] eqn:Hv; [|reflexivity].
  apply nonBlank_Some_trimmed in Hv as [Htrim Ht].
  unfold nonBlank. now rewrite Htrim, Ht.
Qed.

(** X2. [buildCombinedQuery] reads its text parameters through the guard
    [v && v.trim()] only: a blank parameter counts as absent and white
    space around a text is ignored. *)
Theorem buildCombinedQuery_normalized (p : SearchParams) :
  buildCombinedQuery (normalized p) = buildCombinedQuery p.
Proof.
  unfold buildCombinedQuery, allConditions, filterConditions.
  rewrite !searchConditions_eq, !filterCondition_eq.
  unfold normalized. cbn [p_search p_field p_disease p_autoantibody p_autoantigen p_epitope].
  now rewrite !nonBlank_idempotent.
Qed.

(** ** searchEntries *)

Lemma StronglySorted_map {A B} (f : A → B) (R : B → B → Prop) l :
  StronglySorted (λ a b, R (f a) (f b)) l → StronglySorted R (map f l).
Proof.
  induction 1 as [|x l Hs IH Hx]; cbn [map]; constructor; [exact IH|].
  rewrite List.Forall_forall in *. intros y Hy.
  apply in_map_iff in Hy as (a & <- & Ha). auto.
Qed.

Lemma cursorLimit_prefix {A} n (l l' : list A) :
  cursorLimit n l = Some l' → ∃ k, l' = take k l.
Proof.
  destruct n as [|[|p|p]|s]; cbn [cursorLimit]; intros [= <-]; eauto.
  exists (length l). now rewrite firstn_all.
Qed.

Lemma cursorLimit_length {A} n k (l l' : list A) :
  cursorLimit n l = Some l' → n = Js.Num k → 1 ≤ k →
  Z.of_nat (length l') ≤ k.
Proof.
  intros H -> Hk. destruct k as [|p|p]; try lia.
  cbn [cursorLimit] in H. injection H as <-. rewrite length_take. lia.
Qed.

(** The answer of [find]: a prefix of the matching records in sort order. *)
Lemma find_sorted_matches coll q spec lim data :
  find coll q spec lim = Some data →
  (∃ k, data = take k (map entry (sortBy (docLe spec)
                 (map (λ e, mkDoc e None) (List.filter (matchesQuery q) coll))))) ∧
  Forall (λ e, In e coll ∧ matchesQuery q e = true) data ∧
  StronglySorted (λ a b, docLe spec (mkDoc a None) (mkDoc b None) = true) data.
Proof.
  unfold find. intros H. apply cursorLimit_prefix in H as (k & ->).
  set (docs := map (λ e, mkDoc e None) (List.filter (matchesQuery q) coll)).
  assert (Hdocs : ∀ d, In d (sortBy (docLe spec) docs) →
            d = mkDoc (entry d) None ∧ In (entry d) coll ∧ matchesQuery q (entry d) = true).
  { intros d Hd. eapply Permutation_in in Hd; [|apply sortBy_Permutation].
    apply in_map_iff in Hd as (e & <- & He). apply filter_In in He. tauto. }
  split; [now exists k|]. split.
  - apply Forall_take. rewrite List.Forall_forall. intros e He.
    apply in_map_iff in He as (d & <- & Hd). now apply Hdocs.
  - apply StronglySorted_take, StronglySorted_map.
    eapply StronglySorted_impl_In; [|apply sortBy_docLe_sorted].
    intros a b Ha Hb Hab. apply Hdocs in Ha as [Ha _], Hb as [Hb _].
    now rewrite <- Ha, <- Hb.
Qed.

Lemma nonBlank_None_short v : nonBlank v = None → termShorterThan 1 v = true.
Proof.
  unfold nonBlank, termShorterThan. destruct v as [s|]; [|reflexivity].
  destruct (Js.truthy s); [|reflexivity]. cbn [andb negb orb].
  destruct (Js.trim s) eqn:Ht; [reflexivity|discriminate].
Qed.

Lemma nonBlank_trim v t : nonBlank v = Some t → Js.trim (default "" v) = t.
Proof.
  unfold nonBlank. destruct v as [s|]; [|discriminate]. cbn [default from_option id].
  destruct (Js.truthy s && Js.truthy (Js.trim s)); congruence.
Qed.

Lemma searchEntries_accepted coll req t :
  nonBlank (se_q req) = Some t →
  ∃ q, buildCombinedQuery
         (mkSearchParams (se_q req) (Some (default "all" (se_field req)))
            None None None None) = Some q ∧
    (∀ e, matchesQuery q e = true ↔
          searchHolds (se_q req) (Some (default "all" (se_field req))) e) ∧
    let maxLimit := Js.mathMin (Js.parseInt (default "20" (se_limit req))) (Js.Num 100) in
    let spec := [("disease", 1); ("autoantibody", 1)] in
    searchEntries coll req =
    ([CallFind q spec maxLimit],
     match find coll q spec maxLimit with
     | Some entries =>
         Success (mkSearchEntriesResult entries (Z.of_nat (length entries)) t)
     | None => Failure 500 "Error searching entries"
     end).
Proof.
  intros Ht.
  destruct (buildCombinedQuery_holds
              (mkSearchParams (se_q req) (Some (default "all" (se_field req)))
                 None None None None)) as (q & Hq & Hm).
  exists q. split; [exact Hq|]. split.
  - intros e. rewrite Hm. cbn [p_search p_field p_disease p_autoantibody
                                 p_autoantigen p_epitope].
    unfold filterHolds. cbn [nonBlank]. tauto.
  - intros maxLimit spec. unfold searchEntries.
    rewrite (termShorterThan_nonBlank _ _ Ht), Hq.
    unfold lift, call. cbn [mbind action_bind]. fold maxLimit. fold spec.
    rewrite (nonBlank_trim _ _ Ht).
    now destruct (find coll q spec maxLimit).
Qed.

Lemma searchHolds_selects search field t e :
  nonBlank search = Some t →
  (searchHolds search field e ↔ searchSelects field t e = true).
Proof.
  intros Ht. unfold searchHolds, searchSelects. rewrite Ht.
  destruct (bool_decide (field = Some "all")); [reflexivity|].
  destruct (includesField searchFields field); [reflexivity|]. tauto.
Qed.

Lemma searchSelects_unknown field t e :
  ¬ (∃ f, field = Some f ∧ In f ("all" :: searchFields)) →
  searchSelects field t e = true.
Proof.
  intros Hf. unfold searchSelects.
  destruct (bool_decide (field = Some "all")) eqn:Hall.
  - apply bool_decide_eq_true in Hall. exfalso. apply Hf.
    exists "all". split; [exact Hall|now left].
  - destruct (includesField searchFields field) eqn:Hin; [|reflexivity].
    exfalso. apply Hf. destruct field as [f|]; [|discriminate].
    cbn [includesField] in Hin. apply existsb_exists in Hin as (x & Hx & Heq).
    apply String.eqb_eq in Heq as ->. exists x. split; [reflexivity|now right].
Qed.

Lemma filter_all {A} (p : A → bool) l : (∀ x, p x = true) → List.filter p l = l.
Proof.
  intros Hp. induction l as [|x l IH]; cbn [List.filter]; [reflexivity|].
  now rewrite Hp, IH.
Qed.

(** X3. [searchEntries] answers a blank or missing term with status 400
    and no storage call.  For a non-blank term the records searched for
    are: for the field [all] (the default) those matching the trimmed term
    in any of the five fields, for one of the five field names those
    matching in that field, and for any other field name every record of
    the collection, the term being ignored.  Put in ascending order of
    disease and then autoantibody, they are answered up to the limit: a
    limit that parses to a positive number gives exactly the first
    min(limit, 100) of them, with their number as count and the trimmed
    term echoed, and every successful answer is a first part of them. *)
Theorem searchEntries_sound (coll : Collection) (req : SearchEntriesQuery) :
  (nonBlank (se_q req) = None →
   searchEntries coll req = ([], Failure 400 "Search term is required")) ∧
  (∀ t,
     nonBlank (se_q req) = Some t →
     let field := Some (default "all" (se_field req)) in
     ∃ sorted,
       sorted ≡ₚ List.filter (searchSelects field t) coll ∧
       StronglySorted
         (λ a b, docLe [("disease", 1); ("autoantibody", 1)]
                   (mkDoc a None) (mkDoc b None) = true) sorted ∧
       (¬ (∃ f, field = Some f ∧ In f ("all" :: searchFields)) → sorted ≡ₚ coll) ∧
       (∀ n, Js.parseInt (default "20" (se_limit req)) = Js.Num n → 1 ≤ n →
          snd (searchEntries coll req)
          = Success (mkSearchEntriesResult
                       (take (Z.to_nat (Z.min n 100)) sorted)
                       (Z.min (Z.min n 100) (Z.of_nat (length sorted))) t)) ∧
       (∀ result, snd (searchEntries coll req) = Success result →
          (∃ k, se_data result = take k sorted) ∧
          se_count result = Z.of_nat (length (se_data result)) ∧
          se_searchTerm result = t)).
Proof.
  split.
  - intros H. unfold searchEntries. now rewrite (nonBlank_None_short _ H).
  - intros t Ht field.
    destruct (searchEntries_accepted coll req t Ht) as (q & _ & Hm & Heq).
    cbv zeta in Heq. fold field in Hm.
    assert (Hfilter : List.filter (matchesQuery q) coll
                      = List.filter (searchSelects field t) coll).
    { apply filter_ext_bool. intros e. apply eq_true_iff_eq.
      rewrite Hm. now apply searchHolds_selects. }
    set (spec := [("disease", 1); ("autoantibody", 1)]) in *.
    set (sorted := map entry (sortBy (docLe spec)
                     (map (λ e, mkDoc e None)
                        (List.filter (searchSelects field t) coll)))).
    assert (Hperm : sorted ≡ₚ List.filter (searchSelects field t) coll).
    { unfold sorted.
      rewrite (sortBy_Permutation (docLe spec)), map_map. cbn [entry].
      now rewrite map_id. }
    assert (Hfind : ∀ lim, find coll q spec lim = cursorLimit lim sorted).
    { intros lim. unfold find. now rewrite Hfilter. }
    exists sorted. split; [exact Hperm|]. split.
    { destruct (find_sorted_matches coll q spec (Js.Num 0) sorted) as (_ & _ & Hs);
        [rewrite Hfind; reflexivity|exact Hs]. }
    split.
    { intros Hunknown. rewrite Hperm.
      rewrite filter_all; [reflexivity|].
      intros e. now apply searchSelects_unknown. }
    rewrite Heq, Hfind. cbn [snd]. split.
    + intros n Hn Hn1. rewrite Hn. cbn [Js.mathMin].
      destruct (Z.min n 100) as [|m|m] eqn:Hmin; try lia.
      cbn [cursorLimit]. rewrite Z.abs_eq by lia.
      do 2 f_equal. rewrite length_take. lia.
    + intros result Hres.
      destruct (cursorLimit _ sorted) as [data|] eqn:Hc; [|discriminate].
      injection Hres as <-. cbn [se_data se_count se_searchTerm].
      split; [now apply cursorLimit_prefix in Hc|]. split; reflexivity.
Qed.

Lemma searchEntries_sound_witness :
  snd (searchEntries Sample.collection
         (mkSearchEntriesQuery (Some " Lupus ") (Some "autoantibody") (Some "5")))
  = Success (mkSearchEntriesResult [Sample.other] 1 "Lupus").
Proof.
  destruct (searchEntries_sound Sample.collection
              (mkSearchEntriesQuery (Some " Lupus ") (Some "autoantibody") (Some "5")))
    as [_ H].
  destruct (H "Lupus" eq_refl) as (sorted & _ & _ & _ & Hn & _).
  reflexivity.
Defined.

(** ** Statistics of the ranked search *)

Lemma dedup_length l : (length (dedup l) ≤ length l)%nat.
Proof.
  induction l as [|x l IH]; cbn [dedup length]; [lia|].
  pose proof (List.filter_length_le (λ y, negb (String.eqb x y)) (dedup l)). lia.
Qed.

Lemma omap_length {A B} (f : A → option B) l : (length (omap f l) ≤ length l)%nat.
Proof.
  induction l as [|x l IH]; cbn [omap list_omap length]; [lia|].
  destruct (f x); cbn [length]; lia.
Qed.

Lemma dedup_omap_length {A} (f : A → option string) l :
  0 ≤ Z.of_nat (length (dedup (omap f l))) ≤ Z.of_nat (length l).
Proof.
  pose proof (dedup_length (omap f l)). pose proof (omap_length f l). lia.
Qed.

Lemma advancedSearch_success coll req term result :
  as_q req = Some term → 2 ≤ Js.length (Js.trim term) →
  snd (advancedSearch coll req) = Success result →
  let t := Js.trim term in
  let re := literalRegExp t in
  (∃ n, as_data result = take n (sortBy (docLe rankingSort) (scoredCandidates t coll))) ∧
  as_count result = Z.of_nat (length (as_data result)) ∧
  as_stats result =
    if bool_decide (as_includeStats req = Some "true")
    then Some (default (mkStats 0 0 0 0) (head (aggregateStats coll (anyFieldQuery re))))
    else None.
Proof.
  intros Hq Ht. cbv zeta. unfold advancedSearch.
  rewrite Hq, (termShorterThan_false 2 term ltac:(lia) Ht).
  cbn [default from_option id]. rewrite newRegExp_escapeRegExp.
  unfold lift, call. cbn [mbind action_bind].
  rewrite aggregate_pipeline.
  destruct (Js.mathMin _ _) as [|m|s]; [discriminate| |discriminate].
  destruct (1 <=? m); [|discriminate].
  destruct (bool_decide (as_includeStats req = Some "true"));
    cbn; intros [= <-]; cbn; eauto.
Qed.

Lemma aggregateStats_anyField coll t :
  default (mkStats 0 0 0 0) (head (aggregateStats coll (anyFieldQuery (literalRegExp t))))
  = let matched := List.filter (isCandidate t) coll in
    mkStats (Z.of_nat (length matched))
      (Z.of_nat (length (dedup (omap disease matched))))
      (Z.of_nat (length (dedup (omap autoantibody matched))))
      (Z.of_nat (length (dedup (omap autoantigen matched)))).
Proof.
  unfold aggregateStats.
  rewrite (filter_ext_bool _ (isCandidate t)) by apply matchesQuery_anyField.
  now destruct (List.filter (isCandidate t) coll).
Qed.

(** X4. The statistics of a ranked search are taken over all candidates,
    whatever the limit: with [includeStats=true] a successful answer
    carries the number of all candidates as [totalMatches], which the
    count of returned records never exceeds, and three counts of distinct
    values, none above [totalMatches].  Any other value of [includeStats]
    gives no statistics. *)
Theorem advancedSearch_stats (coll : Collection) (req : AdvancedSearchQuery)
    (term : string) (result : AdvancedSearchResult) :
  as_q req = Some term →
  2 ≤ Js.length (Js.trim term) →
  snd (advancedSearch coll req) = Success result →
  (as_includeStats req = Some "true" →
   ∃ st, as_stats result = Some st ∧
     totalMatches st
       = Z.of_nat (length (List.filter (isCandidate (Js.trim term)) coll)) ∧
     as_count result ≤ totalMatches st ∧
     0 ≤ uniqueDiseasesCount st ≤ totalMatches st ∧
     0 ≤ uniqueAntibodiesCount st ≤ totalMatches st ∧
     0 ≤ uniqueAntigensCount st ≤ totalMatches st) ∧
  (as_includeStats req ≠ Some "true" → as_stats result = None).
Proof.
  intros Hq Ht Hres.
  destruct (advancedSearch_success coll req term result Hq Ht Hres)
    as ((n & Hdata) & Hcount & Hstats).
  split.
  - intros Hinc. rewrite bool_decide_eq_true_2 in Hstats by exact Hinc.
    rewrite aggregateStats_anyField in Hstats. cbv zeta in Hstats.
    eexists. split; [exact Hstats|]. cbn [totalMatches uniqueDiseasesCount
      uniqueAntibodiesCount uniqueAntigensCount].
    split; [reflexivity|]. split.
    + rewrite Hcount, Hdata, length_take, sortBy_length.
      unfold scoredCandidates. rewrite length_map. lia.
    + repeat split; apply dedup_omap_length.
  - intros Hinc. now rewrite bool_decide_eq_false_2 in Hstats by exact Hinc.
Qed.

Lemma advancedSearch_stats_witness :
  ∃ result st,
    snd (advancedSearch Sample.collection
           (mkAdvancedSearchQuery (Some "lupus") (Some "1") (Some "true")))
    = Success result ∧
    as_stats result = Some st ∧ as_count result = 1 ∧ totalMatches st = 2.
Proof.
  eexists. 
  destruct (advancedSearch_stats Sample.collection
              (mkAdvancedSearchQuery (Some "lupus") (Some "1") (Some "true"))
              "lupus" _ eq_refl ltac:(vm_compute; discriminate) eq_refl)
    as [H _].
  destruct (H eq_refl) as (st & Hst & Htotal & _).
  exists st. split; [reflexivity|]. split; [exact Hst|].
  split; [reflexivity|]. rewrite Htotal. reflexivity.
Defined.

(** ** Facet handlers: dependency order and field validation *)

Lemma includesField_truthy l field :
  includesField l field = true → In "" l ∨ Js.truthyOpt field = true.
Proof.
  destruct field as [[|c f]|]; cbn [includesField Js.truthyOpt Js.truthy];
    [|now right|discriminate].
  intros H. left. apply existsb_exists in H as (x & Hx & Heq).
  apply String.eqb_eq in Heq. now subst.
Qed.

Section FacetOrder.
Variable localeCompare : string → string → Z.

Lemma getUniqueValues_known coll field :
  includesField searchFields field = true →
  getUniqueValues localeCompare coll field =
  let f := default "" field in
  let values := filteredValues localeCompare (distinct coll f (QFields ∅)) in
  ([CallDistinct f (QFields ∅)],
   Success (mkValuesResult values (Z.of_nat (length values)) None)).
Proof.
  intros Hin. unfold getUniqueValues. rewrite Hin.
  destruct (includesField_truthy _ _ Hin) as [Hl| ->]; [|reflexivity].
  simpl in Hl. repeat (destruct Hl as [Hl|Hl]; [discriminate|]). contradiction.
Qed.

Lemma getUniqueValues_unknown coll field :
  includesField searchFields field = false →
  getUniqueValues localeCompare coll field =
  ([], Failure 400
     "Invalid field specified. Must be one of: disease, autoantibody, autoantigen, epitope, uniprotId").
Proof.
  intros Hin. unfold getUniqueValues. rewrite Hin.
  now rewrite orb_true_r.
Qed.

Lemma getFilteredUniqueValues_unknown coll field req :
  includesField facetFields field = false →
  getFilteredUniqueValues localeCompare coll field req =
  ([], Failure 400
     "Invalid field specified. Must be one of: disease, autoantibody, autoantigen, epitope").
Proof.
  intros Hin. unfold getFilteredUniqueValues. rewrite Hin.
  now rewrite orb_true_r.
Qed.

(** X5. The facet handlers check the field name before anything else: a
    name outside the handler's list is answered with status 400 and no
    storage call, a name of the list never is.  [uniprotId] is a facet of
    [getUniqueValues] only. *)
Theorem facet_field_validation (coll : Collection) (field : option string)
    (req : FacetQuery) :
  (includesField searchFields field = false →
   getUniqueValues localeCompare coll field =
   ([], Failure 400
      "Invalid field specified. Must be one of: disease, autoantibody, autoantigen, epitope, uniprotId")) ∧
  (includesField searchFields field = true →
   ∃ result, snd (getUniqueValues localeCompare coll field) = Success result) ∧
  (includesField facetFields field = false →
   getFilteredUniqueValues localeCompare coll field req =
   ([], Failure 400
      "Invalid field specified. Must be one of: disease, autoantibody, autoantigen, epitope")) ∧
  (includesField facetFields field = true →
   ∃ result,
     snd (getFilteredUniqueValues localeCompare coll field req) = Success result) ∧
  includesField searchFields (Some "uniprotId") = true ∧
  includesField facetFields (Some "uniprotId") = false.
Proof.
  split; [apply getUniqueValues_unknown|].
  split.
  { intros Hin. rewrite (getUniqueValues_known coll field Hin). cbv zeta. eauto. }
  split; [apply getFilteredUniqueValues_unknown|].
  split; [|split; reflexivity].
  intros Hin. unfold getFilteredUniqueValues. rewrite Hin.
  destruct (includesField_truthy _ _ Hin) as [Hl|Ht].
  { simpl in Hl. repeat (destruct Hl as [Hl|Hl]; [discriminate|]). contradiction. }
  rewrite Ht. cbn [negb orb].
  destruct (facetFilter_total (default "" field) (f_disease req)
              (f_autoantibody req) (f_autoantigen req)) as (fq & ->).
  unfold lift, call. cbn [mbind action_bind].
  match goal with |- context [if ?b then _ else _] => destruct b end; cbn; eauto.
Qed.

Lemma getFilteredUniqueValues_echo coll field req result :
  snd (getFilteredUniqueValues localeCompare coll field req) = Success result →
  v_appliedFilters result = Some req ∨
  (field = Some "epitope" ∧ v_appliedFilters result = None ∧ v_data result = [] ∧
   Js.truthyOpt (f_disease req) = false ∧ Js.truthyOpt (f_autoantibody req) = false ∧
   Js.truthyOpt (f_autoantigen req) = false).
Proof.
  unfold getFilteredUniqueValues.
  destruct (negb (Js.truthyOpt field) || negb (includesField facetFields field));
    [discriminate|].
  destruct (facetFilter_total (default "" field) (f_disease req)
              (f_autoantibody req) (f_autoantigen req)) as (fq & ->).
  unfold lift, call. cbn [mbind action_bind].
  destruct (String.eqb (default "" field) "epitope") eqn:Hf; cbn [andb].
  - apply String.eqb_eq in Hf.
    destruct (Js.truthyOpt (f_autoantigen req)), (Js.truthyOpt (f_disease req)),
      (Js.truthyOpt (f_autoantibody req)); cbn; intros [= <-];
      try (left; now destruct req).
    right. destruct field as [f|]; [|discriminate].
    cbn [default from_option id] in Hf. subst f. repeat split.
  - cbn. intros [= <-]. left. now destruct req.
Qed.

(** X6. Facet requests follow the dependency order disease, autoantibody,
    autoantigen, in what they ask of the storage and in the values and the
    count they answer with: the disease facet ignores every constraint and
    gives what the unconstrained enumeration gives, the autoantibody facet
    reads the disease constraint only (and is the unconstrained
    enumeration without one), the autoantigen facet reads the disease and
    autoantibody constraints only.  The constraints that are not read
    still come back in the answer: every answer of the constrained handler
    echoes the three constraints as given, except the empty answer to an
    epitope request without any constraint; the unconstrained handler
    echoes nothing. *)
Theorem facet_dependency_order (coll : Collection) (req req' : FacetQuery) :
  valuesOf (getFilteredUniqueValues localeCompare coll (Some "disease") req)
  = valuesOf (getUniqueValues localeCompare coll (Some "disease")) ∧
  (f_disease req = f_disease req' →
   valuesOf (getFilteredUniqueValues localeCompare coll (Some "autoantibody") req)
   = valuesOf (getFilteredUniqueValues localeCompare coll (Some "autoantibody") req')) ∧
  (Js.truthyOpt (f_disease req) = false →
   valuesOf (getFilteredUniqueValues localeCompare coll (Some "autoantibody") req)
   = valuesOf (getUniqueValues localeCompare coll (Some "autoantibody"))) ∧
  (f_disease req = f_disease req' → f_autoantibody req = f_autoantibody req' →
   valuesOf (getFilteredUniqueValues localeCompare coll (Some "autoantigen") req)
   = valuesOf (getFilteredUniqueValues localeCompare coll (Some "autoantigen") req')) ∧
  (∀ field result,
     snd (getFilteredUniqueValues localeCompare coll field req) = Success result →
     v_appliedFilters result = Some req ∨
     (field = Some "epitope" ∧ v_appliedFilters result = None ∧ v_data result = [] ∧
      Js.truthyOpt (f_disease req) = false ∧
      Js.truthyOpt (f_autoantibody req) = false ∧
      Js.truthyOpt (f_autoantigen req) = false)) ∧
  (∀ field result,
     snd (getUniqueValues localeCompare coll field) = Success result →
     v_appliedFilters result = None).
Proof.
  split; [reflexivity|]. split.
  { intros Hd. unfold getFilteredUniqueValues.
    cbn [Js.truthyOpt Js.truthy negb orb includesField facetFields existsb
         default from_option id].
    change (String.eqb "autoantibody" "disease") with false.
    change (String.eqb "autoantibody" "autoantibody") with true.
    change (String.eqb "autoantibody" "epitope") with false.
    cbn [negb orb andb]. unfold facetFilter.
    change (String.eqb "autoantibody" "autoantibody") with true.
    change (String.eqb "autoantibody" "autoantigen") with false.
    change (String.eqb "autoantibody" "epitope") with false.
    cbn [andb]. rewrite Hd.
    destruct (Js.truthyOpt (f_disease req')); [rewrite setFilter_eq|]; reflexivity. }
  split.
  { intros Hd. unfold getFilteredUniqueValues, getUniqueValues, facetFilter.
    cbn [Js.truthyOpt Js.truthy negb orb includesField facetFields searchFields
         existsb default from_option id].
    change (String.eqb "autoantibody" "disease") with false.
    change (String.eqb "autoantibody" "autoantibody") with true.
    change (String.eqb "autoantibody" "autoantigen") with false.
    change (String.eqb "autoantibody" "epitope") with false.
    cbn [negb orb andb]. rewrite Hd. reflexivity. }
  split.
  { intros Hd Hab. unfold getFilteredUniqueValues, facetFilter.
    cbn [Js.truthyOpt Js.truthy negb orb includesField facetFields existsb
         default from_option id].
    change (String.eqb "autoantigen" "disease") with false.
    change (String.eqb "autoantigen" "autoantibody") with false.
    change (String.eqb "autoantigen" "autoantigen") with true.
    change (String.eqb "autoantigen" "epitope") with false.
    cbn [negb orb andb]. rewrite Hd, Hab.
    rewrite setFilter_eq. cbn [mbind option_bind]. rewrite setFilter_eq.
    reflexivity. }
  split; [intros field result; apply getFilteredUniqueValues_echo|].
  intros field result Hres. unfold getUniqueValues in Hres.
  destruct (negb (Js.truthyOpt field) || negb (includesField searchFields field));
    [discriminate|].
  cbn in Hres. now injection Hres as <-.
Qed.

Lemma filteredValues_In values v :
  In v (filteredValues localeCompare values) ↔
  ∃ raw, In raw values ∧ Js.trim raw ≠ "" ∧ v = Js.trim raw.
Proof.
  split.
  - intros Hv. eapply Permutation_in in Hv; [|apply filteredValues_Permutation].
    apply in_map_iff in Hv as (raw & <- & Hraw).
    apply filter_In in Hraw as [Hin Hnb]. exists raw.
    apply andb_true_iff in Hnb as [_ Hnb]. apply negb_true_iff in Hnb.
    repeat split; auto. intros Heq. rewrite Heq in Hnb. discriminate.
  - intros (raw & Hin & Hnb & ->).
    eapply Permutation_in; [symmetry; apply filteredValues_Permutation|].
    apply in_map, filter_In. split; [exact Hin|].
    apply andb_true_iff. split.
    + destruct raw; [now contradiction Hnb|reflexivity].
    + apply negb_true_iff. destruct (String.eqb_spec (Js.trim raw) ""); congruence.
Qed.

Lemma distinct_In coll field q v :
  In v (distinct coll field q) ↔
  ∃ e, In e coll ∧ matchesQuery q e = true ∧ getField field e = Some v.
Proof.
  split; [apply distinct_values|].
  intros (e & He & Hm & Hf). unfold distinct.
  rewrite dedup_In, <- list_elem_of_In, list_elem_of_omap.
  exists e. split; [|exact Hf]. apply list_elem_of_In, filter_In. now split.
Qed.

(** X7. A constrained facet enumeration never offers a value the
    unconstrained enumeration of the same field does not offer. *)
Theorem facet_filtered_subset (coll : Collection) (field : option string)
    (req : FacetQuery) (result : ValuesResult) :
  snd (getFilteredUniqueValues localeCompare coll field req) = Success result →
  ∃ all, snd (getUniqueValues localeCompare coll field) = Success all ∧
         ∀ v, In v (v_data result) → In v (v_data all).
Proof.
  intros Hres.
  assert (Hin : includesField facetFields field = true).
  { destruct (includesField facetFields field) eqn:E; [reflexivity|].
    rewrite (getFilteredUniqueValues_unknown coll field req E) in Hres.
    discriminate. }
  assert (Hin' : includesField searchFields field = true).
  { destruct field as [f|]; [|discriminate]. cbn [includesField] in *.
    apply existsb_exists in Hin as (x & Hx & Heq). apply existsb_exists.
    exists x. split; [|exact Heq]. simpl in Hx |- *. tauto. }
  apply getFilteredUniqueValues_success in Hres as (f & -> & Hdata & _).
  rewrite (getUniqueValues_known coll (Some f) Hin'). cbv zeta.
  eexists. split; [reflexivity|]. cbn [v_data default from_option id].
  intros v Hv. destruct Hdata as [Hd|(fq & Hd)]; rewrite Hd in Hv; [contradiction|].
  apply filteredValues_In in Hv as (raw & Hraw & Hnb & ->).
  apply filteredValues_In. exists raw. split; [|auto].
  apply distinct_In in Hraw as (e & He & _ & Hf).
  apply distinct_In. exists e.
  split; [exact He|]. split; [apply matchesQuery_empty|exact Hf].
Qed.

End FacetOrder.

Lemma facet_field_validation_witness :
  getFilteredUniqueValues Sample.localeCompare Sample.collection (Some "uniprotId")
    (mkFacetQuery None None None) =
  ([], Failure 400
     "Invalid field specified. Must be one of: disease, autoantibody, autoantigen, epitope").
Proof.
  apply (facet_field_validation Sample.localeCompare Sample.collection (Some "uniprotId")
           (mkFacetQuery None None None)).
  reflexivity.
Defined.

Lemma facet_dependency_order_witness :
  valuesOf
    (getFilteredUniqueValues Sample.localeCompare Sample.collection (Some "autoantibody")
       (mkFacetQuery (Some "sle") (Some "x") (Some "y")))
  = valuesOf
      (getFilteredUniqueValues Sample.localeCompare Sample.collection (Some "autoantibody")
         (mkFacetQuery (Some "sle") None None)).
Proof.
  apply (facet_dependency_order Sample.localeCompare Sample.collection
           (mkFacetQuery (Some "sle") (Some "x") (Some "y"))
           (mkFacetQuery (Some "sle") None None)).
  reflexivity.
Defined.


Lemma facet_filtered_subset_witness :
  ∃ all,
    snd (getUniqueValues Sample.localeCompare Sample.collection (Some "autoantibody"))
    = Success all ∧ In "Anti-dsDNA" (v_data all).
Proof.
  destruct (facet_filtered_subset Sample.localeCompare Sample.collection
              (Some "autoantibody") (mkFacetQuery (Some "sle") None None)
              (mkValuesResult ["Anti-dsDNA"] 1
                 (Some (mkFacetQuery (Some "sle") None None)))
              eq_refl) as (all & Hall & Hsub).
  exists all. split; [exact Hall|]. apply Hsub. now left.
Defined.

(** ** The paginated listing *)

#[global] Instance compareKeys_OrderCompare {A} (value : string → A → Value) spec :
  OrderCompare (compareKeys value spec).
Proof.
  induction spec as [|[key dir] rest IH]; split; simpl.
  - reflexivity.
  - reflexivity.
  - discriminate.
  - intros a b.
    rewrite (cmp_antisym (cmp:=compareValue) (value key a) (value key b)).
    destruct (compareValue (value key a) (value key b)); simpl;
      [apply IH|now destruct (dir <? 0)..].
  - intros a b H x.
    destruct (compareValue (value key a) (value key b)) eqn:E;
      [|destruct (dir <? 0); discriminate..].
    rewrite (cmp_eq_subst (cmp:=compareValue) _ _ E).
    destruct (compareValue (value key b) (value key x)); [|reflexivity..].
    now apply IH.
  - intros a b c Hab Hbc.
    destruct (compareValue (value key a) (value key b)) eqn:Eab.
    + rewrite (cmp_eq_subst (cmp:=compareValue) _ _ Eab).
      destruct (compareValue (value key b) (value key c)); [|exact Hbc..].
      eapply IH; eauto.
    + destruct (compareValue (value key b) (value key c)) eqn:Ebc.
      * rewrite <- (cmp_eq_subst_r compareValue _ _ Ebc), Eab. exact Hab.
      * now rewrite (cmp_lt_trans (cmp:=compareValue) _ _ _ Eab Ebc).
      * destruct (dir <? 0); simpl in *; congruence.
    + destruct (compareValue (value key b) (value key c)) eqn:Ebc.
      * rewrite <- (cmp_eq_subst_r compareValue _ _ Ebc), Eab. exact Hab.
      * destruct (dir <? 0); simpl in *; congruence.
      * assert (Eca : compareValue (value key c) (value key a) = Lt).
        { apply (cmp_lt_trans (cmp:=compareValue) _ (value key b)).
          - rewrite (cmp_antisym (cmp:=compareValue)), Ebc. reflexivity.
          - rewrite (cmp_antisym (cmp:=compareValue)), Eab. reflexivity. }
        rewrite (cmp_antisym (cmp:=compareValue)), Eca. exact Hab.
Qed.

Lemma leKeys_total {A} (value : string → A → Value) spec a b :
  leKeys value spec a b = true ∨ leKeys value spec b a = true.
Proof.
  unfold leKeys. destruct (notGt_total (compareKeys value spec) a b) as [H|H];
    [left|right]; now destruct (compareKeys value spec _ _).
Qed.

Lemma leKeys_trans {A} (value : string → A → Value) spec a b c :
  leKeys value spec a b = true → leKeys value spec b c = true →
  leKeys value spec a c = true.
Proof.
  unfold leKeys. intros Hab Hbc.
  assert (H : compareKeys value spec a c ≠ Gt).
  { apply (notGt_trans (compareKeys value spec) a b c).
    - now destruct (compareKeys value spec a b).
    - now destruct (compareKeys value spec b c). }
  now destruct (compareKeys value spec a c).
Qed.

Lemma sortBy_leKeys_sorted {A} (value : string → A → Value) spec (l : list A) :
  StronglySorted (λ a b, leKeys value spec a b = true) (sortBy (leKeys value spec) l).
Proof.
  apply sortBy_StronglySorted; [apply leKeys_total|apply leKeys_trans].
Qed.

(** One key: the order of the key, reversed for a negative direction. *)
Lemma leKeys_single {A} (value : string → A → Value) key dir a b :
  leKeys value [(key, dir)] a b = true →
  compareValue (value key a) (value key b) ≠ (if dir <? 0 then Lt else Gt).
Proof.
  unfold leKeys. cbn [compareKeys].
  destruct (compareValue (value key a) (value key b)), (dir <? 0);
    simpl; congruence.
Qed.

Lemma StronglySorted_drop {A} (R : A → A → Prop) n l :
  StronglySorted R l → StronglySorted R (drop n l).
Proof.
  intros H. revert n. induction H as [|x l Hs IH Hx]; intros [|n]; simpl;
    try constructor; auto.
Qed.

Lemma roundDouble_small z : Z.abs z < 2 ^ 53 → Js.roundDouble z = Js.Num z.
Proof.
  intros H. unfold Js.roundDouble. cbv zeta.
  destruct (Z.abs z <? 2 ^ 53) eqn:E; [reflexivity|].
  apply Z.ltb_ge in E. lia.
Qed.

(** Above 2^53 [parseInt] gives the nearest double, and an infinity for
    a text of four hundred digits. *)
Example parseInt_rounds :
  Js.parseInt "9007199254740993" = Js.Num 9007199254740992 ∧
  Js.parseInt ("1" +:+ string_of_list_ascii (repeat "0"%char 400))
  = Js.Infinity false ∧
  listingPage (Some "9007199254740993") = Js.Num 9007199254740992.
Proof. repeat split; vm_compute; reflexivity. Qed.

Lemma listingPage_cases page :
  (∃ p, listingPage page = Js.Num p ∧ 1 ≤ p) ∨ listingPage page = Js.Infinity false.
Proof.
  unfold listingPage. destruct (parseIntOpt page) as [|[|p|p]|[|]];
    cbn [Js.orElse Js.mathMax];
    try (left; eexists; split; [reflexivity|lia]).
  now right.
Qed.

Lemma listingPage_parsed page :
  (parseIntOpt page = Js.NaN → listingPage page = Js.Num 1) ∧
  (∀ n, parseIntOpt page = Js.Num n → listingPage page = Js.Num (Z.max 1 n)).
Proof.
  unfold listingPage. split.
  - now intros ->.
  - intros n ->. destruct n; reflexivity.
Qed.

Lemma ceilDiv_bounds t l :
  0 ≤ t < 2 ^ 53 → 1 ≤ l →
  ∃ g, ceilDiv (Js.Num t) (Js.Num l) = Js.Num g ∧ (g - 1) * l < t ≤ g * l.
Proof.
  intros Ht Hl. unfold ceilDiv. destruct (l =? 0) eqn:E; [lia|].
  pose proof (Z.div_mod (- t) l) as Hd. pose proof (Z.mod_pos_bound (- t) l) as Hm.
  assert (Hq : 0 ≤ - (- t / l) ≤ t) by nia.
  exists (- (- t / l)). split; [|nia].
  apply roundDouble_small. lia.
Qed.

(** The page handed back by the cursor of the listing. *)
Lemma findPage_slice store q sort p l :
  1 ≤ p → 1 ≤ l → (p - 1) * l < 2 ^ 53 →
  findPage store q sort (numMul (numSub (Js.Num p) (Js.Num 1)) (Js.Num l)) (Js.Num l)
  = Some (take (Z.to_nat l)
            (drop (Z.to_nat ((p - 1) * l))
               (sortBy (leKeys storedValue sort)
                  (List.filter (λ s, matchesQuery q (s_entry s)) store)))).
Proof.
  intros Hp Hl Hk. unfold findPage, cursorSkip. cbn [numSub].
  assert (H0 : 0 ≤ (p - 1) * l) by nia.
  rewrite (roundDouble_small (p - 1)) by nia. cbn [numMul].
  rewrite (roundDouble_small ((p - 1) * l)) by lia.
  destruct (0 <=? (p - 1) * l) eqn:E; [|lia].
  destruct ((p - 1) * l <? 2 ^ 63) eqn:E'; [|apply Z.ltb_ge in E'; lia].
  cbn [andb mbind option_bind]. unfold cursorLimit.
  destruct l as [|l'|l']; try lia. now rewrite Z.abs_eq by lia.
Qed.

Lemma getAllEntries_success store req page limit :
  listingPage (l_page req) = Js.Num page →
  listingLimit (l_limit req) = Js.Num limit →
  (page - 1) * limit < 2 ^ 53 →
  ∃ query,
    buildCombinedQuery (listingParams req) = Some query ∧
    1 ≤ page ∧ 1 ≤ limit ≤ 100 ∧
    (∀ e, matchesQuery query e = listingSelects req e) ∧
    let matched := List.filter (λ s, listingSelects req (s_entry s)) store in
    let sort := listingSort (default "disease" (l_sortBy req))
                  (default "asc" (l_sortOrder req)) in
    getAllEntries store req =
    Success
      (mkListingResult
         (take (Z.to_nat limit)
            (drop (Z.to_nat ((page - 1) * limit))
               (sortBy (leKeys storedValue sort) matched)))
         (mkPagination (Js.Num page) (Js.Num limit)
            (Js.Num (Z.of_nat (length matched)))
            (ceilDiv (Js.Num (Z.of_nat (length matched))) (Js.Num limit)))
         (mkAppliedFilters (orNull (l_search req)) (orNull (l_field req))
            (orNull (l_disease req)) (orNull (l_autoantibody req))
            (orNull (l_autoantigen req)) (orNull (l_epitope req))
            (listingSortField (default "disease" (l_sortBy req)))
            (default "asc" (l_sortOrder req)))).
Proof.
  intros Hp Hl Hk.
  destruct (buildCombinedQuery_holds (listingParams req)) as (q & Hq & Hholds).
  assert (Hp1 : 1 ≤ page).
  { destruct (listingPage_cases (l_page req)) as [(p & Hp' & Hp1)|Hinf]; congruence. }
  assert (Hl1 : 1 ≤ limit ≤ 100).
  { destruct (listingLimit_clamped (l_limit req)) as (l & Hl' & Hl1). congruence. }
  assert (Hsel : ∀ e, matchesQuery q e = listingSelects req e).
  { intros e. apply eq_true_iff_eq. rewrite Hholds.
    unfold listingSelects, filtersSelect, searchHolds, filterHolds, filterSelects.
    cbn [listingParams p_search p_field p_disease p_autoantibody p_autoantigen
         p_epitope].
    rewrite !andb_true_iff.
    destruct (nonBlank (l_search req)) as [t|]; [unfold searchSelects|];
      repeat match goal with
        | |- context [bool_decide ?P] => destruct (bool_decide P)
        | |- context [includesField ?a ?b] => destruct (includesField a b)
        | |- context [nonBlank ?v] => destruct (nonBlank v)
        end; tauto. }
  exists q. repeat (split; [assumption || lia|]).
  cbn zeta. unfold getAllEntries. rewrite Hq, Hp, Hl. cbn [mbind option_bind].
  rewrite findPage_slice by lia. unfold countDocuments.
  rewrite (filter_ext_bool (λ s, matchesQuery q (s_entry s))
             (λ s, listingSelects req (s_entry s))) by (intros s; apply Hsel).
  reflexivity.
Qed.

(** X8. For a request whose query parameters are each absent or a single
    text, and a collection of fewer than 2^53 documents.  The page size
    lies between 1 and 100.  The page number is 1 when the parameter is
    absent or does not start with a number, and the larger of 1 and the
    number otherwise, as the double nearest to it.  Whenever the number of
    documents before the page, (page - 1) * size, is below 2^53, the
    listing answers with a page: the total is the number of matching
    documents, the number of pages is the total divided by the page size
    and rounded up, and the page holds as many documents as are left after
    the earlier pages, at most the page size. *)
Theorem getAllEntries_pagination (store : Store) (req : ListingQuery) :
  Z.of_nat (length store) < 2 ^ 53 →
  ∃ query limit,
    buildCombinedQuery (listingParams req) = Some query ∧
    listingLimit (l_limit req) = Js.Num limit ∧ 1 ≤ limit ≤ 100 ∧
    (parseIntOpt (l_page req) = Js.NaN → listingPage (l_page req) = Js.Num 1) ∧
    (∀ n, parseIntOpt (l_page req) = Js.Num n →
          listingPage (l_page req) = Js.Num (Z.max 1 n)) ∧
    ∀ page,
      listingPage (l_page req) = Js.Num page → (page - 1) * limit < 2 ^ 53 →
      ∃ result pages,
        getAllEntries store req = Success result ∧
        let total :=
          Z.of_nat (length (List.filter (λ s, matchesQuery query (s_entry s)) store)) in
        l_pagination result
        = mkPagination (Js.Num page) (Js.Num limit) (Js.Num total) (Js.Num pages) ∧
        1 ≤ page ∧
        (pages - 1) * limit < total ≤ pages * limit ∧
        Z.of_nat (length (l_data result))
        = Z.min limit (Z.max 0 (total - (page - 1) * limit)).
Proof.
  intros Hstore.
  destruct (buildCombinedQuery_holds (listingParams req)) as (q & Hq & _).
  destruct (listingLimit_clamped (l_limit req)) as (l & Hl & Hl1).
  exists q, l. split; [exact Hq|]. split; [exact Hl|]. split; [exact Hl1|].
  split; [apply listingPage_parsed|]. split; [apply listingPage_parsed|].
  intros p Hp Hk.
  destruct (getAllEntries_success store req p l Hp Hl Hk)
    as (q' & Hq' & Hp1 & _ & Hsel & Hres).
  rewrite Hq in Hq'. injection Hq' as <-. cbn zeta in Hres.
  rewrite <- (filter_ext_bool (λ s, matchesQuery q (s_entry s))
                (λ s, listingSelects req (s_entry s))) in Hres
    by (intros s; apply Hsel).
  set (matched := List.filter (λ s, matchesQuery q (s_entry s)) store) in *.
  assert (Hlen : Z.of_nat (length matched) ≤ Z.of_nat (length store)).
  { apply inj_le. unfold matched. apply filter_length_le. }
  destruct (ceilDiv_bounds (Z.of_nat (length matched)) l) as (g & Hg & Hbounds);
    [lia|lia|].
  rewrite Hg in Hres.
  eexists _, g. split; [exact Hres|].
  cbn zeta. cbn [l_pagination l_data].
  split; [reflexivity|]. repeat (split; [lia|]).
  rewrite length_take, length_drop, sortBy_length.
  assert (0 ≤ (p - 1) * l) by nia.
  generalize dependent ((p - 1) * l). intros k _ _ Hk. lia.
Qed.

Lemma getAllEntries_pagination_witness :
  Z.of_nat (length SampleStore.store) < 2 ^ 53 ∧
  ∃ result,
    getAllEntries SampleStore.store
      (mkListingQuery (Some "2") (Some "3") None None None None None None None None)
    = Success result ∧
    l_pagination result = mkPagination (Js.Num 2) (Js.Num 3) (Js.Num 4) (Js.Num 2) ∧
    length (l_data result) = 1%nat.
Proof.
  split; [cbn; lia|].
  destruct (getAllEntries_pagination SampleStore.store
              (mkListingQuery (Some "2") (Some "3") None None None None None None
                 None None))
    as (q & l & _ & Hl & _ & _ & _ & Hpage); [cbn; lia|].
  injection Hl as <-.
  destruct (Hpage 2 eq_refl) as (result & pages & Hres & _); [lia|].
  exists result. split; [exact Hres|].
  injection Hres as <-. split; reflexivity.
Defined.

(** X9. For a request whose query parameters are each absent or a single
    text, whenever the number of documents before the page,
    (page - 1) * size, is below 2^53.  The documents selected are those of
    the store that satisfy the four filters of the request and, when a
    search term is given, the search: in any of the five fields for the
    field `all', in the named field for one of the five names, and not at
    all for any other field or none (the listing has no default field, so
    a term without a field selects everything the filters select).  The
    page is the slice of the selected documents, put in the order of the
    sort key, that follows the earlier pages; the order is descending only
    for the order `desc'; the sort key is the requested one when it is
    among the seven sortable fields and `disease' otherwise. *)
Theorem getAllEntries_page (store : Store) (req : ListingQuery) (page limit : Z) :
  listingPage (l_page req) = Js.Num page →
  listingLimit (l_limit req) = Js.Num limit →
  (page - 1) * limit < 2 ^ 53 →
  ∃ result sorted,
    getAllEntries store req = Success result ∧
    sorted ≡ₚ List.filter (λ s, listingSelects req (s_entry s)) store ∧
    (¬ (∃ f, l_field req = Some f ∧ In f ("all" :: searchFields)) →
     sorted ≡ₚ List.filter (λ s, filtersSelect req (s_entry s)) store) ∧
    l_data result
    = take (Z.to_nat limit) (drop (Z.to_nat ((page - 1) * limit)) sorted) ∧
    af_sortBy (l_appliedFilters result)
    = (let requested := default "disease" (l_sortBy req) in
       if bool_decide (In requested validSortFields) then requested else "disease") ∧
    sortedByKey (af_sortBy (l_appliedFilters result))
      (bool_decide (l_sortOrder req = Some "desc")) sorted.
Proof.
  intros Hp Hl Hk.
  destruct (getAllEntries_success store req page limit Hp Hl Hk)
    as (q & Hq & _ & _ & _ & Hres).
  cbn zeta in Hres. eexists _, _. split; [exact Hres|]. clear Hres.
  cbn [l_data l_appliedFilters af_sortBy].
  split; [apply sortBy_Permutation|]. split; [|split; [reflexivity|split]].
  - intros Hunknown. rewrite (sortBy_Permutation (leKeys storedValue _)).
    erewrite filter_ext_bool; [reflexivity|].
    intros s. cbv beta. unfold listingSelects.
    destruct (nonBlank (l_search req)) as [t|]; [|reflexivity].
    now rewrite searchSelects_unknown.
  - cbn zeta. unfold listingSortField.
    destruct (existsb _ validSortFields) eqn:E.
    + rewrite bool_decide_eq_true_2; [reflexivity|].
      apply existsb_exists in E as (x & Hx & Heq).
      apply String.eqb_eq in Heq. now subst.
    + rewrite bool_decide_eq_false_2; [reflexivity|].
      intros Hin. apply not_true_iff_false in E. apply E.
      apply existsb_exists. eexists. split; [exact Hin|]. apply String.eqb_refl.
  - unfold sortedByKey.
    eapply StronglySorted_impl_In; [|apply sortBy_leKeys_sorted].
    intros a b _ _ Hab. unfold listingSort in Hab.
    apply leKeys_single in Hab.
    destruct (l_sortOrder req) as [o|]; cbn [default] in Hab |- *;
      try unfold id in Hab.
    + destruct (String.eqb o "desc") eqn:E.
      * apply String.eqb_eq in E as ->.
        rewrite bool_decide_eq_true_2 by reflexivity. exact Hab.
      * rewrite bool_decide_eq_false_2; [exact Hab|].
        intros [= ->]. now rewrite String.eqb_refl in E.
    + rewrite bool_decide_eq_false_2 by discriminate. exact Hab.
Qed.

Lemma getAllEntries_page_witness :
  ∃ result,
    getAllEntries SampleStore.store
      (mkListingQuery (Some "2") (Some "1") (Some "lupus") None None None None None
         (Some "updatedAt") (Some "desc"))
    = Success result ∧
    map s_id (l_data result) = [3].
Proof.
  destruct (getAllEntries_page SampleStore.store
              (mkListingQuery (Some "2") (Some "1") (Some "lupus") None None None
                 None None (Some "updatedAt") (Some "desc"))
              2 1 eq_refl eq_refl)
    as (result & sorted & Hres & _); [lia|].
  exists result. split; [exact Hres|].
  injection Hres as <-. reflexivity.
Defined.

(** ** Lookup and removal by id *)

Lemma truthy_nonempty s : Js.truthy s = true ↔ s ≠ "".
Proof. destruct s; simpl; split; congruence. Qed.

Lemma findById_Some store id s :
  findById store id = Some s → In s store ∧ s_id s = objectIdOf id.
Proof.
  unfold findById. intros H. apply find_some in H as [Hin Heq].
  split; [exact Hin|]. now apply Z.eqb_eq.
Qed.

Lemma findById_None store id :
  findById store id = None ↔ ∀ s, In s store → s_id s ≠ objectIdOf id.
Proof.
  unfold findById. split.
  - intros H s Hs Heq. pose proof (find_none _ _ H s Hs) as Hn.
    cbn beta in Hn. rewrite Heq, Z.eqb_refl in Hn. discriminate.
  - intros H. destruct (List.find _ store) as [s|] eqn:E; [|reflexivity].
    apply find_some in E as [Hin Heq]. apply Z.eqb_eq in Heq.
    now apply H in Hin.
Qed.

Lemma removeById_In oid store s : In s (removeById oid store) → In s store.
Proof.
  induction store as [|x store IH]; simpl; [tauto|].
  destruct (s_id x =? oid); simpl; intuition.
Qed.

Lemma removeById_Permutation oid store s :
  List.find (λ x, s_id x =? oid) store = Some s →
  store ≡ₚ s :: removeById oid store.
Proof.
  induction store as [|x store IH]; simpl; [discriminate|].
  destruct (s_id x =? oid).
  - now intros [= ->].
  - intros H. rewrite (IH H) at 1. apply perm_swap.
Qed.

Lemma removeById_gone oid store :
  uniqueIds store → ∀ s, In s (removeById oid store) → s_id s ≠ oid.
Proof.
  unfold uniqueIds. induction store as [|x store IH]; simpl; [tauto|].
  intros Hnd. apply List.NoDup_cons_iff in Hnd as [Hx Hnd].
  destruct (s_id x =? oid) eqn:E.
  - apply Z.eqb_eq in E. intros s Hs Heq. apply Hx. rewrite E, <- Heq.
    now apply in_map.
  - apply Z.eqb_neq in E. intros s [<-|Hs]; [exact E|]. now apply IH.
Qed.

Lemma removeById_other oid oid' store :
  oid' ≠ oid →
  List.find (λ x, s_id x =? oid') (removeById oid store)
  = List.find (λ x, s_id x =? oid') store.
Proof.
  intros Hne. induction store as [|x store IH]; simpl; [reflexivity|].
  destruct (s_id x =? oid) eqn:E; simpl.
  - apply Z.eqb_eq in E. destruct (s_id x =? oid') eqn:E'; [|reflexivity].
    apply Z.eqb_eq in E'. congruence.
  - now rewrite IH.
Qed.

Lemma removeById_uniqueIds oid store :
  uniqueIds store → uniqueIds (removeById oid store).
Proof.
  unfold uniqueIds. induction store as [|x store IH]; simpl; [auto|].
  intros Hnd. apply List.NoDup_cons_iff in Hnd as [Hx Hnd].
  destruct (s_id x =? oid); [exact Hnd|].
  simpl. apply List.NoDup_cons; [|auto].
  intros Hin. apply Hx. apply in_map_iff in Hin as (s & Hs & Hin).
  apply in_map_iff. exists s. split; [exact Hs|]. eapply removeById_In, Hin.
Qed.

Lemma validId_guard id :
  negb (Js.truthy id) || negb (isObjectIdString id) = negb (isObjectIdString id).
Proof. now destruct id. Qed.

Lemma getEntryById_none_aux store id :
  isObjectIdString id = true → (∀ s, In s store → s_id s ≠ objectIdOf id) →
  getEntryById store id = Failure 404 "Entry not found".
Proof.
  intros Hid H. unfold getEntryById. rewrite validId_guard, Hid. cbn [negb].
  apply findById_None in H. now rewrite H.
Qed.

(** X10. A lookup by id answers 400 exactly when the id is not a text of
    24 hexadecimal digits, 404 exactly when the id is well formed and no
    document carries it, and otherwise hands back a document of the store
    with that id together with its related entries. *)
Theorem getEntryById_outcome (store : Store) (id : string) :
  (getEntryById store id = Failure 400 "Valid entry ID is required"
   ↔ isObjectIdString id = false) ∧
  (getEntryById store id = Failure 404 "Entry not found"
   ↔ isObjectIdString id = true ∧ ∀ s, In s store → s_id s ≠ objectIdOf id) ∧
  (∀ result, getEntryById store id = Success result →
     isObjectIdString id = true ∧
     In (er_data result) store ∧ s_id (er_data result) = objectIdOf id ∧
     er_relatedEntries result = getRelatedEntries store (er_data result)).
Proof.
  unfold getEntryById. rewrite validId_guard.
  destruct (isObjectIdString id); cbn [negb].
  - destruct (findById store id) as [s|] eqn:E.
    + apply findById_Some in E as [Hin Heq].
      split; [split; discriminate|]. split.
      * split; [discriminate|]. intros [_ H]. now apply H in Hin.
      * intros result [= <-]. auto.
    + split; [split; discriminate|]. split.
      * split; [|reflexivity]. intros _. split; [reflexivity|].
        now apply findById_None.
      * discriminate.
  - split; [tauto|]. split; [|discriminate].
    split; [discriminate|]. intros [H _]. discriminate.
Qed.

Lemma getEntryById_outcome_witness :
  getEntryById SampleStore.store "12345" = Failure 400 "Valid entry ID is required" ∧
  ∀ result, getEntryById SampleStore.store SampleStore.id2 = Success result →
            s_id (er_data result) = 2.
Proof.
  split.
  - apply (getEntryById_outcome SampleStore.store "12345"). reflexivity.
  - intros result H.
    now apply (getEntryById_outcome SampleStore.store SampleStore.id2) in H
      as (_ & _ & Hid & _).
Defined.

(** X11. A deletion that succeeds takes exactly one document, the one with
    the id, out of the store: the store before is the store after plus
    that document, a later lookup of the id answers 404, and every other
    id finds what it found before.  A deletion that is refused leaves the
    store as it was. *)
Theorem deleteEntry_effect (store store' : Store) (id : string)
    (response : Response string) :
  uniqueIds store →
  deleteEntry store id = (store', response) →
  match response with
  | Success _ =>
      (∃ s, s_id s = objectIdOf id ∧ store ≡ₚ s :: store') ∧
      uniqueIds store' ∧
      getEntryById store' id = Failure 404 "Entry not found" ∧
      (∀ id', objectIdOf id' ≠ objectIdOf id →
              findById store' id' = findById store id')
  | Failure status _ => store' = store ∧ (status = 400 ∨ status = 404)
  end.
Proof.
  intros Hnd. unfold deleteEntry. rewrite validId_guard.
  destruct (isObjectIdString id) eqn:Hid; cbn [negb].
  - destruct (findById store id) as [s|] eqn:E.
    + intros [= <- <-]. split; [|split; [|split]].
      * exists s. split; [now apply findById_Some in E|].
        now apply removeById_Permutation.
      * now apply removeById_uniqueIds.
      * apply getEntryById_none_aux; [exact Hid|].
        now apply removeById_gone.
      * intros id' Hne. unfold findById. now apply removeById_other.
    + intros [= <- <-]. auto.
  - intros [= <- <-]. auto.
Qed.

Lemma deleteEntry_effect_witness :
  getEntryById (removeById 2 SampleStore.store) SampleStore.id2
  = Failure 404 "Entry not found" ∧
  findById (removeById 2 SampleStore.store) SampleStore.id3
  = findById SampleStore.store SampleStore.id3.
Proof.
  assert (Hnd : uniqueIds SampleStore.store).
  { unfold uniqueIds. simpl. repeat constructor; simpl; intuition discriminate. }
  pose proof (deleteEntry_effect SampleStore.store (removeById 2 SampleStore.store)
                SampleStore.id2 (Success "Entry deleted successfully") Hnd eq_refl)
    as (_ & _ & Hget & Hother).
  split; [exact Hget|]. apply Hother. discriminate.
Defined.

(** ** Related entries *)

Lemma existsb_filter {A} (f p : A → bool) l :
  existsb f (List.filter p l) = existsb (λ x, p x && f x) l.
Proof.
  induction l as [|x l IH]; simpl; [reflexivity|].
  destruct (p x); simpl; now rewrite IH.
Qed.

Lemma relatedCondition_spec name v other :
  Js.truthyOpt v && fieldEquals other (name, v) = true
  ↔ ∃ t, v = Some t ∧ t ≠ "" ∧ getField name other = Some (Js.trim t).
Proof.
  unfold fieldEquals. cbn [fst snd]. destruct v as [t|]; cbn [Js.truthyOpt].
  - rewrite andb_true_iff, truthy_nonempty, bool_decide_eq_true. split.
    + intros [Ht Hf]. eauto.
    + intros (t' & [= <-] & Ht & Hf). auto.
  - split; [discriminate|]. intros (t & H & _). discriminate.
Qed.

Lemma related_spec e other :
  existsb (fieldEquals other)
    (List.filter (λ c, Js.truthyOpt (snd c)) (relatedConditions e)) = true
  ↔ related e other.
Proof.
  rewrite existsb_filter. unfold relatedConditions, related.
  cbn [existsb snd]. rewrite orb_false_r, !orb_true_iff, !relatedCondition_spec.
  change (getField "disease" other) with (disease other).
  change (getField "autoantigen" other) with (autoantigen other).
  change (getField "uniprotId" other) with (uniprotId other).
  enough (H3 :
    (∃ t, (if Js.truthyOpt (uniprotId e)
              && negb (bool_decide (uniprotId e = Some "Multiple"))
           then uniprotId e else None) = Some t
          ∧ t ≠ "" ∧ uniprotId other = Some (Js.trim t))
    ↔ (∃ v, uniprotId e = Some v ∧ v ≠ "" ∧ v ≠ "Multiple"
            ∧ uniprotId other = Some (Js.trim v))) by (rewrite H3; tauto).
  destruct (uniprotId e) as [u|]; cbn [Js.truthyOpt].
  - destruct (Js.truthy u) eqn:Hu; cbn [andb].
    + destruct (bool_decide (Some u = Some "Multiple")) eqn:Hm; cbn [negb].
      * apply bool_decide_eq_true in Hm as [= ->]. split.
        -- intros (t & H & _). discriminate.
        -- intros (t & [= <-] & _ & H & _). congruence.
      * apply bool_decide_eq_false in Hm. split.
        -- intros (t & [= <-] & Ht & Hf). exists u. repeat split; auto. congruence.
        -- intros (t & [= <-] & Ht & _ & Hf). eauto.
    + apply not_true_iff_false in Hu. rewrite truthy_nonempty in Hu. split.
      * intros (t & H & _). discriminate.
      * intros (t & [= <-] & Ht & _). tauto.
  - split; intros (t & H & _); discriminate.
Qed.

(** X12. The related entries of a document are at most five documents of
    the store, none of them the document itself, each having the
    document's disease or autoantigen (when that is not empty) or its
    UniProt id (when that is neither empty nor the text Multiple); when
    fewer than five come back, they are all the documents of that kind. *)
Theorem getRelatedEntries_related (store : Store) (entry : Stored) :
  (length (getRelatedEntries store entry) ≤ 5)%nat ∧
  Forall (λ s, In s store ∧ s_id s ≠ s_id entry
               ∧ related (s_entry entry) (s_entry s))
         (getRelatedEntries store entry) ∧
  ((length (getRelatedEntries store entry) < 5)%nat →
   ∀ s, In s store → s_id s ≠ s_id entry →
        related (s_entry entry) (s_entry s) →
        In s (getRelatedEntries store entry)).
Proof.
  unfold getRelatedEntries.
  set (keep := λ s : Stored,
         existsb (fieldEquals (s_entry s))
           (List.filter (λ c, Js.truthyOpt (snd c))
              (relatedConditions (s_entry entry)))
         && negb (s_id s =? s_id entry)).
  assert (Hkeep : ∀ s, keep s = true
            ↔ related (s_entry entry) (s_entry s) ∧ s_id s ≠ s_id entry).
  { intros s. unfold keep.
    rewrite andb_true_iff, related_spec, negb_true_iff, Z.eqb_neq. tauto. }
  split; [rewrite length_take; lia|]. split.
  - apply Forall_take. rewrite List.Forall_forall. intros s Hs.
    apply filter_In in Hs as [Hin Hk]. apply Hkeep in Hk. tauto.
  - intros Hlen s Hin Hne Hrel. rewrite length_take in Hlen.
    rewrite take_ge by lia. apply filter_In. split; [exact Hin|].
    apply Hkeep. tauto.
Qed.

Lemma getRelatedEntries_related_witness :
  In (mkStored 4 SampleStore.sle2 (Some 40))
     (getRelatedEntries SampleStore.store (mkStored 3 Sample.sle (Some 30))).
Proof.
  apply (getRelatedEntries_related SampleStore.store (mkStored 3 Sample.sle (Some 30))).
  - vm_compute. lia.
  - simpl. tauto.
  - simpl. discriminate.
  - left. eexists. split; [reflexivity|]. split; [discriminate|reflexivity].
Defined.

(** ** Lookups by disease and by UniProt id *)

Lemma sortEntries_Permutation spec entries : sortEntries spec entries ≡ₚ entries.
Proof.
  unfold sortEntries.
  rewrite (sortBy_Permutation (docLe spec) (map (λ e, mkDoc e None) entries)).
  rewrite map_map. cbn [entry]. now rewrite map_id.
Qed.

Lemma sortEntries_sorted spec entries : sortedBy spec (sortEntries spec entries).
Proof.
  unfold sortedBy, sortEntries. apply StronglySorted_map.
  eapply StronglySorted_impl_In; [|apply sortBy_docLe_sorted].
  intros a b Ha Hb Hab.
  assert (Hdoc : ∀ d, In d (sortBy (docLe spec) (map (λ e, mkDoc e None) entries)) →
                      d = mkDoc (entry d) None).
  { intros d Hd. eapply Permutation_in in Hd; [|apply sortBy_Permutation].
    now apply in_map_iff in Hd as (e & <- & _). }
  now rewrite <- (Hdoc a Ha), <- (Hdoc b Hb).
Qed.

Lemma sortEntries_length spec entries :
  length (sortEntries spec entries) = length entries.
Proof. apply Permutation_length, sortEntries_Permutation. Qed.

Lemma blank_guard s :
  negb (Js.truthy s) || negb (Js.truthy (Js.trim s))
  = match nonBlank (Some s) with Some _ => false | None => true end.
Proof.
  unfold nonBlank. destruct (Js.truthy s), (Js.truthy (Js.trim s)); reflexivity.
Qed.

Lemma nonBlank_Some s t : nonBlank (Some s) = Some t → t = Js.trim s.
Proof.
  unfold nonBlank. destruct (Js.truthy s && Js.truthy (Js.trim s)); congruence.
Qed.

(** X13. The lookup by disease refuses a blank name with status 400;
    otherwise it answers with exactly the records whose disease contains
    the trimmed name, letter case ignored, in ascending order of
    autoantibody and then autoantigen, and with their number. *)
Theorem getEntriesByDisease_sound (coll : Collection) (name : string) :
  match nonBlank (Some name) with
  | None =>
      getEntriesByDisease coll name = Failure 400 "Disease name is required"
  | Some t =>
      ∃ result,
        getEntriesByDisease coll name = Success result ∧
        e_data result ≡ₚ List.filter (λ e, fieldContains t (disease e)) coll ∧
        sortedBy [("autoantibody", 1); ("autoantigen", 1)] (e_data result) ∧
        e_count result = Z.of_nat (length (e_data result))
  end.
Proof.
  unfold getEntriesByDisease. rewrite blank_guard.
  destruct (nonBlank (Some name)) as [t|] eqn:Ht; [|reflexivity].
  apply nonBlank_Some in Ht as ->. rewrite newRegExp_escapeRegExp.
  eexists. split; [reflexivity|]. cbn [e_data e_count]. unfold findAll.
  split; [|split; [apply sortEntries_sorted|reflexivity]].
  rewrite sortEntries_Permutation.
  erewrite filter_ext_bool; [reflexivity|]. intros e.
  now rewrite matchesQuery_singleton, fieldMatchesb_literal.
Qed.

(** *** Upper case and trimming *)

Lemma canonicalize_idempotent c : Js.canonicalize (Js.canonicalize c) = Js.canonicalize c.
Proof. destruct c as [[] [] [] [] [] [] [] []]; reflexivity. Qed.

Lemma isWhiteSpace_canonicalize c :
  Js.isWhiteSpace (Js.canonicalize c) = Js.isWhiteSpace c.
Proof. destruct c as [[] [] [] [] [] [] [] []]; reflexivity. Qed.

Lemma toUpperCase_idempotent s : Js.toUpperCase (Js.toUpperCase s) = Js.toUpperCase s.
Proof.
  induction s as [|c s IH]; cbn [Js.toUpperCase]; [reflexivity|].
  now rewrite canonicalize_idempotent, IH.
Qed.

Lemma trimStart_toUpperCase s :
  Js.trimStart (Js.toUpperCase s) = Js.toUpperCase (Js.trimStart s).
Proof.
  induction s as [|c s IH]; cbn [Js.toUpperCase Js.trimStart]; [reflexivity|].
  rewrite isWhiteSpace_canonicalize. now destruct (Js.isWhiteSpace c).
Qed.

Lemma trimEnd_toUpperCase s :
  Js.trimEnd (Js.toUpperCase s) = Js.toUpperCase (Js.trimEnd s).
Proof.
  induction s as [|c s IH]; cbn [Js.toUpperCase Js.trimEnd]; [reflexivity|].
  rewrite IH, isWhiteSpace_canonicalize.
  destruct (Js.trimEnd s); cbn [Js.toUpperCase]; [|reflexivity].
  now destruct (Js.isWhiteSpace c).
Qed.

Lemma trim_toUpperCase s : Js.trim (Js.toUpperCase s) = Js.toUpperCase (Js.trim s).
Proof. unfold Js.trim. now rewrite trimStart_toUpperCase, trimEnd_toUpperCase. Qed.

Lemma truthy_toUpperCase s : Js.truthy (Js.toUpperCase s) = Js.truthy s.
Proof. now destruct s. Qed.

Lemma truthy_trim s : Js.truthy (Js.trim s) = true → Js.truthy s = true.
Proof. now destruct s. Qed.

(** X14. The lookup by UniProt id refuses a blank id with status 400;
    otherwise it answers with exactly the records whose id equals the
    trimmed, upper-cased parameter, in ascending order of disease and then
    autoantibody.  The answer does not depend on the letter case of the
    parameter nor on white space around it. *)
Theorem getEntriesByUniprotId_exact (coll : Collection) (id : string) :
  match nonBlank (Some id) with
  | None =>
      getEntriesByUniprotId coll id = Failure 400 "UniProt ID is required"
  | Some t =>
      ∃ result,
        getEntriesByUniprotId coll id = Success result ∧
        e_data result
        ≡ₚ List.filter (λ e, bool_decide (uniprotId e = Some (Js.toUpperCase t))) coll ∧
        sortedBy [("disease", 1); ("autoantibody", 1)] (e_data result) ∧
        e_count result = Z.of_nat (length (e_data result))
  end ∧
  getEntriesByUniprotId coll (Js.toUpperCase id) = getEntriesByUniprotId coll id ∧
  getEntriesByUniprotId coll (Js.trim id) = getEntriesByUniprotId coll id.
Proof.
  split; [|split].
  - unfold getEntriesByUniprotId. rewrite blank_guard.
    destruct (nonBlank (Some id)) as [t|] eqn:Ht; [|reflexivity].
    apply nonBlank_Some in Ht as ->.
    eexists. split; [reflexivity|]. cbn [e_data e_count].
    split; [|split; [apply sortEntries_sorted|reflexivity]].
    rewrite sortEntries_Permutation, trim_toUpperCase. reflexivity.
  - unfold getEntriesByUniprotId.
    now rewrite toUpperCase_idempotent, trim_toUpperCase, !truthy_toUpperCase.
  - unfold getEntriesByUniprotId.
    rewrite !trim_toUpperCase, trim_idempotent.
    destruct (Js.truthy (Js.trim id)) eqn:E.
    + now rewrite (truthy_trim _ E).
    + cbn [negb]. now rewrite !orb_true_r.
Qed.

(** ** The export *)

Lemma matchesQuery_insert name re (conds : gmap string RegExp) e :
  conds !! name = None →
  matchesQuery (QFields (<[ name := re ]> conds)) e
  = fieldMatchesb e name re && matchesQuery (QFields conds) e.
Proof.
  intros Hnone. cbn [matchesQuery]. apply eq_true_iff_eq.
  rewrite andb_true_iff, !bool_decide_eq_true.
  now rewrite (map_Forall_insert _ conds name re Hnone).
Qed.

Lemma exportCondition_eq name v query :
  exportCondition name v query
  = Some (if Js.truthyOpt v
          then <[ name := literalRegExp (default "" v) ]> query else query).
Proof.
  unfold exportCondition. destruct (Js.truthyOpt v); [|reflexivity].
  now rewrite newRegExp_escapeRegExp.
Qed.

Lemma exportCondition_matches name v (query : gmap string RegExp) e :
  query !! name = None →
  matchesQuery
    (QFields (if Js.truthyOpt v
              then <[ name := literalRegExp (default "" v) ]> query else query)) e
  = rawFilterHolds v (getField name e) && matchesQuery (QFields query) e.
Proof.
  intros Hnone. unfold rawFilterHolds. destruct (Js.truthyOpt v); [|reflexivity].
  now rewrite matchesQuery_insert, fieldMatchesb_literal.
Qed.

Lemma exportCondition_lookup name name' v (query : gmap string RegExp) :
  name ≠ name' → query !! name' = None →
  (if Js.truthyOpt v
   then <[ name := literalRegExp (default "" v) ]> query else query) !! name' = None.
Proof.
  intros Hne Hnone. destruct (Js.truthyOpt v); [|exact Hnone].
  now rewrite lookup_insert_ne.
Qed.

Lemma take_min_length {A} k (l : list A) :
  take (Nat.min k (length l)) l = take k l.
Proof.
  destruct (Nat.le_ge_cases k (length l)) as [H|H].
  - now rewrite Nat.min_l.
  - rewrite Nat.min_r by exact H. now rewrite firstn_all, take_ge.
Qed.

Lemma exportLimit_eq {A} limit (sorted : list A) :
  (if Js.truthyOpt limit && numGt (parseIntOpt limit) (Js.Num 0)
   then cursorLimit (Js.mathMin (parseIntOpt limit) (Js.Num 10000)) sorted
   else Some sorted)
  = Some (take (exportedCount limit (length sorted)) sorted).
Proof.
  unfold exportedCount.
  assert (Hall : Some sorted = Some (take (length sorted) sorted))
    by now rewrite firstn_all.
  destruct limit as [s|]; cbn [Js.truthyOpt parseIntOpt andb]; [|exact Hall].
  destruct s as [|c s]; [exact Hall|]. cbn [Js.truthy andb].
  destruct (Js.parseInt (String c s)) as [|n|[|]]; cbn [numGt negb];
    [exact Hall| |exact Hall|].
  - destruct (0 <? n) eqn:E; [|exact Hall].
    apply Z.ltb_lt in E. cbn [Js.mathMin]. unfold cursorLimit.
    destruct (Z.min n 10000) as [|m|m] eqn:Hm; try lia.
    f_equal. rewrite Z.abs_eq by lia. symmetry. apply take_min_length.
  - cbn [Js.mathMin]. unfold cursorLimit. f_equal.
    symmetry. apply take_min_length.
Qed.

Lemma exportEntries_success coll req :
  exportEntries coll req =
  let entries :=
    take (exportedCount (x_limit req) (length (List.filter (exportHolds req) coll)))
      (sortEntries [("disease", 1); ("autoantibody", 1)]
         (List.filter (exportHolds req) coll)) in
  if String.eqb (default "json" (x_format req)) "csv" then
    match convertToCSV (Some entries) with
    | Some csv =>
        Success (CsvAttachment "text/csv" "attachment; filename=disease_database.csv"
                   csv)
    | None => Failure 500 "Error exporting entries"
    end
  else
    Success (JsonExport entries (Z.of_nat (length entries))
               (default "json" (x_format req))
               (x_disease req, x_autoantibody req, x_autoantigen req)).
Proof.
  unfold exportEntries.
  do 3 (rewrite exportCondition_eq; cbn [mbind option_bind]).
  rewrite exportLimit_eq. cbn [mbind option_bind]. unfold findAll.
  rewrite sortEntries_length.
  set (query := if Js.truthyOpt (x_autoantigen req) then _ else _).
  assert (Hfilter : List.filter (matchesQuery (QFields query)) coll
                    = List.filter (exportHolds req) coll).
  { apply filter_ext_bool. intros e. unfold query, exportHolds.
    rewrite exportCondition_matches
      by (apply exportCondition_lookup; [discriminate|];
          apply exportCondition_lookup; [discriminate|]; apply lookup_empty).
    rewrite exportCondition_matches
      by (apply exportCondition_lookup; [discriminate|]; apply lookup_empty).
    rewrite exportCondition_matches by apply lookup_empty.
    rewrite matchesQuery_empty, andb_true_r.
    change (getField "disease" e) with (disease e).
    change (getField "autoantibody" e) with (autoantibody e).
    change (getField "autoantigen" e) with (autoantigen e).
    now destruct (rawFilterHolds _ (disease e)), (rawFilterHolds _ (autoantibody e)),
      (rawFilterHolds _ (autoantigen e)). }
  rewrite Hfilter. cbn zeta. destruct (String.eqb _ "csv"); [|reflexivity].
  now destruct (convertToCSV _).
Qed.

Lemma convertToCSV_defined entries :
  (∃ text, convertToCSV (Some entries) = Some text) ↔ forallb validDates entries = true.
Proof.
  destruct entries as [|e es].
  - split; [reflexivity|]. intros _. now exists "".
  - rewrite convertToCSV_join. destruct (forallb validDates (e :: es)).
    + split; [reflexivity|]. intros _. eauto.
    + split; [intros (text & H); discriminate|discriminate].
Qed.

(** X15. For a request whose query parameters are each absent or a single
    text.  The export selects the records that contain each filter text
    that is given and not empty, as given (without trimming, letter case
    ignored), puts them in ascending order of disease and then
    autoantibody, and keeps the first ones up to the limit: the limit when
    it reads as a positive number, capped at 10000, and no limit at all
    otherwise.  For any format other than csv the records go out as JSON
    with their count, and the export does not fail.  For the format csv
    they go out as a CSV attachment when every date of the kept records
    is absent or within the range of dates (8.64e15 milliseconds either
    side of the epoch); with a date outside of it the export fails with
    status 500 and the message of the handler. *)
Theorem exportEntries_selection (coll : Collection) (req : ExportQuery) :
  ∃ entries selected,
    selected ≡ₚ List.filter (exportHolds req) coll ∧
    sortedBy [("disease", 1); ("autoantibody", 1)] selected ∧
    entries = take (exportedCount (x_limit req) (length selected)) selected ∧
    (x_format req ≠ Some "csv" →
     exportEntries coll req
     = Success (JsonExport entries (Z.of_nat (length entries))
                  (default "json" (x_format req))
                  (x_disease req, x_autoantibody req, x_autoantigen req))) ∧
    (x_format req = Some "csv" → forallb validDates entries = true →
     ∃ body,
       convertToCSV (Some entries) = Some body ∧
       exportEntries coll req
       = Success (CsvAttachment "text/csv"
                    "attachment; filename=disease_database.csv" body)) ∧
    (x_format req = Some "csv" → forallb validDates entries = false →
     convertToCSV (Some entries) = None ∧
     exportEntries coll req = Failure 500 "Error exporting entries").
Proof.
  eexists _, (sortEntries [("disease", 1); ("autoantibody", 1)]
                (List.filter (exportHolds req) coll)).
  split; [apply sortEntries_Permutation|]. split; [apply sortEntries_sorted|].
  split; [reflexivity|].
  rewrite exportEntries_success. cbn zeta. rewrite sortEntries_length.
  set (entries := take _ _).
  split; [|split].
  - intros Hf. destruct (x_format req) as [f|]; cbn [default]; [|reflexivity].
    unfold id. destruct (String.eqb f "csv") eqn:E; [|reflexivity].
    apply String.eqb_eq in E. congruence.
  - intros -> Hd. apply convertToCSV_defined in Hd as (body & Hb).
    exists body. split; [exact Hb|]. cbn [default from_option id].
    change (String.eqb "csv" "csv") with true. cbv iota. now rewrite Hb.
  - intros -> Hd.
    assert (Hnone : convertToCSV (Some entries) = None).
    { destruct (convertToCSV (Some entries)) as [text|] eqn:Hc; [|reflexivity].
      assert (Hv : forallb validDates entries = true)
        by (apply convertToCSV_defined; eauto).
      congruence. }
    split; [exact Hnone|]. cbn [default from_option id].
    change (String.eqb "csv" "csv") with true. cbv iota. now rewrite Hnone.
Qed.

Lemma parseCSV_convertToCSV e es body :
  convertToCSV (Some (e :: es)) = Some body →
  parseCSV body = headers :: map exportedValues (e :: es).
Proof.
  rewrite convertToCSV_join. destruct (forallb validDates (e :: es)); [|discriminate].
  intros Hbody.
  replace body
    with (join (String newline "")
            (map (λ r, join "," (map escapeCSV r))
               (headers :: map exportedValues (e :: es))))
    by congruence.
  apply parseCSV_join.
  constructor; [simpl; lia|].
  rewrite List.Forall_forall. intros r Hr.
  apply in_map_iff in Hr as (x & <- & _). simpl. lia.
Qed.

Lemma exportedCount_positive limit n : (0 < n)%nat → (0 < exportedCount limit n)%nat.
Proof.
  intros Hn. unfold exportedCount.
  destruct (parseIntOpt limit) as [|z|[|]]; [exact Hn| |exact Hn|lia].
  destruct (0 <? z) eqn:E; [|exact Hn]. apply Z.ltb_lt in E. lia.
Qed.

(** X16. A CSV export whose filters select no record has an empty body,
    without the header line.  Otherwise reading the body back gives the
    header row followed by one row per exported record; the exported
    records are records of the collection that satisfy the filters, and
    at most 10000 of them when a limit is in force. *)
Theorem exportEntries_csv (coll : Collection) (req : ExportQuery)
    (contentType contentDisposition body : string) :
  exportEntries coll req = Success (CsvAttachment contentType contentDisposition body) →
  contentType = "text/csv" ∧
  (List.filter (exportHolds req) coll = [] → body = "") ∧
  (List.filter (exportHolds req) coll ≠ [] →
   ∃ entries,
     entries ≠ [] ∧
     parseCSV body = headers :: map exportedValues entries ∧
     Forall (λ e, In e coll ∧ exportHolds req e = true) entries ∧
     (∀ n, parseIntOpt (x_limit req) = Js.Num n → 0 < n →
           Z.of_nat (length entries) ≤ Z.min n 10000)).
Proof.
  rewrite exportEntries_success. cbn zeta.
  destruct (String.eqb (default "json" (x_format req)) "csv"); [|discriminate].
  set (selected := List.filter (exportHolds req) coll).
  set (sorted := sortEntries _ selected).
  destruct (convertToCSV _) as [csv|] eqn:Hcsv; [|discriminate].
  intros [= <- <- <-]. split; [reflexivity|].
  assert (Hperm : sorted ≡ₚ selected) by apply sortEntries_Permutation.
  split.
  - intros Hnil. rewrite Hnil in Hperm. symmetry in Hperm. apply Permutation_nil in Hperm.
    rewrite Hperm in Hcsv. destruct (exportedCount _ _); cbn in Hcsv; congruence.
  - intros Hne.
    set (entries := take (exportedCount (x_limit req) (length selected)) sorted).
    exists entries.
    assert (Hlen : (0 < length selected)%nat).
    { destruct selected; [contradiction|simpl; lia]. }
    assert (Hentries : entries ≠ []).
    { unfold entries. pose proof (exportedCount_positive (x_limit req) _ Hlen) as Hc.
      rewrite <- (Permutation_length Hperm) in Hlen.
      destruct (exportedCount _ _); [lia|].
      destruct sorted; [simpl in Hlen; lia|discriminate]. }
    split; [exact Hentries|]. split; [|split].
    + fold entries in Hcsv.
      destruct entries as [|e es]; [contradiction|].
      now apply parseCSV_convertToCSV.
    + apply Forall_take. rewrite List.Forall_forall. intros e He.
      eapply Permutation_in in He; [|exact Hperm].
      now apply filter_In in He.
    + intros n Hn Hpos. unfold entries, exportedCount. rewrite Hn.
      destruct (0 <? n) eqn:E; [|apply Z.ltb_ge in E; lia].
      rewrite length_take. lia.
Qed.

Lemma exportEntries_csv_witness :
  ∃ body entries,
    exportEntries Sample.collection
      (mkExportQuery (Some "csv") (Some "lupus") None None (Some "5"))
    = Success (CsvAttachment "text/csv"
                 "attachment; filename=disease_database.csv" body) ∧
    entries ≠ [] ∧
    parseCSV body = headers :: map exportedValues entries ∧
    Z.of_nat (length entries) ≤ 5.
Proof.
  destruct (exportEntries_csv Sample.collection
              (mkExportQuery (Some "csv") (Some "lupus") None None (Some "5"))
              _ _ _ eq_refl) as (_ & _ & H).
  destruct H as (entries & Hne & Hparse & _ & Hlen); [discriminate|].
  eexists _, entries. split; [reflexivity|]. split; [exact Hne|].
  split; [exact Hparse|]. apply (Hlen 5 eq_refl). lia.
Defined.

(** ** Bulk validation *)

Lemma concat_imap_nil {A B} (f : nat → A → list B) (P : A → Prop) l :
  (∀ i x, f i x = [] ↔ P x) → (concat (imap f l) = [] ↔ Forall P l).
Proof.
  revert f. induction l as [|x l IH]; intros f Hf; cbn [imap concat].
  - split; [constructor|reflexivity].
  - rewrite List.Forall_cons_iff, <- (Hf 0%nat x), <- (IH (f ∘ S)).
    + split.
      * intros H. now apply app_eq_nil in H.
      * intros [-> ->]. reflexivity.
    + intros i y. apply Hf.
Qed.



Lemma missingText_nonBlank v : missingText v = false ↔ nonBlank v ≠ None.
Proof.
  unfold missingText, nonBlank. destruct v as [s|]; cbn [Js.truthyOpt default].
  - unfold id. destruct (Js.truthy s), (Js.truthy (Js.trim s)); simpl;
      split; congruence.
  - simpl. split; congruence.
Qed.

Lemma badUniprotId_validator v :
  badUniprotId v = false
  ↔ match v with Some u => uniprotIdValidator u = true | None => True end.
Proof.
  unfold badUniprotId, uniprotIdValidator.
  destruct v as [u|]; cbn [Js.truthyOpt default]; [|simpl; tauto]. unfold id.
  destruct (Js.truthy u); cbn [andb negb orb]; [|tauto].
  destruct (bool_decide (Some u = Some "Multiple")) eqn:Hm.
  - apply bool_decide_eq_true in Hm as [= ->]. simpl. tauto.
  - apply bool_decide_eq_false in Hm.
    rewrite (bool_decide_eq_false_2 (u = "Multiple")) by congruence.
    cbn [negb andb]. rewrite orb_false_r. now destruct (isUniprotId u).
Qed.

Lemma entryErrors_nil index item : entryErrors index item = [] ↔ validItem item.
Proof.
  unfold entryErrors, validItem, wellFormed. destruct item as [e|].
  - rewrite <- !missingText_nonBlank, <- badUniprotId_validator.
    destruct (missingText (disease e)), (missingText (autoantibody e)),
      (missingText (autoantigen e)), (badUniprotId (uniprotId e));
      cbn [app]; split; intros H; try discriminate; try tauto;
      try (destruct H as (? & ? & ? & ?); discriminate).
  - split; [discriminate|tauto].
Qed.





(** *** Agreement with the schema *)

Lemma trimStart_no_space s :
  allChars (λ c, negb (Js.isWhiteSpace c)) s = true → Js.trimStart s = s.
Proof.
  destruct s as [|c s]; [reflexivity|]. cbn [allChars Js.trimStart].
  now destruct (Js.isWhiteSpace c).
Qed.

Lemma trimEnd_no_space s :
  allChars (λ c, negb (Js.isWhiteSpace c)) s = true → Js.trimEnd s = s.
Proof.
  induction s as [|c s IH]; [reflexivity|]. cbn [allChars Js.trimEnd].
  intros [Hc Hs]%andb_true_iff. rewrite (IH Hs).
  destruct s; [|reflexivity]. now destruct (Js.isWhiteSpace c).
Qed.

Lemma allChars_impl (p q : ascii → bool) s :
  (∀ c, p c = true → q c = true) → allChars p s = true → allChars q s = true.
Proof.
  intros Hpq. induction s as [|c s IH]; [reflexivity|]. cbn [allChars].
  intros [Hc Hs]%andb_true_iff. now rewrite (Hpq c Hc), (IH Hs).
Qed.

Lemma isUpperOrDigit_no_space c :
  isUpperOrDigit c = true → negb (Js.isWhiteSpace c) = true.
Proof. destruct c as [[] [] [] [] [] [] [] []]; vm_compute; congruence. Qed.

Lemma isUpperLetter_isUpperOrDigit c : isUpperLetter c = true → isUpperOrDigit c = true.
Proof. unfold isUpperLetter, isUpperOrDigit. intros ->. apply orb_true_r. Qed.

Lemma isUniprotId_trim u : isUniprotId u = true → Js.trim u = u.
Proof.
  intros H.
  assert (Hall : allChars (λ c, negb (Js.isWhiteSpace c)) u = true).
  { destruct u as [|c rest]; [reflexivity|]. cbn [isUniprotId allChars] in *.
    apply andb_true_iff in H as [[Hc _]%andb_true_iff Hrest].
    rewrite (isUpperOrDigit_no_space c (isUpperLetter_isUpperOrDigit c Hc)).
    apply (allChars_impl _ _ _ isUpperOrDigit_no_space Hrest). }
  unfold Js.trim. now rewrite (trimStart_no_space u Hall), (trimEnd_no_space u Hall).
Qed.

(** X18. The bulk validation is at least as strict as the schema on the
    UniProt id: when it reports nothing, the id of every entry, trimmed as
    the schema stores it, passes the validator of the schema; the three
    required texts are not empty once trimmed. *)
Theorem validateBulkEntries_schema (items : list (option Entry)) (e : Entry) :
  validateBulkEntries (Some items) = [] →
  In (Some e) items →
  (∀ u, uniprotId e = Some u → uniprotIdValidator (Js.trim u) = true) ∧
  (∀ v, In v [disease e; autoantibody e; autoantigen e] →
        ∃ s, v = Some s ∧ Js.trim s ≠ "").
Proof.
  intros Hnil Hin.
  apply (concat_imap_nil entryErrors validItem items entryErrors_nil) in Hnil.
  rewrite List.Forall_forall in Hnil. specialize (Hnil _ Hin).
  destruct Hnil as (Hd & Hb & Hg & Hu). split.
  - intros u Heq. rewrite Heq in Hu. unfold uniprotIdValidator in Hu.
    apply orb_true_iff in Hu as [[Hu|Hu]%orb_true_iff|Hu].
    + destruct u; [reflexivity|discriminate].
    + rewrite (isUniprotId_trim u Hu). unfold uniprotIdValidator.
      now rewrite Hu, orb_true_r.
    + apply bool_decide_eq_true in Hu as ->. reflexivity.
  - assert (Hnb : ∀ v, nonBlank v ≠ None → ∃ s, v = Some s ∧ Js.trim s ≠ "").
    { intros [s|] Hv; [|now contradiction Hv]. exists s. split; [reflexivity|].
      unfold nonBlank in Hv. intros Hempty. rewrite Hempty in Hv.
      now rewrite andb_false_r in Hv. }
    intros v [<-|[<-|[<-|[]]]]; now apply Hnb.
Qed.

Lemma validateBulkEntries_schema_witness :
  uniprotIdValidator (Js.trim "P12345") = true.
Proof.
  apply (validateBulkEntries_schema [Some Sample.other] Sample.other eq_refl).
  - now left.
  - reflexivity.
Defined.

(** ** Statistics *)

Lemma addToGroup_countIn k k' groups :
  countIn k (addToGroup k' groups)
  = countIn k groups + (if bool_decide (k' = k) then 1 else 0).
Proof.
  induction groups as [|g rest IH]; cbn [addToGroup countIn g_id g_count].
  - lia.
  - destruct (bool_decide (g_id g = k')) eqn:E; cbn [countIn g_id g_count].
    + apply bool_decide_eq_true in E. rewrite E.
      destruct (bool_decide (k' = k)); lia.
    + rewrite IH. lia.
Qed.

Lemma addToGroup_ids k k' groups :
  In k (map g_id (addToGroup k' groups)) ↔ k = k' ∨ In k (map g_id groups).
Proof.
  induction groups as [|g rest IH]; cbn [addToGroup map In g_id].
  - intuition.
  - destruct (bool_decide (g_id g = k')) eqn:E; cbn [map In g_id].
    + apply bool_decide_eq_true in E. rewrite E. intuition.
    + rewrite IH. intuition.
Qed.

Lemma addToGroup_NoDup k groups :
  List.NoDup (map g_id groups) → List.NoDup (map g_id (addToGroup k groups)).
Proof.
  induction groups as [|g rest IH]; cbn [addToGroup map g_id].
  - intros _. repeat constructor. simpl. tauto.
  - intros [Hg Hrest]%List.NoDup_cons_iff.
    destruct (bool_decide (g_id g = k)) eqn:E; cbn [map g_id].
    + apply bool_decide_eq_true in E. rewrite <- E. now constructor.
    + apply bool_decide_eq_false in E. constructor; [|auto].
      rewrite addToGroup_ids. intros [H|H]; auto.
Qed.

Lemma addToGroup_positive k groups :
  Forall (λ g, 1 ≤ g_count g) groups →
  Forall (λ g, 1 ≤ g_count g) (addToGroup k groups).
Proof.
  induction 1 as [|g rest Hg Hrest IH]; cbn [addToGroup].
  - repeat constructor. simpl. lia.
  - destruct (bool_decide (g_id g = k)); constructor; auto. simpl. lia.
Qed.

Lemma addToGroup_sum k groups :
  sumCounts (addToGroup k groups) = sumCounts groups + 1.
Proof.
  unfold sumCounts. induction groups as [|g rest IH]; cbn [addToGroup foldr g_count].
  - lia.
  - destruct (bool_decide (g_id g = k)); cbn [foldr g_count]; lia.
Qed.

Lemma occurrences_cons field k e coll :
  occurrences field k (e :: coll)
  = occurrences field k coll + (if bool_decide (getField field e = k) then 1 else 0).
Proof.
  unfold occurrences. cbn [List.filter].
  destruct (bool_decide (getField field e = k)); cbn [length]; lia.
Qed.

Lemma groupCounts_fold field coll acc :
  let groups := foldl (λ groups e, addToGroup (getField field e) groups) acc coll in
  (∀ k, countIn k groups = countIn k acc + occurrences field k coll) ∧
  (∀ k, In k (map g_id groups)
        ↔ In k (map g_id acc) ∨ ∃ e, In e coll ∧ getField field e = k) ∧
  (List.NoDup (map g_id acc) → List.NoDup (map g_id groups)) ∧
  (Forall (λ g, 1 ≤ g_count g) acc → Forall (λ g, 1 ≤ g_count g) groups) ∧
  sumCounts groups = sumCounts acc + Z.of_nat (length coll).
Proof.
  revert acc. induction coll as [|e coll IH]; intros acc; cbn [foldl].
  - cbn zeta. unfold occurrences. cbn [List.filter length].
    repeat split; try tauto; try lia.
    + intros [H|(e & [] & _)]. exact H.
  - destruct (IH (addToGroup (getField field e) acc)) as (Hc & Hi & Hn & Hp & Hs).
    cbn zeta in *. repeat split.
    + intros k. rewrite Hc, addToGroup_countIn, occurrences_cons. lia.
    + rewrite Hi, addToGroup_ids.
      intros [[->|H]|(e' & He' & Hk)]; eauto.
      * right. exists e. split; [now left|reflexivity].
      * right. exists e'. split; [now right|exact Hk].
    + rewrite Hi, addToGroup_ids.
      intros [H|(e' & [<-|He'] & Hk)]; eauto.
    + intros H. now apply Hn, addToGroup_NoDup.
    + intros H. now apply Hp, addToGroup_positive.
    + rewrite Hs, addToGroup_sum. cbn [length]. lia.
Qed.

Lemma countIn_notin k groups : ¬ In k (map g_id groups) → countIn k groups = 0.
Proof.
  induction groups as [|g rest IH]; cbn [countIn map In]; [reflexivity|].
  intros H. rewrite IH by tauto.
  rewrite bool_decide_eq_false_2 by tauto. reflexivity.
Qed.

Lemma countIn_NoDup g groups :
  List.NoDup (map g_id groups) → In g groups → countIn (g_id g) groups = g_count g.
Proof.
  induction groups as [|g0 rest IH]; cbn [countIn map In]; [tauto|].
  intros [Hg0 Hrest]%List.NoDup_cons_iff [->|Hin].
  - rewrite bool_decide_eq_true_2 by reflexivity.
    rewrite countIn_notin by exact Hg0. lia.
  - rewrite (IH Hrest Hin), bool_decide_eq_false_2; [reflexivity|].
    intros E. apply Hg0. rewrite E. now apply in_map.
Qed.

Lemma groupCounts_spec field coll :
  List.NoDup (map g_id (groupCounts field coll)) ∧
  Forall (λ g, 1 ≤ g_count g ∧ g_count g = occurrences field (g_id g) coll)
         (groupCounts field coll) ∧
  (∀ e, In e coll → In (getField field e) (map g_id (groupCounts field coll))) ∧
  (∀ k, In k (map g_id (groupCounts field coll))
        → ∃ e, In e coll ∧ getField field e = k) ∧
  sumCounts (groupCounts field coll) = Z.of_nat (length coll).
Proof.
  unfold groupCounts.
  destruct (groupCounts_fold field coll []) as (Hc & Hi & Hn & Hp & Hs).
  cbn zeta in *. specialize (Hn ltac:(constructor)). specialize (Hp ltac:(constructor)).
  split; [exact Hn|]. split; [|split; [|split]].
  - rewrite List.Forall_forall in *. intros g Hg. split; [now apply Hp|].
    rewrite <- (countIn_NoDup g _ Hn Hg), Hc. reflexivity.
  - intros e He. apply Hi. right. eauto.
  - intros k Hk. apply Hi in Hk as [[]|H]. exact H.
  - rewrite Hs. reflexivity.
Qed.

Lemma StronglySorted_take_drop {A} (R : A → A → Prop) n l x y :
  StronglySorted R l → In x (take n l) → In y (drop n l) → R x y.
Proof.
  intros H. revert n. induction H as [|a l Hs IH Ha]; intros n.
  - now destruct n.
  - destruct n as [|n]; cbn [take drop]; [intros []|].
    intros [<-|Hx] Hy.
    + rewrite List.Forall_forall in Ha. apply Ha.
      rewrite <- (take_drop n l). apply in_or_app. now right.
    + now apply (IH n).
Qed.

Lemma sumCounts_Permutation l l' : l ≡ₚ l' → sumCounts l = sumCounts l'.
Proof.
  unfold sumCounts. induction 1; cbn [foldr]; lia.
Qed.

Lemma leKeys_count a b :
  leKeys groupValue [("count", -1)] a b = true → g_count b ≤ g_count a.
Proof.
  intros H. apply leKeys_single in H. cbn in H.
  destruct (g_count a ?= g_count b) eqn:E; try congruence.
  - apply Z.compare_eq in E. lia.
  - apply Z.compare_gt_iff in E. lia.
Qed.

Lemma topGroups_spec field n coll : isTopGroups field n coll (topGroups field n coll).
Proof.
  unfold isTopGroups, topGroups.
  destruct (groupCounts_spec field coll) as (Hnd & Hall & Hin & _ & _).
  set (groups := groupCounts field coll) in *.
  set (sorted := sortBy (leKeys groupValue [("count", -1)]) groups).
  assert (Hperm : sorted ≡ₚ groups) by apply sortBy_Permutation.
  assert (Hsorted : StronglySorted (λ a b, g_count b ≤ g_count a) sorted).
  { eapply StronglySorted_impl_In; [|apply sortBy_leKeys_sorted].
    intros a b _ _. apply leKeys_count. }
  assert (Hall' : Forall (λ g, 1 ≤ g_count g
                     ∧ g_count g = occurrences field (g_id g) coll) sorted).
  { rewrite List.Forall_forall in *. intros g Hg. apply Hall.
    eapply Permutation_in; [exact Hperm|exact Hg]. }
  split; [rewrite length_take; lia|]. split; [|split; [|split]].
  - assert (Hnd' : List.NoDup (map g_id sorted)).
    { eapply Permutation_NoDup; [|exact Hnd].
      symmetry. now apply Permutation_map. }
    rewrite <- (take_drop n sorted), map_app in Hnd'.
    now apply NoDup_app_remove_r in Hnd'.
  - now apply Forall_take.
  - now apply StronglySorted_take.
  - intros e He. specialize (Hin e He).
    apply in_map_iff in Hin as (g & Hk & Hg).
    eapply Permutation_in in Hg; [|symmetry; exact Hperm].
    rewrite <- (take_drop n sorted) in Hg. apply in_app_or in Hg as [Hg|Hg].
    + left. rewrite <- Hk. now apply in_map.
    + right. split.
      * rewrite length_take. assert (length (drop n sorted) ≠ 0%nat)
          by (destruct (drop n sorted); [contradiction|discriminate]).
        rewrite length_drop in *. lia.
      * rewrite List.Forall_forall. intros x Hx.
        pose proof (StronglySorted_take_drop _ n sorted x g Hsorted Hx Hg) as Hle.
        cbn beta in Hle. rewrite <- Hk.
        rewrite List.Forall_forall in Hall'.
        assert (Hgs : In g sorted)
          by (rewrite <- (take_drop n sorted); apply in_or_app; now right).
        destruct (Hall' g Hgs) as [_ <-]. exact Hle.
Qed.

(** X19. The three breakdowns of the statistics list the most frequent
    diseases (at most 20), autoantibodies and autoantigens (at most 10
    each): rows with distinct values, each with the number of records that
    have the value, larger counts first; a value that is left out occurs no
    more often than any listed one, and only when the list is full. *)
Theorem getStatistics_breakdowns (coll : Collection) :
  ∃ stats,
    getStatistics coll = Success stats ∧
    isTopGroups "disease" 20 coll (st_diseaseBreakdown stats) ∧
    isTopGroups "autoantibody" 10 coll (st_topAntibodies stats) ∧
    isTopGroups "autoantigen" 10 coll (st_topAntigens stats).
Proof.
  eexists. split; [reflexivity|]. cbn [st_diseaseBreakdown st_topAntibodies st_topAntigens].
  repeat split; apply topGroups_spec.
Qed.

Lemma verifiedCount_eq coll :
  verifiedCount coll
  = Z.of_nat (length (List.filter (λ e, default false (verified <$> metadata e)) coll)).
Proof.
  unfold verifiedCount. induction coll as [|e coll IH]; cbn [foldr List.filter]; [reflexivity|].
  rewrite IH. destruct (default false (verified <$> metadata e)); cbn [length]; lia.
Qed.

Lemma groupCounts_length coll :
  (length (groupCounts "disease" coll) ≤ S (length (dedup (omap disease coll))))%nat.
Proof.
  destruct (groupCounts_spec "disease" coll) as (Hnd & _ & _ & Hex & _).
  assert (H : (length (map g_id (groupCounts "disease" coll))
               ≤ length (None :: map Some (dedup (omap disease coll))))%nat).
  { apply List.NoDup_incl_length; [exact Hnd|].
    intros k Hk. apply Hex in Hk as (e & He & <-).
    change (getField "disease" e) with (disease e).
    destruct (disease e) as [v|] eqn:Hv; [right|now left].
    apply in_map, dedup_In. apply list_elem_of_In, list_elem_of_omap.
    exists e. split; [now apply list_elem_of_In|exact Hv]. }
  cbn [length] in H. rewrite (length_map (@Some string)) in H.
  now rewrite length_map in H.
Qed.

(** X20. The overview of the statistics is empty exactly for an empty
    collection.  Otherwise the total is the number of records, the number
    of verified records lies between 0 and the total, the unique diseases
    are listed once each and are the disease values of the collection,
    and their number is at most the total.  The disease breakdown has at
    most one row more than there are unique diseases, and when it has
    fewer than 20 rows its counts add up to the total. *)
Theorem getStatistics_overview (coll : Collection) :
  ∃ stats,
    getStatistics coll = Success stats ∧
    (st_overview stats = None ↔ coll = []) ∧
    (∀ ov, st_overview stats = Some ov →
       ov_totalEntries ov = Z.of_nat (length coll) ∧
       ov_verifiedEntries ov
       = Z.of_nat (length (List.filter
                             (λ e, default false (verified <$> metadata e)) coll)) ∧
       0 ≤ ov_verifiedEntries ov ≤ ov_totalEntries ov ∧
       ov_uniqueDiseasesCount ov = Z.of_nat (length (ov_uniqueDiseases ov)) ∧
       List.NoDup (ov_uniqueDiseases ov) ∧
       (∀ v, In v (ov_uniqueDiseases ov) ↔ ∃ e, In e coll ∧ disease e = Some v) ∧
       ov_uniqueDiseasesCount ov ≤ ov_totalEntries ov ∧
       Z.of_nat (length (st_diseaseBreakdown stats)) ≤ ov_uniqueDiseasesCount ov + 1 ∧
       ((length (st_diseaseBreakdown stats) < 20)%nat →
        sumCounts (st_diseaseBreakdown stats) = ov_totalEntries ov)).
Proof.
  eexists. split; [reflexivity|]. cbn [st_overview st_diseaseBreakdown].
  split.
  - destruct coll; cbn [overviewStats head]; split; congruence.
  - intros ov Hov. destruct coll as [|e0 coll0] eqn:Hcoll; [discriminate|].
    rewrite <- Hcoll in *. assert (Hstats : overviewStats coll = [ov]).
    { rewrite Hcoll in *. cbn [overviewStats head] in *. congruence. }
    clear Hov. rewrite Hcoll in Hstats at 1. cbn [overviewStats] in Hstats.
    rewrite <- Hcoll in Hstats. injection Hstats as <-.
    cbn [ov_totalEntries ov_verifiedEntries ov_uniqueDiseasesCount ov_uniqueDiseases].
    pose proof (dedup_omap_length disease coll) as Hlen.
    pose proof (List.filter_length_le
                  (λ e, default false (verified <$> metadata e)) coll) as Hver.
    split; [reflexivity|]. split; [apply verifiedCount_eq|].
    split; [rewrite verifiedCount_eq; lia|]. split; [reflexivity|].
    split; [apply dedup_NoDup|]. split; [|split; [lia|split]].
    + intros v. rewrite dedup_In, <- list_elem_of_In, list_elem_of_omap.
      split; intros (e & He & Hv); exists e; split; auto;
        now apply list_elem_of_In.
    + unfold topGroups. rewrite length_take, sortBy_length.
      pose proof (groupCounts_length coll). lia.
    + unfold topGroups. rewrite length_take, sortBy_length. intros Hlt.
      rewrite take_ge by (rewrite sortBy_length; lia).
      rewrite (sumCounts_Permutation _ _ (sortBy_Permutation _ _)).
      now destruct (groupCounts_spec "disease" coll) as (_ & _ & _ & _ & ->).
Qed.

Lemma getStatistics_overview_witness :
  ∃ stats ov,
    getStatistics Sample.collection = Success stats ∧
    st_overview stats = Some ov ∧ ov_totalEntries ov = 3.
Proof.
  destruct (getStatistics_overview Sample.collection) as (stats & Hs & _ & H).
  unfold getStatistics in Hs. injection Hs as <-.
  eexists _, _. split; [reflexivity|]. split; [reflexivity|].
  destruct (H _ eq_refl) as [Ht _]. exact Ht.
Defined.

(** ** The upload filter *)

Lemma length_append_string a b :
  String.length (a +:+ b) = (String.length a + String.length b)%nat.
Proof.
  induction a as [|c a IH]; [reflexivity|].
  change (String c a +:+ b) with (String c (a +:+ b)). cbn [String.length].
  now rewrite IH.
Qed.

Lemma dropChars_suffix n s : ∃ stem, s = stem +:+ dropChars n s.
Proof.
  revert s. induction n as [|n IH]; intros s; cbn [dropChars].
  - now exists "".
  - destruct s as [|c s]; [now exists ""|].
    destruct (IH s) as (stem & Hstem). exists (String c stem).
    change (String c stem +:+ dropChars n s) with (String c (stem +:+ dropChars n s)).
    now rewrite <- Hstem.
Qed.

Lemma dropChars_append stem rest :
  dropChars (String.length stem) (stem +:+ rest) = rest.
Proof.
  induction stem as [|c stem IH]; [reflexivity|].
  change (String c stem +:+ rest) with (String c (stem +:+ rest)).
  cbn [String.length dropChars]. exact IH.
Qed.

Lemma lastIndexOf_absent c s : Js.includesChar c s = false → lastIndexOf c s = -1.
Proof.
  induction s as [|d s IH]; cbn [Js.includesChar lastIndexOf]; [reflexivity|].
  intros [Hd Hs]%orb_false_iff. now rewrite (IH Hs), Hd.
Qed.

Lemma lastIndexOf_append c stem rest :
  Js.includesChar c rest = false →
  lastIndexOf c (stem +:+ String c rest) = Z.of_nat (String.length stem).
Proof.
  intros Hrest. induction stem as [|d stem IH].
  - change ("" +:+ String c rest) with (String c rest). cbn [lastIndexOf String.length].
    now rewrite (lastIndexOf_absent c rest Hrest), Ascii.eqb_refl.
  - change (String d stem +:+ String c rest) with (String d (stem +:+ String c rest)).
    cbn [lastIndexOf String.length]. rewrite IH.
    destruct (0 <=? Z.of_nat (String.length stem)) eqn:E; [lia|].
    apply Z.leb_gt in E. lia.
Qed.

Lemma lowerCase_dot d : Ascii.eqb "." (lowerCase d) = Ascii.eqb "." d.
Proof. destruct d as [[] [] [] [] [] [] [] []]; reflexivity. Qed.

Lemma lastIndexOf_toLowerCase s :
  lastIndexOf "." (toLowerCase s) = lastIndexOf "." s.
Proof.
  induction s as [|d s IH]; cbn [toLowerCase lastIndexOf]; [reflexivity|].
  now rewrite IH, lowerCase_dot.
Qed.

(** The extension the filter reads off a lower-cased name is a given text
    made of a dot and no further dot exactly when the name ends with that
    text. *)
Lemma substr_lastIndexOf s rest :
  Js.includesChar "." rest = false →
  substr s (lastIndexOf "." s) = String "." rest ↔ ∃ stem, s = stem +:+ String "." rest.
Proof.
  intros Hrest. split.
  - intros H. unfold substr in H.
    destruct (dropChars_suffix
                (Z.to_nat (if lastIndexOf "." s <? 0
                           then Z.max (Js.length s + lastIndexOf "." s) 0
                           else Z.min (lastIndexOf "." s) (Js.length s))) s)
      as (stem & Hstem).
    exists stem. now rewrite <- H.
  - intros (stem & ->). rewrite (lastIndexOf_append "." stem rest Hrest).
    unfold substr, Js.length. rewrite length_append_string.
    destruct (Z.of_nat (String.length stem) <? 0) eqn:E;
      [apply Z.ltb_lt in E; lia|].
    rewrite Z.min_l by lia. rewrite Nat2Z.id. apply dropChars_append.
Qed.

(** X21. The upload filter accepts a file exactly when its declared type
    is one of the eight CSV and Excel types, or its name, in lower case,
    ends with .csv, .xlsx or .xls. *)
Theorem fileFilter_accepts (file : File) :
  fileFilter file = true
  ↔ In (mimetype file) allowedMimes ∨
    ∃ stem ext, In ext allowedExtensions
                ∧ toLowerCase (originalname file) = stem +:+ ext.
Proof.
  unfold fileFilter. rewrite <- lastIndexOf_toLowerCase.
  set (name := toLowerCase (originalname file)).
  rewrite orb_true_iff, !existsb_exists.
  assert (Hmime : (∃ m, In m allowedMimes ∧ String.eqb (mimetype file) m = true)
                  ↔ In (mimetype file) allowedMimes).
  { split.
    - intros (m & Hm & Heq). apply String.eqb_eq in Heq. now subst.
    - intros H. exists (mimetype file). split; [exact H|apply String.eqb_refl]. }
  assert (Hext : (∃ ext, In ext allowedExtensions
                         ∧ String.eqb (substr name (lastIndexOf "." name)) ext = true)
                 ↔ ∃ stem ext, In ext allowedExtensions ∧ name = stem +:+ ext).
  { split.
    - intros (ext & Hext & Heq). apply String.eqb_eq in Heq.
      cbn [allowedExtensions In] in Hext.
      destruct Hext as [<-|[<-|[<-|[]]]];
        apply substr_lastIndexOf in Heq as (stem & Hstem); try reflexivity;
        eexists stem, _; (split; [|exact Hstem]); simpl; tauto.
    - intros (stem & ext & Hext & Heq). exists ext. split; [exact Hext|].
      apply String.eqb_eq.
      cbn [allowedExtensions In] in Hext.
      destruct Hext as [<-|[<-|[<-|[]]]];
        apply substr_lastIndexOf; [reflexivity|eauto..]. }
  rewrite Hmime, Hext. reflexivity.
Qed.

(** ** The router *)

Lemma segmentMatches_overlap p q segment :
  segmentMatches p segment = true → segmentMatches q segment = true →
  segmentsOverlap p q = true.
Proof.
  destruct p as [s|n], q as [t|n']; cbn [segmentMatches segmentsOverlap]; auto.
  intros Hs%String.eqb_eq Ht%String.eqb_eq. apply String.eqb_eq. congruence.
Qed.

Lemma pathMatches_overlap ps qs path :
  pathMatches ps path = true → pathMatches qs path = true →
  patternsOverlap ps qs = true.
Proof.
  revert qs path. induction ps as [|p ps IH]; intros [|q qs] [|segment path];
    cbn [pathMatches patternsOverlap]; try discriminate; auto.
  intros [Hp Hps]%andb_true_iff [Hq Hqs]%andb_true_iff.
  now rewrite (segmentMatches_overlap p q segment Hp Hq), (IH qs path Hps Hqs).
Qed.

Lemma routeMatches_overlap method path r1 r2 :
  routeMatches method path r1 = true → routeMatches method path r2 = true →
  routesOverlap r1 r2 = true.
Proof.
  unfold routeMatches, routesOverlap.
  intros [H1 Hp1]%andb_true_iff [H2 Hp2]%andb_true_iff.
  apply bool_decide_eq_true in H1, H2.
  rewrite bool_decide_eq_true_2 by congruence.
  exact (pathMatches_overlap _ _ path Hp1 Hp2).
Qed.

Lemma pairwiseDisjoint_single method path routes :
  pairwiseDisjoint routes = true →
  (length (List.filter (routeMatches method path) routes) ≤ 1)%nat.
Proof.
  induction routes as [|r rest IH]; cbn [pairwiseDisjoint List.filter length]; [lia|].
  intros [Hr Hrest]%andb_true_iff.
  destruct (routeMatches method path r) eqn:Hm; [|auto].
  assert (Hnone : List.filter (routeMatches method path) rest = []).
  { destruct (List.filter _ rest) as [|r' l] eqn:E; [reflexivity|].
    assert (Hin : In r' (List.filter (routeMatches method path) rest))
      by (rewrite E; now left).
    apply filter_In in Hin as [Hin Hm'].
    rewrite forallb_forall in Hr. specialize (Hr r' Hin).
    now rewrite (routeMatches_overlap method path r r' Hm Hm') in Hr. }
  rewrite Hnone. cbn [length]. lia.
Qed.

(** X22. No request is claimed by two routes: for every method and path at
    most one route of the router matches, so the order of registration
    decides nothing; and every route is reached by some request. *)
Theorem router_unambiguous (method : Method) (path : list string) :
  (length (List.filter (routeMatches method path) router) ≤ 1)%nat ∧
  (∀ r, In r router → dispatch (r_method r) (samplePath r) = Some (r_handler r)).
Proof.
  split.
  - apply pairwiseDisjoint_single. reflexivity.
  - intros r Hr. cbn [router In] in Hr.
    repeat (destruct Hr as [<-|Hr]; [reflexivity|]). destruct Hr.
Qed.

Lemma router_unambiguous_witness :
  dispatch GET ["unique"; "field"] = Some GetUniqueValues.
Proof.
  apply (proj2 (router_unambiguous GET [])
           (mkRoute GET [Lit "unique"; Param "field"] GetUniqueValues)).
  cbn [router In]. tauto.
Defined.

(** ** Bulk import *)

Lemma objects_map_Some es : objects (map Some es) = Some es.
Proof.
  induction es as [|e es IH]; cbn [map objects]; [reflexivity|].
  cbn [mbind option_bind]. now rewrite IH.
Qed.

Lemma validItem_objects items :
  Forall validItem items → ∃ es, items = map Some es ∧ Forall wellFormed es.
Proof.
  induction 1 as [|item items Hitem Hitems (es & -> & Hes)].
  - now exists [].
  - destruct item as [e|]; [|contradiction]. exists (e :: es).
    split; [reflexivity|]. now constructor.
Qed.

Lemma wellFormed_validItem es : Forall wellFormed es → Forall validItem (map Some es).
Proof. induction 1; cbn [map]; constructor; auto. Qed.

Section BulkImportLemmas.
Variable clock : nat → Z.
Variable insertMany : list Entry → InsertOutcome.

Lemma bulkImport_accepts entries es :
  importable entries es →
  ∃ response,
    bulkImport clock insertMany entries = ([stamped clock es], response) ∧
    match insertMany (stamped clock es) with
    | Inserted results =>
        response
        = Imported
            ("Successfully imported "
             +:+ numberToString (Z.of_nat (length results)) +:+ " entries")
            (Z.of_nat (length results)) (Z.of_nat (length es))
            (Z.of_nat (length es) - Z.of_nat (length results))
    | Thrown error =>
        (∀ n, err_insertedCount error = Some n → 0 < n →
           response
           = PartlyImported
               ("Partially successful: imported " +:+ numberToString n +:+ " entries")
               n (Z.of_nat (length (default [] (err_writeErrors error))))
               (default [] (err_writeErrors error))) ∧
        ((∀ n, err_insertedCount error = Some n → n ≤ 0) →
           response
           = ImportError (fst (Errors.handleError error "Error during bulk import"))
               (snd (Errors.handleError error "Error during bulk import")))
    end.
Proof.
  intros (-> & Hlen & Hall).
  destruct es as [|e es]; [simpl in Hlen; lia|].
  set (items := map Some (e :: es)).
  assert (Hv : validateBulkEntries (Some items) = []).
  { cbn [validateBulkEntries].
    apply (concat_imap_nil entryErrors validItem items entryErrors_nil).
    now apply wellFormed_validItem. }
  assert (Hl : length items = length (e :: es)) by apply length_map.
  assert (Hunfold :
    bulkImport clock insertMany (Some items) =
    if 1000 <? Z.of_nat (length items) then
      ([], ImportRejected "Cannot import more than 1000 entries at once" None)
    else if 0 <? Z.of_nat (length (validateBulkEntries (Some items))) then
      ([], ImportRejected "Validation errors in bulk data"
             (Some (validateBulkEntries (Some items))))
    else
      match objects items with
      | None => ([], ImportError 500 "Error during bulk import")
      | Some es' =>
          ([stamped clock es'],
           match insertMany (stamped clock es') with
           | Inserted results =>
               Imported
                 ("Successfully imported "
                  +:+ numberToString (Z.of_nat (length results)) +:+ " entries")
                 (Z.of_nat (length results)) (Z.of_nat (length items))
                 (Z.of_nat (length items) - Z.of_nat (length results))
           | Thrown error =>
               match err_insertedCount error with
               | Some insertedCount =>
                   if 0 <? insertedCount then
                     PartlyImported
                       ("Partially successful: imported "
                        +:+ numberToString insertedCount +:+ " entries")
                       insertedCount
                       (Z.of_nat (length (default [] (err_writeErrors error))))
                       (default [] (err_writeErrors error))
                   else
                     let '(status, message) :=
                       Errors.handleError error "Error during bulk import" in
                     ImportError status message
               | None =>
                   let '(status, message) :=
                     Errors.handleError error "Error during bulk import" in
                   ImportError status message
               end
           end)
      end) by reflexivity.
  rewrite Hunfold, Hv, Hl. clear Hunfold.
  destruct (1000 <? Z.of_nat (length (e :: es))) eqn:E;
    [apply Z.ltb_lt in E; lia|].
  cbn [length Z.of_nat Z.ltb Z.compare].
  unfold items. rewrite objects_map_Some.
  eexists. split; [reflexivity|].
  destruct (insertMany (stamped clock (e :: es))) as [results|error].
  - reflexivity.
  - destruct (err_insertedCount error) as [n|].
    + destruct (0 <? n) eqn:En.
      * apply Z.ltb_lt in En. split.
        -- now intros n' [= <-] _.
        -- intros Hle. specialize (Hle n eq_refl). lia.
      * apply Z.ltb_ge in En. split.
        -- intros n' [= <-] Hpos. lia.
        -- intros _. now destruct (Errors.handleError _ _).
    + split; [discriminate|].
      intros _. now destruct (Errors.handleError _ _).
Qed.

Lemma handleError_cases (error : ThrownError) (message : string) :
  Errors.handleError error message =
  if bool_decide (err_name error = "ValidationError") then
    (400, "Validation error: " +:+ join ", " (err_messages error))
  else if bool_decide (err_name error = "CastError") then (400, "Invalid ID format")
  else if bool_decide (err_code error = Some 11000) then (409, "Duplicate entry found")
  else (500, message).
Proof.
  unfold Errors.handleError.
  destruct (String.eqb_spec (err_name error) "ValidationError") as [H1|H1].
  - now rewrite bool_decide_eq_true_2.
  - rewrite (bool_decide_eq_false_2 _ H1).
    destruct (String.eqb_spec (err_name error) "CastError") as [H2|H2].
    + now rewrite bool_decide_eq_true_2.
    + now rewrite (bool_decide_eq_false_2 _ H2).
Qed.

Lemma bulkImport_rejects entries :
  (∀ es, ¬ importable entries es) →
  ∃ message errors,
    bulkImport clock insertMany entries = ([], ImportRejected message errors).
Proof.
  intros Hnot. unfold bulkImport.
  destruct entries as [[|item items]|]; [eauto..|].
  - destruct (1000 <? Z.of_nat (length (item :: items))) eqn:E; [eauto|].
    apply Z.ltb_ge in E.
    destruct (validateBulkEntries (Some (item :: items))) as [|m ms] eqn:Hv.
    + exfalso.
      apply (concat_imap_nil entryErrors validItem _ entryErrors_nil) in Hv.
      apply validItem_objects in Hv as (es & Heq & Hes).
      apply (Hnot es). split; [now rewrite Heq|]. split; [|exact Hes].
      assert (Hl : length (item :: items) = length es)
        by (rewrite Heq; apply length_map).
      rewrite <- Hl. cbn [length] in *. lia.
    + cbn [length]. destruct (0 <? Z.of_nat (S (length ms))) eqn:E'; [eauto|].
      apply Z.ltb_ge in E'. lia.
  - eauto.
Qed.

End BulkImportLemmas.

(** X23. The bulk import hands documents to the storage only for a body
    that is an array of one to a thousand well-formed records, and then
    exactly once: the records in order, each with its texts unchanged and
    with metadata holding two readings of the clock as its dates, the
    given source, or `bulk_import' when none or an empty one is given, and
    the given verification flag or false.  When the storage returns, the
    answer says how many documents were imported and counts the inserted
    documents, the total, and their difference as failed.  When it throws
    an error with a positive inserted count, the answer is the partial
    success with that count, the number of write errors and the write
    errors (none when the error has none); when it throws any other
    error, the answer is the one of the error handler: status 400 for a
    validation error, with its messages, or a cast error, else 409 for
    the duplicate-key code 11000, else 500 with the message of the
    handler.  Every other body is answered with status 400 and nothing
    reaches the storage. *)
Theorem bulkImport_guarded (clock : nat → Z) (insertMany : list Entry → InsertOutcome)
    (entries : option (list (option Entry))) :
  (∀ es, importable entries es →
     ∃ response,
       bulkImport clock insertMany entries = ([stamped clock es], response) ∧
       match insertMany (stamped clock es) with
       | Inserted results =>
           response
           = Imported
               ("Successfully imported "
                +:+ numberToString (Z.of_nat (length results)) +:+ " entries")
               (Z.of_nat (length results)) (Z.of_nat (length es))
               (Z.of_nat (length es) - Z.of_nat (length results))
       | Thrown error =>
           (∀ n, err_insertedCount error = Some n → 0 < n →
              response
              = PartlyImported
                  ("Partially successful: imported "
                   +:+ numberToString n +:+ " entries")
                  n (Z.of_nat (length (default [] (err_writeErrors error))))
                  (default [] (err_writeErrors error))) ∧
           ((∀ n, err_insertedCount error = Some n → n ≤ 0) →
              response
              = ImportError
                  (fst (Errors.handleError error "Error during bulk import"))
                  (snd (Errors.handleError error "Error during bulk import")))
       end) ∧
  (∀ error message,
     Errors.handleError error message =
     if bool_decide (err_name error = "ValidationError") then
       (400, "Validation error: " +:+ join ", " (err_messages error))
     else if bool_decide (err_name error = "CastError") then (400, "Invalid ID format")
     else if bool_decide (err_code error = Some 11000)
          then (409, "Duplicate entry found")
          else (500, message)) ∧
  ((∀ es, ¬ importable entries es) →
     ∃ message errors,
       bulkImport clock insertMany entries = ([], ImportRejected message errors)) ∧
  (∀ es, length (stamped clock es) = length es ∧
     ∀ i e, es !! i = Some e →
       ∃ doc m,
         stamped clock es !! i = Some doc ∧
         metadata doc = Some m ∧
         dateAdded m = Some (clock (2 * i)%nat) ∧
         lastUpdated m = Some (clock (2 * i + 1)%nat) ∧
         source m = Some (match metadata e ≫= source with
                          | Some given => if Js.truthy given then given else "bulk_import"
                          | None => "bulk_import"
                          end) ∧
         verified m = default false (verified <$> metadata e) ∧
         ∀ name, getField name doc = getField name e).
Proof.
  split; [apply bulkImport_accepts|]. split; [apply handleError_cases|].
  split; [apply bulkImport_rejects|].
  intros es. unfold stamped. split; [apply length_imap|].
  intros i e Hi. eexists _, _. rewrite list_lookup_imap, Hi. cbn [fmap option_fmap option_map].
  split; [reflexivity|]. split; [reflexivity|].
  cbn [dateAdded lastUpdated source verified]. repeat split.
  now destruct (metadata e ≫= source) as [[|c s]|].
Qed.

Lemma bulkImport_guarded_witness :
  bulkImport (λ n, 1700000000000 + Z.of_nat n)
    (λ _, Thrown (mkThrownError "MongoBulkWriteError" (Some 11000) [] (Some 1)
                    (Some ["E11000 duplicate key error"])))
    (Some [Some Sample.other; Some Sample.other])
  = ([[withMetadata 1700000000000 1700000000001 Sample.other;
       withMetadata 1700000000002 1700000000003 Sample.other]],
     PartlyImported "Partially successful: imported 1 entries" 1 1
       ["E11000 duplicate key error"]).
Proof.
  destruct (bulkImport_guarded (λ n, 1700000000000 + Z.of_nat n)
              (λ _, Thrown (mkThrownError "MongoBulkWriteError" (Some 11000) []
                              (Some 1) (Some ["E11000 duplicate key error"])))
              (Some [Some Sample.other; Some Sample.other])) as (H & _).
  destruct (H [Sample.other; Sample.other]) as (response & Hr & Hpartial & _).
  - split; [reflexivity|]. split; [simpl; lia|].
    repeat constructor; discriminate.
  - rewrite Hr. f_equal. apply (Hpartial 1 eq_refl). lia.
Defined.
